(** * Equalizer: a shallow embedding of the server window, the net node,
      the reference pointer, the eqPly channel and the AGL event handler

    The first part embeds the C++ sources, one module per source file:
    - [lib/base/refPtr.h]           -> [Module Base]
    - [lib/net/node.h]              -> [Module Net]
    - [server/window.cpp]           -> [Module Server]
    - [examples/eqPly/channel.cpp]  -> [Module EqPly]
    - [lib/client/aglEventHandler.cpp] -> [Module AGL]

    The second part states and proves their properties, in [BaseProps],
    [NetProps], [ServerProps], [EqPlyProps] and [AGLProps].

    Objects reached through C++ pointers live in explicit stores (finite
    maps from addresses to object states); member functions take the
    object state and return the new one together with the calls they
    issued on collaborators whose code is outside these files.  Those
    collaborators are the fields of a type class, so that each function
    is embedded for every implementation of them. *)

From Stdlib Require Import ZArith NArith QArith Qround String Ascii List Bool Lia Lqa.
From stdpp Require Import base option list gmap strings.

(* ===================================================================== *)
(** * eqBase *)
(* ===================================================================== *)
Module Base.

(** An object address.  [NULL] is [None] at type [option Ptr]. *)
Definition Ptr := positive.

(** ** The pointee interface used by [RefPtr<T>]

    [RefPtr<T>] only requires [T::ref()] and [T::unref()].  Their code is
    not part of [refPtr.h]; they act on the store of pointees. *)
Class Referenced (Heap : Type) := {
  T_ref   : Ptr -> Heap -> Heap;
  T_unref : Ptr -> Heap -> Heap
}.

(** Calls issued on pointees, in program order. *)
Inductive RefCall :=
| CallRef   (p : Ptr)
| CallUnref (p : Ptr).

Section RefPtr.
Context {Heap : Type} `{Referenced Heap}.

(** [template<class T> class RefPtr { T* _ptr; }] *)
Record RefPtr := mkRefPtr { _ptr : option Ptr }.

(** The effect of a member function: the new store and the pointee
    calls it made. *)
Definition Eff : Type := Heap * list RefCall.

(** [void ref() { if(_ptr) _ptr->ref(); }] *)
Definition ref (this : RefPtr) (h : Heap) : Eff :=
  match _ptr this with
  | Some p => (T_ref p h, [CallRef p])
  | None => (h, [])
  end.

(** [void unref() { if(_ptr) _ptr->unref(); }] *)
Definition unref (this : RefPtr) (h : Heap) : Eff :=
  match _ptr this with
  | Some p => (T_unref p h, [CallUnref p])
  | None => (h, [])
  end.

(** [RefPtr() : _ptr(NULL) {}] *)
Definition RefPtr_default : RefPtr := mkRefPtr None.

(** [RefPtr(T* ptr) : _ptr(ptr) { ref(); }] *)
Definition RefPtr_from (ptr : option Ptr) (h : Heap) : RefPtr * Eff :=
  let this := mkRefPtr ptr in (this, ref this h).

(** [RefPtr(const RefPtr& from) : _ptr(from._ptr) { ref(); }] *)
Definition RefPtr_copy (from : RefPtr) (h : Heap) : RefPtr * Eff :=
  RefPtr_from (_ptr from) h.

(** [~RefPtr() { unref(); }] *)
Definition RefPtr_destroy (this : RefPtr) (h : Heap) : Eff := unref this h.

(** [T* get() { return _ptr; }] *)
Definition get (this : RefPtr) : option Ptr := _ptr this.

(** [bool isValid() { return ( _ptr!=NULL ); }] *)
Definition isValid (this : RefPtr) : bool :=
  match _ptr this with Some _ => true | None => false end.

(** [RefPtr& operator = ( T* ptr )]:
<<
    if( _ptr == ptr ) return *this;
    T* tmp = _ptr;
    _ptr = ptr;
    ref();
    if( tmp ) tmp->unref();
    return *this;
>> *)
Definition assign_ptr (this : RefPtr) (ptr : option Ptr) (h : Heap)
  : RefPtr * Eff :=
  if decide (_ptr this = ptr) then (this, (h, []))
  else
    let tmp := _ptr this in
    let this' := mkRefPtr ptr in
    let '(h1, c1) := ref this' h in
    match tmp with
    | Some t => (this', (T_unref t h1, c1 ++ [CallUnref t]))
    | None => (this', (h1, c1))
    end.

(** [RefPtr& operator = ( const RefPtr& rhs )] has the body of
    [operator = ( T* )] with [rhs._ptr] for [ptr].  [rhs] is read before
    [_ptr] is written, and when [rhs] is [*this] the first test returns. *)
Definition assign (this rhs : RefPtr) (h : Heap) : RefPtr * Eff :=
  assign_ptr this (_ptr rhs) h.

(** The store after referencing [new] and then unreferencing [old]. *)
Definition ref_then_unref (old new : option Ptr) (h : Heap) : Heap :=
  let h1 := match new with Some p => T_ref p h | None => h end in
  match old with Some t => T_unref t h1 | None => h1 end.

(** The calls of an effective assignment, in order. *)
Definition calls_of_assign (old new : option Ptr) : list RefCall :=
  match new with Some p => [CallRef p] | None => [] end ++
  match old with Some t => [CallUnref t] | None => [] end.

End RefPtr.

(** ** A counting store of pointees

    An instance of the pointee interface in which every live object
    carries its reference count: [ref()] increments it, [unref()]
    decrements it and releases the object when the count reaches zero. *)
Definition CountHeap := gmap Ptr nat.

Definition count_ref (p : Ptr) (h : gmap Ptr nat) : gmap Ptr nat :=
  alter S p h.

Definition count_unref (p : Ptr) (h : gmap Ptr nat) : gmap Ptr nat :=
  match h !! p with
  | Some (S (S n)) => <[p := S n]> h
  | Some _ => delete p h
  | None => h
  end.

#[export] Instance CountHeap_Referenced : Referenced (gmap Ptr nat) :=
  {| T_ref := count_ref; T_unref := count_unref |}.

(** The reference count of [p]; a released or unknown object counts 0. *)
Definition refCount (h : gmap Ptr nat) (p : Ptr) : nat := default 0 (h !! p).

(* --------------------------------------------------------------------- *)
(** ** RequestHandler *)
(* --------------------------------------------------------------------- *)

(** The identifier no request ever has ([EQ_INVALID_ID], the largest
    [uint32_t]).  The functions only compare identifiers with it. *)
Definition EQ_INVALID_ID : N := 0xffffffff%N.

(** Modelled from the spec: [eqBase::RequestHandler]; its header
    [eq/base/requestHandler.h] is not among the sources.  Section 4.f:
    a map from request identifier to a one-shot value;
    [registerRequest() -> id] allocates, [waitRequest(id)] blocks,
    [serveRequest(id, value)] fulfils; a registered request that is
    served and waited for yields exactly the served value, exactly once.

    A request is registered-and-unserved ([Some None]) or served
    ([Some (Some v)]).  The value is the pointer-sized payload, an integer. *)
Record RequestHandler := mkRequestHandler {
  rh_nextID   : N;
  rh_requests : gmap N (option Z)
}.

Definition RequestHandler_new : RequestHandler :=
  mkRequestHandler 0%N ∅.

Definition registerRequest (rh : RequestHandler) : N * RequestHandler :=
  let id := rh_nextID rh in
  (id, mkRequestHandler (N.succ id) (<[id := None]> (rh_requests rh))).

Definition serveRequest (id : N) (v : Z) (rh : RequestHandler) : RequestHandler :=
  match rh_requests rh !! id with
  | Some None => mkRequestHandler (rh_nextID rh) (<[id := Some v]> (rh_requests rh))
  | _ => rh
  end.

(** [waitRequest] returns once the request has been served; on a request
    that is not served there is no return value ([None]: the caller stays
    blocked). *)
Definition waitRequest (id : N) (rh : RequestHandler) : option (Z * RequestHandler) :=
  match rh_requests rh !! id with
  | Some (Some v) => Some (v, mkRequestHandler (rh_nextID rh) (delete id (rh_requests rh)))
  | _ => None
  end.

(** The C++ conversion to [bool] of a pointer-sized value. *)
Definition bool_of_ptr (v : Z) : bool := negb (v =? 0)%Z.

(** The C++ conversion of a [bool] to a pointer-sized value. *)
Definition ptr_of_bool (b : bool) : Z := if b then 1%Z else 0%Z.


(* --------------------------------------------------------------------- *)
(** ** Programs on reference pointers *)
(* --------------------------------------------------------------------- *)

Section Owners.
Context {Heap : Type} `{Referenced Heap}.

(** [RefPtr( RefPtr<from> const &f, RefPtr_scast )]:
    [_ptr = static_cast<T*>(f._ptr); ref();].  The cast changes the static
    type of the pointer, not the pointee. *)
Definition RefPtr_scast (f : RefPtr) (h : Heap) : RefPtr * (Heap * list RefCall) :=
  let this := mkRefPtr (_ptr f) in (this, ref this h).

(** [RefPtr_static_cast( f )]: [return RefPtr<to>( f, RefPtr_scast() );] *)
Definition RefPtr_static_cast (f : RefPtr) (h : Heap) : RefPtr * (Heap * list RefCall) :=
  RefPtr_scast f h.

(** One step of a program that owns reference pointers.  The program's
    pointers are numbered by their position in the list of the live
    ones. *)
Inductive Op :=
| OpDefault                                   (* RefPtr<T> r;            *)
| OpFrom (ptr : option Ptr)                   (* RefPtr<T> r( ptr );     *)
| OpCopy (from : nat)                         (* RefPtr<T> r( from );    *)
| OpCast (from : nat)                         (* RefPtr_static_cast      *)
| OpAssign (this rhs : nat)                   (* this = rhs;             *)
| OpAssignPtr (this : nat) (ptr : option Ptr) (* this = ptr;             *)
| OpDestroy (this : nat).                     (* this goes out of scope  *)

(** The live pointers, the store of pointees and the calls made on
    pointees so far. *)
Definition Owners : Type := list RefPtr * (Heap * list RefCall).

(** A constructor has run: its pointer is live, its calls are made. *)
Definition construct (st : Owners) (r : RefPtr * (Heap * list RefCall)) : Owners :=
  (st.1 ++ [r.1], (r.2.1, st.2.2 ++ r.2.2)).

(** A step that names a pointer that is not live is not a step of any
    program; it leaves everything as it is. *)
Definition step (st : Owners) (op : Op) : Owners :=
  let h := st.2.1 in
  match op with
  | OpDefault => (st.1 ++ [RefPtr_default], st.2)
  | OpFrom ptr => construct st (RefPtr_from ptr h)
  | OpCopy from =>
      match st.1 !! from with
      | Some f => construct st (RefPtr_copy f h)
      | None => st
      end
  | OpCast from =>
      match st.1 !! from with
      | Some f => construct st (RefPtr_static_cast f h)
      | None => st
      end
  | OpAssign this rhs =>
      match st.1 !! this, st.1 !! rhs with
      | Some t, Some r =>
          let '(t', (h', calls)) := assign t r h in
          (<[this := t']> st.1, (h', st.2.2 ++ calls))
      | _, _ => st
      end
  | OpAssignPtr this ptr =>
      match st.1 !! this with
      | Some t =>
          let '(t', (h', calls)) := assign_ptr t ptr h in
          (<[this := t']> st.1, (h', st.2.2 ++ calls))
      | None => st
      end
  | OpDestroy this =>
      match st.1 !! this with
      | Some t =>
          let '(h', calls) := RefPtr_destroy t h in
          (delete this st.1, (h', st.2.2 ++ calls))
      | None => st
      end
  end.

(** A program run from a state without pointers and without calls. *)
Definition run (ops : list Op) (h : Heap) : Owners := foldl step ([], (h, [])) ops.

(** The number of [ref()] calls, respectively [unref()] calls, on [p]. *)
Definition refs (p : Ptr) (calls : list RefCall) : nat :=
  sum_list_with (fun c => match c with
                          | CallRef q => if decide (q = p) then 1 else 0
                          | CallUnref _ => 0
                          end) calls.

Definition unrefs (p : Ptr) (calls : list RefCall) : nat :=
  sum_list_with (fun c => match c with
                          | CallUnref q => if decide (q = p) then 1 else 0
                          | CallRef _ => 0
                          end) calls.

(** The number of live pointers that hold [p]. *)
Definition holders (p : Ptr) (owners : list RefPtr) : nat :=
  sum_list_with (fun r => if decide (_ptr r = Some p) then 1 else 0) owners.

(** The store after the pointee calls [calls], made in order. *)
Definition replay (calls : list RefCall) (h : Heap) : Heap :=
  foldl (fun h c => match c with
                    | CallRef p => T_ref p h
                    | CallUnref p => T_unref p h
                    end) h calls.

(** The invariant of a program's state, for a program started on the
    store [h0]: every pointee has been referenced once more than
    unreferenced for each live pointer that holds it, and the store is the
    one the calls made so far produce. *)
Definition balanced (h0 : Heap) (st : Owners) : Prop :=
  (forall p, refs p st.2.2 = unrefs p st.2.2 + holders p st.1) /\
  st.2.1 = replay st.2.2 h0.

End Owners.

End Base.

(* ===================================================================== *)
(** * eqNet *)
(* ===================================================================== *)
Module Net.
Import Base.

(** [enum State] of [eqNet::Node]. *)
Inductive State :=
| STATE_STOPPED     (* initial *)
| STATE_LAUNCHED    (* remote node, launched *)
| STATE_CONNECTED   (* remote node, connected *)
| STATE_LISTENING.  (* local node, listening *)

#[export] Instance State_eq_dec : EqDecision State.
Proof. solve_decision. Defined.

(** The header of a packet; [Node::send] reads [packet.size], the number
    of bytes of the packet (a 64-bit unsigned integer). *)
Record Packet := mkPacket {
  size     : N;
  datatype : N;
  command  : N
}.

Section NodeData.
Context {Connection Description : Type}.

(** The members of [eqNet::Node] that the member functions embedded here
    read or write. *)
Record Node := mkNode {
  _autoLaunch : bool;
  _state      : State;
  _connection : option Connection;   (* RefPtr<Connection>, may be NULL *)
  _launchID   : N;
  _connectionDescriptions : list Description
}.

Definition set_connection (n : Node) (c : Connection) : Node :=
  mkNode (_autoLaunch n) (_state n) (Some c) (_launchID n) (_connectionDescriptions n).

(** [State getState() const { return _state; }] *)
Definition getState (n : Node) : State := _state n.

(** [bool isConnected() const { return (_state == STATE_CONNECTED); }] *)
Definition isConnected (n : Node) : bool := bool_decide (_state n = STATE_CONNECTED).

(** [bool isLocal() const { return (_state==STATE_LISTENING); }] *)
Definition isLocal (n : Node) : bool := bool_decide (_state n = STATE_LISTENING).

(** [void addConnectionDescription(eqBase::RefPtr<ConnectionDescription> cd)
      { _connectionDescriptions.push_back( cd ); }] *)
Definition addConnectionDescription (cd : Description) (n : Node) : Node :=
  mkNode (_autoLaunch n) (_state n) (_connection n) (_launchID n)
         (_connectionDescriptions n ++ [cd]).

(** [uint32_t nConnectionDescriptions() const
      { return _connectionDescriptions.size(); }] *)
Definition nConnectionDescriptions (n : Node) : N :=
  (N.of_nat (length (_connectionDescriptions n)) mod 2 ^ 32)%N.

(** [getConnectionDescription( const uint32_t index ) const
      { return _connectionDescriptions[index]; }] *)
Definition getConnectionDescription (index : N) (n : Node) : option Description :=
  _connectionDescriptions n !! N.to_nat index.

End NodeData.

(** What the inline member functions of [node.h] call and whose code is
    outside the files embedded here: [bool Node::connect()], declared in
    [node.h] with its body elsewhere, and the four [send] operations of
    [eqNet::Connection], each returning the number of bytes it wrote
    (64-bit unsigned) and the connection afterwards.  The inline member
    functions are embedded for arbitrary such operations. *)
Class Externals (Connection Description T : Type) := {
  Node_connect           : @Node Connection Description -> bool * @Node Connection Description;
  Connection_send        : Connection -> Packet -> N * Connection;
  Connection_send_string : Connection -> Packet -> string -> N * Connection;
  Connection_send_vector : Connection -> Packet -> list T -> N * Connection;
  Connection_send_data   : Connection -> Packet -> list Byte.byte -> N -> N * Connection
}.

(** Calls that leave the node object, in program order. *)
Inductive Call {T : Type} :=
| CallConnect
| CallSend       (packet : Packet)
| CallSendString (packet : Packet) (s : string)
| CallSendVector (packet : Packet) (data : list T)
| CallSendData   (packet : Packet) (data : list Byte.byte) (size : N).

Section Node.
Context {Connection Description T : Type} `{Externals Connection Description T}.

Local Abbreviation Node := (@Node Connection Description).
Local Abbreviation Call := (@Call T).

(** [bool checkConnection()]:
<<
    if( _state == STATE_CONNECTED || _state == STATE_LISTENING )
        return true;
    if( _state == STATE_STOPPED )
        return connect();
    return false;
>> *)
Definition checkConnection (n : Node) : bool * Node * list Call :=
  if bool_decide (_state n = STATE_CONNECTED) || bool_decide (_state n = STATE_LISTENING)
  then (true, n, [])
  else if bool_decide (_state n = STATE_STOPPED)
  then let '(r, n') := Node_connect n in (r, n', [CallConnect])
  else (false, n, []).

(** [bool send( const Packet& packet )]:
<<
    if( !checkConnection() )
        return false;
    return ( _connection->send( packet ) == packet.size );
>>
    Dereferencing a NULL [_connection] gives no result ([None]). *)
Definition send (n : Node) (packet : Packet) : option (bool * Node * list Call) :=
  let '(ok, n1, calls) := checkConnection n in
  if negb ok then Some (false, n1, calls)
  else
    c ← _connection n1;
    let '(written, c') := Connection_send c packet in
    Some ((written =? size packet)%N, set_connection n1 c', calls ++ [CallSend packet]).

(** [bool send( Packet& packet, const std::string& string )]:
<<
    if( !checkConnection() )
        return false;
    return ( _connection->send( packet, string ) >= packet.size );
>> *)
Definition send_string (n : Node) (packet : Packet) (s : string)
  : option (bool * Node * list Call) :=
  let '(ok, n1, calls) := checkConnection n in
  if negb ok then Some (false, n1, calls)
  else
    c ← _connection n1;
    let '(written, c') := Connection_send_string c packet s in
    Some ((size packet <=? written)%N, set_connection n1 c',
          calls ++ [CallSendString packet s]).

(** [template< class T > bool send( Packet& packet, const std::vector<T>& data )]:
<<
    if( !checkConnection() )
        return false;
    return ( _connection->send( packet, data ) >= packet.size );
>> *)
Definition send_vector (n : Node) (packet : Packet) (data : list T)
  : option (bool * Node * list Call) :=
  let '(ok, n1, calls) := checkConnection n in
  if negb ok then Some (false, n1, calls)
  else
    c ← _connection n1;
    let '(written, c') := Connection_send_vector c packet data in
    Some ((size packet <=? written)%N, set_connection n1 c',
          calls ++ [CallSendVector packet data]).

(** [bool send( Packet& packet, const void* data, const uint64_t size )]:
<<
    if( !checkConnection() )
        return false;
    return ( _connection->send( packet, data, size )>=packet.size );
>> *)
Definition send_data (n : Node) (packet : Packet) (data : list Byte.byte) (sz : N)
  : option (bool * Node * list Call) :=
  let '(ok, n1, calls) := checkConnection n in
  if negb ok then Some (false, n1, calls)
  else
    c ← _connection n1;
    let '(written, c') := Connection_send_data c packet data sz in
    Some ((size packet <=? written)%N, set_connection n1 c',
          calls ++ [CallSendData packet data sz]).

(** *** notions for the statements about sending *)

(** The common shape of the four [send] overloads: ensure connectivity,
    then one call [conn_send] on [_connection], logged as [call], whose
    byte count is tested by [test] against [packet.size]. *)
Definition send_with (n : Node) (packet : Packet)
    (conn_send : Connection -> N * Connection) (call : Call) (test : N -> N -> bool)
  : option (bool * Node * list Call) :=
  let '(ok, n1, calls) := checkConnection n in
  if negb ok then Some (false, n1, calls)
  else
    c ← _connection n1;
    let '(written, c') := conn_send c in
    Some (test written (size packet), set_connection n1 c', calls ++ [call]).

(** Connectivity could be ensured, leaving the node as [n1]. *)
Definition connectivity_ensured (n n1 : Node) : Prop :=
  exists calls, checkConnection n = (true, n1, calls).

(** The result value of a [send], if it returns. *)
Definition returns (r : option (bool * Node * list Call)) (b : bool) : Prop :=
  exists n' calls, r = Some (b, n', calls).

(** The calls on the connection among the calls made. *)
Definition is_connection_call (c : Call) : bool :=
  match c with CallConnect => false | _ => true end.

End Node.

(* --------------------------------------------------------------------- *)
(** ** Connecting a node *)

Section Connect.
Context {Connection Description : Type}.

Local Abbreviation node := (@Node Connection Description).

(** What the network and a launched process answer during one attempt to
    connect a node: whether a byte pipe to a description can be opened,
    whether the two steps of the connect handshake on it succeed,
    whether a process can be spawned from a description (yielding the
    identifier of the launch), and whether the spawned process connects
    back before the launch timeout has elapsed. *)
Record Network := mkNetwork {
  open_pipe    : Description -> option Connection;
  send_connect : Connection -> bool;
  read_reply   : Connection -> bool;
  spawn        : Description -> option N;
  connect_back : N -> option Connection
}.

Definition set_connected (c : Connection) (n : node) : node :=
  mkNode (_autoLaunch n) STATE_CONNECTED (Some c) (_launchID n)
         (_connectionDescriptions n).

Definition set_launched (id : N) (n : node) : node :=
  mkNode (_autoLaunch n) STATE_LAUNCHED (_connection n) id
         (_connectionDescriptions n).

Definition restore_state (s : State) (n : node) : node :=
  mkNode (_autoLaunch n) s (_connection n) (_launchID n)
         (_connectionDescriptions n).

(** Modelled from the spec: the connect handshake of section 4.c; the
    code of [Node::connect( node, connection )] is not among the
    sources.  Each side sends a [NodeConnectPacket]; on the reply the
    peer is registered and the node is connected.  Failure at any
    handshake step closes the connection and leaves the state unchanged. *)
Definition handshake (net : Network) (c : Connection) (n : node) : bool * node :=
  if negb (send_connect net c) then (false, n)
  else if negb (read_reply net c) then (false, n)
  else (true, set_connected c n).

(** The first description to which a byte pipe can be opened. *)
Fixpoint firstReachable (net : Network) (descriptions : list Description)
  : option Connection :=
  match descriptions with
  | [] => None
  | d :: rest =>
      match open_pipe net d with
      | Some c => Some c
      | None => firstReachable net rest
      end
  end.

(** The first description from which a process can be spawned. *)
Fixpoint firstLaunch (net : Network) (descriptions : list Description) : option N :=
  match descriptions with
  | [] => None
  | d :: rest =>
      match spawn net d with
      | Some id => Some id
      | None => firstLaunch net rest
      end
  end.

(** Modelled from the spec: [Node::initConnect()], declared in [node.h],
    body not among the sources.  Section 4.c: the asynchronous start of
    connecting a node.  A description that is reachable is connected
    with the handshake; if no description is reachable and [autoLaunch]
    is set, a process is spawned and the node is launched (section 3:
    spawned but not yet connected).  On a node that is not stopped
    nothing is started; the call then succeeds when the node already is
    launched or connected. *)
Definition initConnect (net : Network) (n : node) : bool * node :=
  if bool_decide (_state n = STATE_STOPPED) then
    match firstReachable net (_connectionDescriptions n) with
    | Some c => handshake net c n
    | None =>
        if _autoLaunch n then
          match firstLaunch net (_connectionDescriptions n) with
          | Some id => (true, set_launched id n)
          | None => (false, n)
          end
        else (false, n)
    end
  else (bool_decide (_state n = STATE_LAUNCHED \/ _state n = STATE_CONNECTED), n).

(** Modelled from the spec: [Node::syncConnect()], declared in [node.h],
    body not among the sources.  Section 4.c: the later join of the
    connection started by [initConnect].  A connected node is joined; on
    a launched node the connect-back of the spawned process is awaited:
    it connects the node, and the launch timeout elapsing without it is
    a failure (section 4.k), which as every failure of connecting leaves
    the state unchanged.  On any other node there is nothing to join. *)
Definition syncConnect (net : Network) (n : node) : bool * node :=
  match _state n with
  | STATE_CONNECTED => (true, n)
  | STATE_LAUNCHED =>
      match connect_back net (_launchID n) with
      | Some c => (true, set_connected c n)
      | None => (false, n)
      end
  | STATE_STOPPED | STATE_LISTENING => (false, n)
  end.

(** Modelled from the spec: [Node::connect()], declared in [node.h], body
    not among the sources.  Section 4.c: [initConnect] and [syncConnect]
    split the connect into a start and a join, and a failure leaves the
    state unchanged: when the join fails, the node is put back into the
    state in which [connect] found it. *)
Definition connect (net : Network) (n : node) : bool * node :=
  let '(started, n1) := initConnect net n in
  if started then
    let '(joined, n2) := syncConnect net n1 in
    if joined then (true, n2) else (false, restore_state (_state n) n2)
  else (false, n1).

(** The sentence "on success the node is in a state satisfying
    [success], otherwise its state is unchanged" about one operation on
    one node. *)
Definition on_success_otherwise_unchanged
    (op : node -> bool * node) (success : State -> Prop) (n : node) : Prop :=
  ((op n).1 = true -> success (_state (op n).2)) /\
  ((op n).1 = false -> _state (op n).2 = _state n).

End Connect.

(** A network in which nothing is reachable, every process can be
    spawned and no spawned process ever connects back. *)
Definition silent_network : @Network unit unit :=
  mkNetwork (fun _ => None) (fun _ => true) (fun _ => true)
            (fun _ => Some 7%N) (fun _ => None).

(** A stopped node with one connection description and [autoLaunch]. *)
Definition stopped_node : @Node unit unit :=
  mkNode true STATE_STOPPED None EQ_INVALID_ID [tt].

(** The same node once launched. *)
Definition launched_node : @Node unit unit :=
  mkNode true STATE_LAUNCHED None 7%N [tt].

(* --------------------------------------------------------------------- *)
(** ** A concrete connection

    A connection that counts the bytes written to it and writes at most
    [limit] bytes per call; a packet with payload is written as one frame
    of the packet's size plus the payload's length. *)
Module Sample.

Record Connection := mkConnection { limit : N; written : N }.

Definition write (bytes : N) (c : Connection) : N * Connection :=
  let n := N.min bytes (limit c) in (n, mkConnection (limit c) (written c + n)).

(** No process connects back and nothing is reachable. *)
Definition unreachable : @Network Connection unit :=
  mkNetwork (fun _ => None) (fun _ => true) (fun _ => true)
            (fun _ => None) (fun _ => None).

(** [connect()] on that network. *)
Definition never (n : @Node Connection unit) : bool * @Node Connection unit :=
  connect unreachable n.

#[export] Instance externals : Externals Connection unit N := {|
  Node_connect := never;
  Connection_send := fun c packet => write (size packet) c;
  Connection_send_string := fun c packet s =>
    write (size packet + N.of_nat (String.length s)) c;
  Connection_send_vector := fun c packet data =>
    write (size packet + 8 * N.of_nat (length data)) c;
  Connection_send_data := fun c packet data sz => write (size packet + sz) c
|}.

Definition packet : Packet := mkPacket 24 1 2.

Definition connected (c : Connection) : @Node Connection unit :=
  mkNode false STATE_CONNECTED (Some c) EQ_INVALID_ID [].

End Sample.

(* --------------------------------------------------------------------- *)
(** ** Barrier *)
(* --------------------------------------------------------------------- *)

(** Modelled from the spec: [eqNet::Barrier]; its header and code are not
    among the sources.  Section 3: a distributed object whose instance
    data is a participant count; versioned.  Section 4.e: [increase()]
    bumps the required count before commit.  Section 4.d: commit on the
    master assigns the next version. *)
Record Barrier := mkBarrier {
  barrier_id           : N;
  barrier_version      : N;
  barrier_participants : N
}.

Definition Barrier_getID (b : Barrier) : N := barrier_id b.
Definition Barrier_getVersion (b : Barrier) : N := barrier_version b.

Definition Barrier_increase (b : Barrier) : Barrier :=
  mkBarrier (barrier_id b) (barrier_version b) (N.succ (barrier_participants b)).

Definition Barrier_commit (b : Barrier) : Barrier :=
  mkBarrier (barrier_id b) (N.succ (barrier_version b)) (barrier_participants b).

End Net.

(* ===================================================================== *)
(** * eqs: the server-side window *)
(* ===================================================================== *)
Module Server.
Import Base.

(** The states of a server-side entity. *)
Inductive State :=
| STATE_STOPPED
| STATE_INITIALISING
| STATE_RUNNING
| STATE_STOPPING.

#[export] Instance State_eq_dec : EqDecision State.
Proof. solve_decision. Defined.

(** The collaborators of [eqs::Window] whose code is outside
    [window.cpp]: the server-side channel, the config (object registry)
    and the two viewport types with the operations the window calls on
    them.  [window.cpp] is embedded for arbitrary such collaborators.
    A channel's state takes the values of [Channel::STATE_STOPPED] to
    [Channel::STATE_STOPPING], which carry the names of the window's. *)
Class Collaborators := {
  Channel : Type;
  Config : Type;
  PixelViewport : Type;
  Viewport : Type;
  (* eqs::Channel *)
  Channel_isUsed    : Channel -> bool;
  Channel_getID     : Channel -> N;
  Channel_getState  : Channel -> State;
  Channel_startInit : N -> Channel -> Channel;
  Channel_syncInit  : Channel -> bool * Channel;
  Channel_startExit : Channel -> Channel;
  Channel_syncExit  : Channel -> bool * Channel;
  Channel_update    : N -> Channel -> Channel;
  (* eqs::Config, as a registry of distributed objects *)
  Config_registerObject   : Channel -> Config -> Channel * Config;
  Config_deregisterObject : Channel -> Config -> Channel * Config;
  (* eq::PixelViewport and eq::Viewport *)
  pvp_isValid    : PixelViewport -> bool;
  pvp_invalidate : PixelViewport -> PixelViewport;
  pvp_set_x      : Z -> PixelViewport -> PixelViewport;
  pvp_set_y      : Z -> PixelViewport -> PixelViewport;
  vp_isValid     : Viewport -> bool;
  vp_invalidate  : Viewport -> Viewport;
  pvp_div        : PixelViewport -> PixelViewport -> Viewport;      (* pvp / pipePVP *)
  pvp_mul        : PixelViewport -> Viewport -> PixelViewport       (* pipePVP * vp *)
}.

(** Packets a window sends to its render-side peer. *)
Inductive Packet `{Collaborators} :=
| WindowInitPacket (requestID initID : N) (pvp : PixelViewport) (vp : Viewport)
| WindowExitPacket (requestID : N)
| WindowCreateChannelPacket (channelID : N)
| WindowDestroyChannelPacket (channelID : N)
| WindowStartFramePacket (frameID : N) (makeCurrent : bool)
| WindowEndFramePacket (frameID : N)
| WindowFinishPacket
| WindowBarrierPacket (barrierID barrierVersion : N)
| WindowSwapPacket.

(** What a window member function does to the outside, in program order. *)
Inductive Event `{Collaborators} :=
| EvSend (packet : Packet)                      (* _send( packet ) *)
| EvSendString (packet : Packet) (s : string)   (* _send( packet, string ) *)
| EvRegisterObject (channelID : N)
| EvDeregisterObject (channelID : N)
| EvChannelStartInit (channelID initID : N)
| EvChannelUpdate (channelID frameID : N)
| EvBarrierCommit (barrier : Ptr).

Section Window.
Context `{Collaborators}.

(** What the window reads from its pipe. *)
Record Pipe := mkPipe {
  Pipe_getPixelViewport : PixelViewport;
  Pipe_nWindows         : N
}.

(** The members of [eqs::Window]. *)
Record Window := mkWindow {
  _name               : string;
  _used               : N;
  _pipe               : option Pipe;          (* Pipe*, may be NULL *)
  _pendingRequestID   : N;
  _state              : State;
  _pvp                : PixelViewport;
  _vp                 : Viewport;
  _channels           : list Channel;
  _masterSwapBarriers : list Ptr;
  _swapBarriers       : list Ptr;
  _requestHandler     : RequestHandler
}.

Definition set_pendingRequestID (id : N) (rh : RequestHandler) (w : Window) : Window :=
  mkWindow (_name w) (_used w) (_pipe w) id (_state w) (_pvp w) (_vp w)
           (_channels w) (_masterSwapBarriers w) (_swapBarriers w) rh.

Definition set_state (s : State) (w : Window) : Window :=
  mkWindow (_name w) (_used w) (_pipe w) (_pendingRequestID w) s (_pvp w) (_vp w)
           (_channels w) (_masterSwapBarriers w) (_swapBarriers w) (_requestHandler w).

Definition set_viewports (pvp : PixelViewport) (vp : Viewport) (w : Window) : Window :=
  mkWindow (_name w) (_used w) (_pipe w) (_pendingRequestID w) (_state w) pvp vp
           (_channels w) (_masterSwapBarriers w) (_swapBarriers w) (_requestHandler w).

Definition set_channels (cs : list Channel) (w : Window) : Window :=
  mkWindow (_name w) (_used w) (_pipe w) (_pendingRequestID w) (_state w) (_pvp w) (_vp w)
           cs (_masterSwapBarriers w) (_swapBarriers w) (_requestHandler w).

Definition set_barriers (masters swaps : list Ptr) (w : Window) : Window :=
  mkWindow (_name w) (_used w) (_pipe w) (_pendingRequestID w) (_state w) (_pvp w) (_vp w)
           (_channels w) masters swaps (_requestHandler w).

Definition set_requestHandler (rh : RequestHandler) (w : Window) : Window :=
  mkWindow (_name w) (_used w) (_pipe w) (_pendingRequestID w) (_state w) (_pvp w) (_vp w)
           (_channels w) (_masterSwapBarriers w) (_swapBarriers w) rh.

(** [Window::addChannel]: [_channels.push_back( channel )].  The back
    pointer [channel->_window] is not read by any function embedded here
    and has no field in the channel. *)
Definition addChannel (channel : Channel) (w : Window) : Window :=
  set_channels (_channels w ++ [channel]) w.

(* ------------------------------------------------------------------- *)
(** *** viewport *)

(** [void eqs::Window::setPixelViewport( const eq::PixelViewport& pvp )]:
<<
    if( !pvp.isValid( )) return;
    _pvp = pvp;
    _vp.invalidate();
    if( !_pipe ) return;
    const eq::PixelViewport& pipePVP = _pipe->getPixelViewport();
    if( pipePVP.isValid( ))
        _vp = pvp / pipePVP;
>> *)
Definition setPixelViewport (pvp : PixelViewport) (w : Window) : Window :=
  if negb (pvp_isValid pvp) then w
  else
    let w1 := set_viewports pvp (vp_invalidate (_vp w)) w in
    match _pipe w1 with
    | None => w1
    | Some pipe =>
        let pipePVP := Pipe_getPixelViewport pipe in
        if pvp_isValid pipePVP then set_viewports (_pvp w1) (pvp_div pvp pipePVP) w1
        else w1
    end.

(** [void eqs::Window::setViewport( const eq::Viewport& vp )]:
<<
    if( !vp.isValid( )) return;
    _vp = vp;
    _pvp.invalidate();
    if( !_pipe ) return;
    eq::PixelViewport pipePVP = _pipe->getPixelViewport();
    if( pipePVP.isValid( ))
    {
        pipePVP.x = 0;
        pipePVP.y = 0;
        _pvp = pipePVP * vp;
    }
>> *)
Definition setViewport (vp : Viewport) (w : Window) : Window :=
  if negb (vp_isValid vp) then w
  else
    let w1 := set_viewports (pvp_invalidate (_pvp w)) vp w in
    match _pipe w1 with
    | None => w1
    | Some pipe =>
        let pipePVP := Pipe_getPixelViewport pipe in
        if pvp_isValid pipePVP then
          let pipePVP := pvp_set_y 0 (pvp_set_x 0 pipePVP) in
          set_viewports (pvp_mul pipePVP vp) (_vp w1) w1
        else w1
    end.

(* ------------------------------------------------------------------- *)
(** *** swap barrier operations *)

(** Modelled from the spec: [eqs::Node::getBarrier()], whose code is not
    among the sources.  Section 4.e: on the server a barrier is allocated
    per swap group; its participant count is raised by [increase()], so a
    newly allocated barrier has no participant yet.  The barrier is placed
    at an address not in use. *)
Definition Node_getBarrier (bs : gmap Ptr Net.Barrier) : Ptr * gmap Ptr Net.Barrier :=
  let p := fresh (dom bs) in
  (p, <[p := Net.mkBarrier (Npos p) 0 0]> bs).

(** [void Window::addSwapBarrier( eqNet::Barrier* barrier )]:
<<
    barrier->increase();
    _swapBarriers.push_back( barrier );
>>
    A pointer to no live barrier gives no result. *)
Definition addSwapBarrier (barrier : Ptr) (w : Window) (bs : gmap Ptr Net.Barrier)
  : option (Window * gmap Ptr Net.Barrier) :=
  b ← bs !! barrier;
  Some (set_barriers (_masterSwapBarriers w) (_swapBarriers w ++ [barrier]) w,
        <[barrier := Net.Barrier_increase b]> bs).

(** [eqNet::Barrier* Window::newSwapBarrier()]:
<<
    Node*           node    = getNode();
    eqNet::Barrier* barrier = node->getBarrier();
    _masterSwapBarriers.push_back( barrier );
    addSwapBarrier( barrier );
    return barrier;
>> *)
Definition newSwapBarrier (w : Window) (bs : gmap Ptr Net.Barrier)
  : option (Ptr * Window * gmap Ptr Net.Barrier) :=
  let '(barrier, bs1) := Node_getBarrier bs in
  let w1 := set_barriers (_masterSwapBarriers w ++ [barrier]) (_swapBarriers w) w in
  '(w2, bs2) ← addSwapBarrier barrier w1 bs1;
  Some (barrier, w2, bs2).

(** Modelled from the spec: the swap-barrier planner for one swap group
    (section 4.j); its code is not among the sources.  All windows of
    the group share one barrier: the first window of the group creates
    it with [newSwapBarrier], every further window joins it with
    [addSwapBarrier]. *)
Fixpoint joinSwapGroup (barrier : Ptr) (ws : list Window) (bs : gmap Ptr Net.Barrier)
  : option (list Window * gmap Ptr Net.Barrier) :=
  match ws with
  | [] => Some ([], bs)
  | w :: rest =>
      '(w', bs1) ← addSwapBarrier barrier w bs;
      '(rest', bs2) ← joinSwapGroup barrier rest bs1;
      Some (w' :: rest', bs2)
  end.

Definition planSwapGroup (ws : list Window) (bs : gmap Ptr Net.Barrier)
  : option (option Ptr * list Window * gmap Ptr Net.Barrier) :=
  match ws with
  | [] => Some (None, [], bs)
  | w :: rest =>
      '(barrier, w', bs1) ← newSwapBarrier w bs;
      '(rest', bs2) ← joinSwapGroup barrier rest bs1;
      Some (Some barrier, w' :: rest', bs2)
  end.

(* ------------------------------------------------------------------- *)
(** *** init *)

(** [void Window::_sendInit( const uint32_t initID )]:
<<
    EQASSERT( _pendingRequestID == EQ_INVALID_ID );
    eq::WindowInitPacket packet;
    _pendingRequestID = _requestHandler.registerRequest();
    packet.requestID = _pendingRequestID;
    packet.initID    = initID;
    packet.pvp       = _pvp;
    packet.vp        = _vp;
    _send( packet, getName( ));
>>
    A failed assertion gives no result. *)
Definition _sendInit (initID : N) (w : Window) : option (Window * list Event) :=
  if decide (_pendingRequestID w = EQ_INVALID_ID) then
    let '(id, rh) := registerRequest (_requestHandler w) in
    let w1 := set_pendingRequestID id rh w in
    Some (w1, [EvSendString (WindowInitPacket id initID (_pvp w1) (_vp w1)) (_name w1)])
  else None.

(** The loop of [startInit] over [_channels]:
<<
    if( channel->isUsed( ))
    {
        config->registerObject( channel, getServer( ));
        createChannelPacket.channelID = channel->getID();
        _send( createChannelPacket );
        channel->startInit( initID );
    }
>> *)
Fixpoint startInit_channels (initID : N) (cs : list Channel) (cfg : Config)
  : list Channel * Config * list Event :=
  match cs with
  | [] => ([], cfg, [])
  | channel :: rest =>
      if Channel_isUsed channel then
        let '(channel1, cfg1) := Config_registerObject channel cfg in
        let id := Channel_getID channel1 in
        let channel2 := Channel_startInit initID channel1 in
        let '(rest', cfg2, ev) := startInit_channels initID rest cfg1 in
        (channel2 :: rest', cfg2,
         EvRegisterObject id :: EvSend (WindowCreateChannelPacket id)
           :: EvChannelStartInit id initID :: ev)
      else
        let '(rest', cfg2, ev) := startInit_channels initID rest cfg in
        (channel :: rest', cfg2, ev)
  end.

(** [void Window::startInit( const uint32_t initID )]: [_sendInit], the
    loop over the channels, then [_state = STATE_INITIALISING]. *)
Definition startInit (initID : N) (w : Window) (cfg : Config)
  : option (Window * Config * list Event) :=
  '(w1, ev1) ← _sendInit initID w;
  let '(cs, cfg1, ev2) := startInit_channels initID (_channels w1) cfg in
  Some (set_state STATE_INITIALISING (set_channels cs w1), cfg1, ev1 ++ ev2).

(** The loop of [syncInit] over [_channels]:
<<
    if( channel->isUsed( ))
        if( !channel->syncInit( ))
            success = false;
>> *)
Fixpoint syncInit_channels (cs : list Channel) (success : bool) : bool * list Channel :=
  match cs with
  | [] => (success, [])
  | channel :: rest =>
      if Channel_isUsed channel then
        let '(ok, channel1) := Channel_syncInit channel in
        let success1 := if negb ok then false else success in
        let '(success2, rest') := syncInit_channels rest success1 in
        (success2, channel1 :: rest')
      else
        let '(success2, rest') := syncInit_channels rest success in
        (success2, channel :: rest')
  end.

(** [bool Window::syncInit()]:
<<
    bool success = true;
    (the loop over the channels)
    EQASSERT( _pendingRequestID != EQ_INVALID_ID );
    if( !(bool)_requestHandler.waitRequest( _pendingRequestID ))
        success = false;
    _pendingRequestID = EQ_INVALID_ID;
    if( success )
        _state = STATE_RUNNING;
    else
        EQWARN << "Window initialisation failed" << endl;
    return success;
>> *)
Definition syncInit (w : Window) : option (bool * Window) :=
  let '(success, cs) := syncInit_channels (_channels w) true in
  if decide (_pendingRequestID w = EQ_INVALID_ID) then None
  else
    '(v, rh) ← waitRequest (_pendingRequestID w) (_requestHandler w);
    let success := if negb (bool_of_ptr v) then false else success in
    let w1 := set_pendingRequestID EQ_INVALID_ID rh (set_channels cs w) in
    Some (success, if success then set_state STATE_RUNNING w1 else w1).

(* ------------------------------------------------------------------- *)
(** *** exit *)

(** [void Window::_sendExit()]:
<<
    EQASSERT( _pendingRequestID == EQ_INVALID_ID );
    eq::WindowExitPacket packet;
    _pendingRequestID = _requestHandler.registerRequest();
    packet.requestID  = _pendingRequestID;
    _send( packet );
>> *)
Definition _sendExit (w : Window) : option (Window * list Event) :=
  if decide (_pendingRequestID w = EQ_INVALID_ID) then
    let '(id, rh) := registerRequest (_requestHandler w) in
    Some (set_pendingRequestID id rh w, [EvSend (WindowExitPacket id)])
  else None.

(** The loop of [startExit]:
<<
    if( channel->getState() == Channel::STATE_STOPPED ) continue;
    channel->startExit();
>> *)
Definition startExit_channels (cs : list Channel) : list Channel :=
  map (fun channel =>
         if decide (Channel_getState channel = STATE_STOPPED) then channel
         else Channel_startExit channel) cs.

(** [void Window::startExit()]: [_state = STATE_STOPPING], the loop over
    the channels, then [_sendExit()]. *)
Definition startExit (w : Window) : option (Window * list Event) :=
  let w1 := set_state STATE_STOPPING w in
  _sendExit (set_channels (startExit_channels (_channels w1)) w1).

(** The loop of [syncExit] over [_channels]:
<<
    if( channel->getState() != Channel::STATE_STOPPING ) continue;
    if( !channel->syncExit( )) success = false;
    destroyChannelPacket.channelID = channel->getID();
    _send( destroyChannelPacket );
    config->deregisterObject( channel );
>> *)
Fixpoint syncExit_channels (cs : list Channel) (success : bool) (cfg : Config)
  : bool * list Channel * Config * list Event :=
  match cs with
  | [] => (success, [], cfg, [])
  | channel :: rest =>
      if decide (Channel_getState channel <> STATE_STOPPING) then
        let '(success2, rest', cfg2, ev) := syncExit_channels rest success cfg in
        (success2, channel :: rest', cfg2, ev)
      else
        let '(ok, channel1) := Channel_syncExit channel in
        let success1 := if negb ok then false else success in
        let id := Channel_getID channel1 in
        let '(channel2, cfg1) := Config_deregisterObject channel1 cfg in
        let '(success2, rest', cfg2, ev) := syncExit_channels rest success1 cfg1 in
        (success2, channel2 :: rest', cfg2,
         EvSend (WindowDestroyChannelPacket id) :: EvDeregisterObject id :: ev)
  end.

(** [bool Window::syncExit()]:
<<
    EQASSERT( _pendingRequestID != EQ_INVALID_ID );
    bool success = (bool)_requestHandler.waitRequest( _pendingRequestID );
    _pendingRequestID = EQ_INVALID_ID;
    (the loop over the channels)
    _state = STATE_STOPPED;
    return success;
>> *)
Definition syncExit (w : Window) (cfg : Config)
  : option (bool * Window * Config * list Event) :=
  if decide (_pendingRequestID w = EQ_INVALID_ID) then None
  else
    '(v, rh) ← waitRequest (_pendingRequestID w) (_requestHandler w);
    let success := bool_of_ptr v in
    let w1 := set_pendingRequestID EQ_INVALID_ID rh w in
    let '(success1, cs, cfg1, ev) := syncExit_channels (_channels w1) success cfg in
    Some (success1, set_state STATE_STOPPED (set_channels cs w1), cfg1, ev).

(* ------------------------------------------------------------------- *)
(** *** update *)

(** The loop of [update]: [if( channel->isUsed( )) channel->update( frameID );] *)
Fixpoint update_channels (frameID : N) (cs : list Channel) : list Channel * list Event :=
  match cs with
  | [] => ([], [])
  | channel :: rest =>
      if Channel_isUsed channel then
        let '(rest', ev) := update_channels frameID rest in
        (Channel_update frameID channel :: rest',
         EvChannelUpdate (Channel_getID channel) frameID :: ev)
      else
        let '(rest', ev) := update_channels frameID rest in
        (channel :: rest', ev)
  end.

(** The first loop of [_updateSwap]: [commit()] on the barrier every
    element of [_masterSwapBarriers] points to, in order.  Each call
    changes the barrier in the store and is logged where it is made.  A
    pointer to no live barrier gives no result. *)
Fixpoint commit_masters (masters : list Ptr) (bs : gmap Ptr Net.Barrier)
  : option (gmap Ptr Net.Barrier * list Event) :=
  match masters with
  | [] => Some (bs, [])
  | b :: rest =>
      barrier ← bs !! b;
      '(bs1, ev) ← commit_masters rest (<[b := Net.Barrier_commit barrier]> bs);
      Some (bs1, EvBarrierCommit b :: ev)
  end.

(** The second loop of [_updateSwap]: for every element of
    [_swapBarriers]
<<
    packet.barrierID      = barrier->getID();
    packet.barrierVersion = barrier->getVersion();
    _send( packet );
>> *)
Fixpoint send_barrier_packets (swaps : list Ptr) (bs : gmap Ptr Net.Barrier)
  : option (list Event) :=
  match swaps with
  | [] => Some []
  | b :: rest =>
      barrier ← bs !! b;
      ev ← send_barrier_packets rest bs;
      Some (EvSend (WindowBarrierPacket (Net.Barrier_getID barrier)
                                        (Net.Barrier_getVersion barrier)) :: ev)
  end.

(** [void Window::_updateSwap()]: commit the master barriers; if
    [_swapBarriers] is not empty send a [WindowFinishPacket]; send one
    [WindowBarrierPacket] per element of [_swapBarriers]; send the
    [WindowSwapPacket]. *)
Definition _updateSwap (w : Window) (bs : gmap Ptr Net.Barrier)
  : option (gmap Ptr Net.Barrier * list Event) :=
  '(bs1, commits) ← commit_masters (_masterSwapBarriers w) bs;
  let finish :=
    match _swapBarriers w with
    | [] => []
    | _ :: _ => [EvSend WindowFinishPacket]
    end in
  ev ← send_barrier_packets (_swapBarriers w) bs1;
  Some (bs1, commits ++ finish ++ ev ++ [EvSend WindowSwapPacket]).

(** [void Window::update( const uint32_t frameID )]:
<<
    eq::WindowStartFramePacket startPacket;
    startPacket.frameID     = frameID;
    startPacket.makeCurrent = _pipe->nWindows() > 1 ? true : false;
    _send( startPacket );
    (the loop over the channels)
    _updateSwap();
    eq::WindowEndFramePacket endPacket;
    endPacket.frameID = frameID;
    _send( endPacket );
>>
    A NULL [_pipe] gives no result. *)
Definition update (frameID : N) (w : Window) (bs : gmap Ptr Net.Barrier)
  : option (Window * gmap Ptr Net.Barrier * list Event) :=
  pipe ← _pipe w;
  let startPacket :=
    WindowStartFramePacket frameID (if (1 <? Pipe_nWindows pipe)%N then true else false) in
  let '(cs, ev1) := update_channels frameID (_channels w) in
  '(bs1, ev2) ← _updateSwap w bs;
  Some (set_channels cs w, bs1,
        [EvSend startPacket] ++ ev1 ++ ev2 ++ [EvSend (WindowEndFramePacket frameID)]).

(* ------------------------------------------------------------------- *)
(** *** command handling *)

Record WindowInitReplyPacket := mkWindowInitReplyPacket {
  reply_requestID : N;
  reply_result    : bool;
  reply_pvp       : PixelViewport
}.

(** [Window::_cmdInitReply]:
<<
    if( packet->pvp.isValid( ))
        setPixelViewport( packet->pvp );
    _requestHandler.serveRequest( packet->requestID, packet->result );
>>
    where the result is cast to the pointer-sized value of a request. *)
Definition _cmdInitReply (packet : WindowInitReplyPacket) (w : Window) : Window :=
  let w1 := if pvp_isValid (reply_pvp packet)
            then setPixelViewport (reply_pvp packet) w else w in
  set_requestHandler
    (serveRequest (reply_requestID packet) (ptr_of_bool (reply_result packet))
                  (_requestHandler w1)) w1.

(** [Window::_cmdExitReply]:
    [_requestHandler.serveRequest( packet->requestID, true )], the value
    [true] cast to the pointer-sized value of a request. *)
Definition _cmdExitReply (requestID : N) (w : Window) : Window :=
  set_requestHandler
    (serveRequest requestID (ptr_of_bool true) (_requestHandler w)) w.

(* ------------------------------------------------------------------- *)
(** *** notions for the statements about the viewport setters *)

(** The members other than [_pvp] and [_vp] agree. *)
Definition same_but_viewports (w w' : Window) : Prop :=
  _name w' = _name w /\ _used w' = _used w /\ _pipe w' = _pipe w /\
  _pendingRequestID w' = _pendingRequestID w /\ _state w' = _state w /\
  _channels w' = _channels w /\
  _masterSwapBarriers w' = _masterSwapBarriers w /\
  _swapBarriers w' = _swapBarriers w /\
  _requestHandler w' = _requestHandler w.

(** The pixel viewport of the window's pipe, when the window has a pipe
    and that viewport is valid. *)
Definition valid_pipePVP (w : Window) : option PixelViewport :=
  match _pipe w with
  | Some pipe =>
      if pvp_isValid (Pipe_getPixelViewport pipe)
      then Some (Pipe_getPixelViewport pipe) else None
  | None => None
  end.

(* ------------------------------------------------------------------- *)
(** *** notions for the statements about swap barriers *)

(** The participant count of the barrier at [p]; 0 when there is none. *)
Definition participants (bs : gmap Ptr Net.Barrier) (p : Ptr) : N :=
  default 0%N (Net.barrier_participants <$> bs !! p).

(* ------------------------------------------------------------------- *)
(** *** notions for the statements about init and exit *)

(** Every used channel's [syncInit] returned [true]. *)
Definition channels_init_ok (cs : list Channel) : Prop :=
  Forall (fun c => Channel_isUsed c = true -> (Channel_syncInit c).1 = true) cs.

(** Some stopping channel's [syncExit] returned [false]. *)
Definition channel_exit_failed (cs : list Channel) : Prop :=
  Exists (fun c => Channel_getState c = STATE_STOPPING /\ (Channel_syncExit c).1 = false) cs.

(* ------------------------------------------------------------------- *)
(** *** notions for the statements about the per-frame update *)

Definition is_commit (e : Event) : bool :=
  match e with EvBarrierCommit _ => true | _ => false end.

Definition is_barrier_packet (e : Event) : bool :=
  match e with EvSend (WindowBarrierPacket _ _) => true | _ => false end.

Definition is_finish_packet (e : Event) : bool :=
  match e with EvSend WindowFinishPacket => true | _ => false end.

Definition is_swap_packet (e : Event) : bool :=
  match e with EvSend WindowSwapPacket => true | _ => false end.

Definition is_channel_update (e : Event) : bool :=
  match e with EvChannelUpdate _ _ => true | _ => false end.

(** The packets the window itself sent, in order. *)
Definition sent (tr : list Event) : list Packet :=
  omap (fun e => match e with
                 | EvSend p | EvSendString p _ => Some p
                 | _ => None
                 end) tr.

(** In the trace [tr] every event satisfying [P] occurs before every
    event satisfying [Q]. *)
Definition precedes (P Q : Event -> bool) (tr : list Event) : Prop :=
  forall i j e1 e2,
    tr !! i = Some e1 -> tr !! j = Some e2 -> P e1 = true -> Q e2 = true -> i < j.

(** [bs'] is the store [bs] after the commits of [masters]: every
    barrier has had [commit()] called on it once for each time it occurs
    among [masters], and no barrier has appeared or gone. *)
Definition committed (masters : list Ptr) (bs bs' : gmap Ptr Net.Barrier) : Prop :=
  forall p : Ptr,
    bs' !! p = Nat.iter (count_occ Pos.eq_dec masters p) Net.Barrier_commit <$> bs !! p.

(** The barrier packet announced for the barrier at [b] in [bs]. *)
Definition announces (bs : gmap Ptr Net.Barrier) (b : Ptr) (e : Event) : Prop :=
  exists barrier, bs !! b = Some barrier /\
    e = EvSend (WindowBarrierPacket (Net.Barrier_getID barrier)
                                    (Net.Barrier_getVersion barrier)).

End Window.

(* ------------------------------------------------------------------- *)
(** ** Construction and the release of swap barriers *)

Section WindowLife.
Context `{Collaborators}.

(** The copy constructor of the server-side channel, whose code is not in
    [window.cpp]; the window's copy constructor is embedded for an
    arbitrary one. *)
Variable Channel_copy : Channel -> Channel.

(** [eqs::Node::releaseBarrier( barrier )], whose code is not in
    [window.cpp]: what it does to the store of barriers. *)
Variable Node_releaseBarrier : Ptr -> gmap Ptr Net.Barrier -> gmap Ptr Net.Barrier.

(** [void Window::_construct()]:
<<
    _used             = 0;
    _pipe             = NULL;
    _pendingRequestID = EQ_INVALID_ID;
    _state            = STATE_STOPPED;
    registerCommand( eq::CMD_WINDOW_INIT_REPLY, this, ... _cmdInitReply );
    registerCommand( eq::CMD_WINDOW_EXIT_REPLY, this, ... _cmdExitReply );
>>
    on a window whose other members have just been default-constructed:
    the name is empty, the three vectors are empty and the request handler
    is new.  [pvp] and [vp] are the default-constructed viewports.  The two
    [registerCommand] calls fill the command table of the base class,
    which no function embedded here reads. *)
Definition _construct (pvp : PixelViewport) (vp : Viewport) : Window :=
  mkWindow EmptyString 0 None EQ_INVALID_ID STATE_STOPPED pvp vp [] [] []
           RequestHandler_new.

(** [Window::Window( const Window& from )]:
<<
    _construct();
    _name = from._name;
    _pvp  = from._pvp;
    _vp   = from._vp;
    const uint32_t nChannels = from.nChannels();
    for( uint32_t i=0; i<nChannels; i++ )
    {
        Channel* channel      = from.getChannel(i);
        Channel* channelClone = new Channel( *channel );
        addChannel( channelClone );
    }
>>
    The viewports are assigned right after [_construct()], so the
    default-constructed ones are never read. *)
Definition Window_copy (from : Window) : Window :=
  let w := _construct (_pvp from) (_vp from) in
  let w := mkWindow (_name from) (_used w) (_pipe w) (_pendingRequestID w) (_state w)
                    (_pvp from) (_vp from) (_channels w)
                    (_masterSwapBarriers w) (_swapBarriers w) (_requestHandler w) in
  foldl (fun w channel => addChannel (Channel_copy channel) w) w (_channels from).

(** [void Window::resetSwapBarriers()]:
<<
    Node* node = getNode();
    for( iter = _masterSwapBarriers.begin(); iter != _masterSwapBarriers.end(); ++iter )
        node->releaseBarrier( *iter );
    _masterSwapBarriers.clear();
    _swapBarriers.clear();
>> *)
Definition resetSwapBarriers (w : Window) (bs : gmap Ptr Net.Barrier)
  : Window * gmap Ptr Net.Barrier :=
  (set_barriers [] [] w,
   foldl (fun bs barrier => Node_releaseBarrier barrier bs) bs (_masterSwapBarriers w)).

(* ------------------------------------------------------------------- *)
(** *** notions for the statements about the channel loops *)

(** What the loop of [startInit] does for the used channel that the
    config registered as [id]. *)
Definition channel_init_events (initID id : N) : list Event :=
  [EvRegisterObject id; EvSend (WindowCreateChannelPacket id);
   EvChannelStartInit id initID].

(** What the loop of [syncExit] does, after the channel's own
    [syncExit], for the stopping channel [id]. *)
Definition channel_exit_events (id : N) : list Event :=
  [EvSend (WindowDestroyChannelPacket id); EvDeregisterObject id].

(** The channel is in [Channel::STATE_STOPPING]. *)
Definition is_stopping (channel : Channel) : bool :=
  bool_decide (Channel_getState channel = STATE_STOPPING).

(** The config after the channels [cs] have been registered with it, one
    after the other. *)
Definition registered_config (cfg : Config) (cs : list Channel) : Config :=
  foldl (fun cfg channel => (Config_registerObject channel cfg).2) cfg cs.

(** The channel at index [i] of [cs] as its registration leaves it, when
    the channels of [cs] are registered in list order starting from
    [cfg]: it is registered with the config with which the used channels
    before it have been registered. *)
Definition registered (cfg : Config) (cs : list Channel) (i : nat) (channel : Channel)
  : Channel :=
  (Config_registerObject channel
     (registered_config cfg (List.filter Channel_isUsed (take i cs)))).1.

(** The channel as its own [syncExit] leaves it. *)
Definition synced (channel : Channel) : Channel := (Channel_syncExit channel).2.

(** The config after the channels [cs], each after its own [syncExit],
    have been deregistered from it, one after the other. *)
Definition deregistered_config (cfg : Config) (cs : list Channel) : Config :=
  foldl (fun cfg channel => (Config_deregisterObject (synced channel) cfg).2) cfg cs.

(** The channel at index [i] of [cs] as its deregistration leaves it,
    when the stopping channels of [cs] are deregistered in list order
    starting from [cfg]. *)
Definition deregistered (cfg : Config) (cs : list Channel) (i : nat) (channel : Channel)
  : Channel :=
  (Config_deregisterObject (synced channel)
     (deregistered_config cfg (List.filter is_stopping (take i cs)))).1.

End WindowLife.

(* ------------------------------------------------------------------- *)
(** ** A concrete set of collaborators

    One instance of the collaborators on which the embedding of
    [window.cpp] can be run: channels that carry the outcome of their own
    init and exit, a config that counts the identifiers it has handed
    out, and viewports with integer, respectively rational, fields. *)
Module Sample.

Record Channel := mkChannel {
  used    : bool;
  id      : N;
  state   : State;
  initOK  : bool;     (* what the render-side channel answers to init *)
  exitOK  : bool      (* what it answers to exit *)
}.

Definition Channel_set_state (s : State) (c : Channel) : Channel :=
  mkChannel (used c) (id c) s (initOK c) (exitOK c).

Record PixelViewport := mkPixelViewport { px : Z; py : Z; pw : Z; ph : Z }.

Record Viewport := mkViewport { vx : Q; vy : Q; vw : Q; vh : Q }.

#[export] Instance collaborators : Collaborators := {|
  Server.Channel := Channel;
  Server.Config := N;
  Server.PixelViewport := PixelViewport;
  Server.Viewport := Viewport;
  Channel_isUsed := used;
  Channel_getID := id;
  Channel_getState := state;
  Channel_startInit := fun _ c => Channel_set_state STATE_INITIALISING c;
  Channel_syncInit := fun c =>
    (initOK c, if initOK c then Channel_set_state STATE_RUNNING c else c);
  Channel_startExit := fun c => Channel_set_state STATE_STOPPING c;
  Channel_syncExit := fun c => (exitOK c, Channel_set_state STATE_STOPPED c);
  Channel_update := fun _ c => c;
  Config_registerObject := fun c next =>
    (mkChannel (used c) next (state c) (initOK c) (exitOK c), N.succ next);
  Config_deregisterObject := fun c next =>
    (mkChannel (used c) EQ_INVALID_ID (state c) (initOK c) (exitOK c), next);
  pvp_isValid := fun p => (0 <? pw p)%Z && (0 <? ph p)%Z;
  pvp_invalidate := fun _ => mkPixelViewport 0 0 (-1) (-1);
  pvp_set_x := fun x p => mkPixelViewport x (py p) (pw p) (ph p);
  pvp_set_y := fun y p => mkPixelViewport (px p) y (pw p) (ph p);
  vp_isValid := fun v => negb (Qle_bool (vw v) 0) && negb (Qle_bool (vh v) 0);
  vp_invalidate := fun _ => mkViewport 0 0 (-1) (-1);
  pvp_div := fun p q =>
    mkViewport ((px p - px q) # Z.to_pos (pw q)) ((py p - py q) # Z.to_pos (ph q))
               (pw p # Z.to_pos (pw q)) (ph p # Z.to_pos (ph q));
  pvp_mul := fun q v =>
    mkPixelViewport (px q + Qfloor (vx v * inject_Z (pw q)))
                    (py q + Qfloor (vy v * inject_Z (ph q)))
                    (Qfloor (vw v * inject_Z (pw q)))
                    (Qfloor (vh v * inject_Z (ph q)))
|}.

(** Two used channels, the second of which fails to initialise, and one
    unused channel. *)
Definition channels : list Channel :=
  [ mkChannel true 11 STATE_INITIALISING true true;
    mkChannel true 12 STATE_INITIALISING false true;
    mkChannel false 13 STATE_STOPPED true true ].

(** A pipe with two windows. *)
Definition pipe : @Pipe collaborators := mkPipe (mkPixelViewport 0 0 1280 1024) 2.

(** A window on that pipe, waiting for request 3, which has been served
    with the success value 1; it created barrier 1 and takes part in
    barriers 1 and 2. *)
Definition window : Window :=
  mkWindow "w" 1 (Some pipe) 3
           STATE_INITIALISING (mkPixelViewport 0 0 640 512) (mkViewport 0 0 (1 # 2) (1 # 2))
           channels [1%positive] [1%positive; 2%positive]
           (mkRequestHandler 4 {[ 3%N := Some 1%Z ]}).

Definition barriers : gmap Ptr Net.Barrier :=
  {[ 1%positive := Net.mkBarrier 101 4 2; 2%positive := Net.mkBarrier 102 7 3 ]}.


(** The window before its initialisation: stopped, without pending
    request. *)
Definition idle : Window :=
  mkWindow "w" 1 (Some pipe) EQ_INVALID_ID
           STATE_STOPPED (mkPixelViewport 0 0 640 512) (mkViewport 0 0 (1 # 2) (1 # 2))
           channels [1%positive] [1%positive; 2%positive]
           (mkRequestHandler 4 ∅).

(** The running window at the end of a session: its first channel is
    stopping, and its exit request 5 has been served. *)
Definition leaving : Window :=
  mkWindow "w" 1 (Some pipe) 5
           STATE_STOPPING (mkPixelViewport 0 0 640 512) (mkViewport 0 0 (1 # 2) (1 # 2))
           [ mkChannel true 11 STATE_STOPPING true false;
             mkChannel true 12 STATE_STOPPING true true;
             mkChannel false 13 STATE_STOPPED true true ]
           [] []
           (mkRequestHandler 6 {[ 5%N := Some 1%Z ]}).

(** A reply to the init request 4 that reports success and no pixel
    viewport. *)
Definition reply : @WindowInitReplyPacket collaborators :=
  mkWindowInitReplyPacket 4 true (mkPixelViewport 0 0 0 0).

End Sample.

End Server.

(* ===================================================================== *)
(** * eqPly: the example channel *)
(* ===================================================================== *)
Module EqPly.

(** C [float] values are modelled by the rationals they denote.  The
    functions below only compare them ([>=], [<], [==]) or pass them on,
    and on numbers these comparisons are those of the rationals. *)
Definition Qge_bool (x y : Q) : bool := Qle_bool y x.
Definition Qlt_bool (x y : Q) : bool := negb (Qle_bool y x).

(* --------------------------------------------------------------------- *)
(** ** frameClear *)

(** [vmml::Vector3ub]: three unsigned bytes. *)
Record Vector3ub := mkVector3ub { r : N; g : N; b : N }.

(** The four arguments of [glClearColor]. *)
Record ClearColor := mkClearColor { red : Q; green : Q; blue : Q; alpha : Q }.

Definition GL_DEPTH_BUFFER_BIT : Z := 0x00000100.
Definition GL_COLOR_BUFFER_BIT : Z := 0x00004000.

(** The calls [frameClear] makes, in program order. *)
Inductive GLCall :=
| applyBuffer
| applyViewport
| glClearColor (c : ClearColor)
| glClear (mask : Z).

(** What [frameClear] reads from the channel: its view (may be NULL, and
    has an identifier), the current view of the pipe's frame data, and
    the channel's unique colour. *)
Record Channel := mkChannel {
  getView          : option N;     (* the ID of the eq::View, if any *)
  getCurrentViewID : N;            (* _getFrameData().getCurrentViewID() *)
  getUniqueColor   : Vector3ub
}.

Definition grey : ClearColor := mkClearColor (4 # 10) (4 # 10) (4 # 10) 1.
Definition black : ClearColor := mkClearColor 0 0 0 1.

(** [glClearColor( color.r/255.0f, color.g/255.0f, color.b/255.0f, 1.0f )] *)
Definition taint (color : Vector3ub) : ClearColor :=
  mkClearColor (Z.of_N (r color) # 255) (Z.of_N (g color) # 255)
               (Z.of_N (b color) # 255) 1.

(** [view && frameData.getCurrentViewID() == view->getID( )]: the channel
    is the destination of the current view. *)
Definition isCurrentViewDestination (ch : Channel) : bool :=
  match getView ch with
  | Some id => (getCurrentViewID ch =? id)%N
  | None => false
  end.

(** [void Channel::frameClear( const uint32_t frameID )]:
<<
    EQ_GL_CALL( applyBuffer( ));
    EQ_GL_CALL( applyViewport( ));
    const eq::View*  view      = getView();
    const FrameData& frameData = _getFrameData();
    if( view && frameData.getCurrentViewID() == view->getID( ))
        glClearColor( .4f, .4f, .4f, 1.0f );
#ifndef NDEBUG
    else if( getenv( "EQ_TAINT_CHANNELS" ))
    {
        const vmml::Vector3ub color = getUniqueColor();
        glClearColor( color.r/255.0f, color.g/255.0f, color.b/255.0f, 1.0f );
    }
#endif // NDEBUG
    else
        glClearColor( 0.f, 0.f, 0.f, 1.0f );
    EQ_GL_CALL( glClear( GL_COLOR_BUFFER_BIT | GL_DEPTH_BUFFER_BIT ));
>>
    [NDEBUG] says whether the file was compiled with [NDEBUG] defined;
    [getenv] is the process environment. *)
Definition frameClear (NDEBUG : bool) (getenv : string -> option string)
    (ch : Channel) (frameID : N) : list GLCall :=
  [ applyBuffer; applyViewport;
    glClearColor
      (if isCurrentViewDestination ch then grey
       else if negb NDEBUG && bool_decide (is_Some (getenv "EQ_TAINT_CHANNELS"))
       then taint (getUniqueColor ch)
       else black);
    glClear (Z.lor GL_COLOR_BUFFER_BIT GL_DEPTH_BUFFER_BIT) ].

(** The colours [calls] set, in order. *)
Definition clearColors (calls : list GLCall) : list ClearColor :=
  omap (fun c => match c with glClearColor col => Some col | _ => None end) calls.

(** The sentence about tainting, for one build, environment and channel:
    with [EQ_TAINT_CHANNELS] set, a channel that is not the destination
    of the current view is cleared with its unique colour; with the
    variable not set it is cleared black; the destination channel of the
    current view is cleared grey. *)
Definition taint_sentence (NDEBUG : bool) (getenv : string -> option string)
    (ch : Channel) (frameID : N) : Prop :=
  (is_Some (getenv "EQ_TAINT_CHANNELS") -> isCurrentViewDestination ch = false ->
     clearColors (frameClear NDEBUG getenv ch frameID) = [taint (getUniqueColor ch)]) /\
  (getenv "EQ_TAINT_CHANNELS" = None -> isCurrentViewDestination ch = false ->
     clearColors (frameClear NDEBUG getenv ch frameID) = [black]) /\
  (isCurrentViewDestination ch = true ->
     clearColors (frameClear NDEBUG getenv ch frameID) = [grey]).

(** A channel without view whose unique colour is pure red, in a process
    whose environment sets [EQ_TAINT_CHANNELS]. *)
Definition red_channel : Channel := mkChannel None 0 (mkVector3ub 255 0 0).

Definition taint_env (name : string) : option string :=
  if String.eqb name "EQ_TAINT_CHANNELS" then Some "1"%string else None.

(* --------------------------------------------------------------------- *)
(** ** _drawModel *)

(** [eq::Range]: the channel's share [start, end) of the model.
    [Range::ALL] is the whole unit interval; [==] compares both bounds. *)
Record Range := mkRange { start : Q; end_ : Q }.

Definition Range_ALL : Range := mkRange 0 1.

Definition Range_eqb (x y : Range) : bool :=
  Qeq_bool (start x) (start y) && Qeq_bool (end_ x) (end_ y).

(** [vmml::Visibility] *)
Inductive Visibility := VISIBILITY_NONE | VISIBILITY_PARTIAL | VISIBILITY_FULL.

(** [vmml::FrustumCullerf]: the culler that [_initFrustum] sets up from
    the channel's frustum and the frame data.  Bounding spheres and the
    computation of [testSphere] are outside the embedded code: the
    traversal is embedded for an arbitrary culler. *)
Class FrustumCuller (Sphere : Type) := {
  testSphere : Sphere -> Visibility
}.

Section DrawModel.
Context {Sphere : Type} `{FrustumCuller Sphere}.

(** A [const VertexBufferBase*]: [Null] is the NULL pointer, [Node] a kd-tree
    node with [getRange()[0]], [getRange()[1]], [getBoundingSphere()],
    [getLeft()] and [getRight()]. *)
Inductive VertexBufferBase :=
| Null
| Node (range0 range1 : Q) (sphere : Sphere) (left_ right_ : VertexBufferBase).

(** What the loop does with a tree node it takes from [candidates]. *)
Inductive Decision :=
| Excluded  (treeNode : VertexBufferBase)   (* completely out of range: continue *)
| Culled    (treeNode : VertexBufferBase)   (* VISIBILITY_NONE: do nothing *)
| Rendered  (treeNode : VertexBufferBase)   (* treeNode->render( state ) *)
| Dropped   (treeNode : VertexBufferBase)   (* leaf left to the 'previous' channel *)
| Descended (treeNode : VertexBufferBase).  (* children pushed on candidates *)

(** The calls of [_drawModel], in program order. *)
Inductive DrawCall :=
| setColors (colors : bool)
| initFrustum
| glUseProgram (program : N)
| beginRendering
| visit (d : Decision)
| endRendering.

(** [if( t ) candidates.push_back( t );] with the back of the vector at
    the head of the list. *)
Definition push_back (t : VertexBufferBase) (candidates : list VertexBufferBase)
  : list VertexBufferBase :=
  match t with Null => candidates | Node _ _ _ _ _ => t :: candidates end.

(** [treeNode->getRange()[0] >= range.end || treeNode->getRange()[1] < range.start] *)
Definition outOfRange (range : Range) (range0 range1 : Q) : bool :=
  Qge_bool range0 (end_ range) || Qlt_bool range1 (start range).

(** [range == eq::Range::ALL ||
     ( treeNode->getRange()[0] >= range.start && treeNode->getRange()[1] < range.end )] *)
Definition fullyInRange (range : Range) (range0 range1 : Q) : bool :=
  Range_eqb range Range_ALL
  || (Qge_bool range0 (start range) && Qlt_bool range1 (end_ range)).

(** The case [VISIBILITY_PARTIAL], also reached from [VISIBILITY_FULL]
    when the node is not fully in range:
<<
    if( !left && !right )
    {
        if( treeNode->getRange()[0] >= range.start )
            treeNode->render( state );
        // else drop, to be drawn by 'previous' channel
    }
    else
    {
        if( left )  candidates.push_back( left );
        if( right ) candidates.push_back( right );
    }
>> *)
Definition partialCase (range : Range) (treeNode : VertexBufferBase) (range0 : Q)
    (left_ right_ : VertexBufferBase) (candidates : list VertexBufferBase)
  : Decision * list VertexBufferBase :=
  match left_, right_ with
  | Null, Null =>
      if Qge_bool range0 (start range) then (Rendered treeNode, candidates)
      else (Dropped treeNode, candidates)
  | _, _ => (Descended treeNode, push_back right_ (push_back left_ candidates))
  end.

(** One pass through the body of [while( !candidates.empty() )] for the
    node [treeNode] taken from the back of [candidates]. *)
Definition visitNode (range : Range) (treeNode : VertexBufferBase)
    (candidates : list VertexBufferBase)
  : option (Decision * list VertexBufferBase) :=
  match treeNode with
  | Null => None
  | Node range0 range1 sphere left_ right_ =>
      if outOfRange range range0 range1 then Some (Excluded treeNode, candidates)
      else
        match testSphere sphere with
        | VISIBILITY_FULL =>
            if fullyInRange range range0 range1
            then Some (Rendered treeNode, candidates)
            else Some (partialCase range treeNode range0 left_ right_ candidates)
        | VISIBILITY_PARTIAL =>
            Some (partialCase range treeNode range0 left_ right_ candidates)
        | VISIBILITY_NONE => Some (Culled treeNode, candidates)
        end
  end.

(** The loop [while( !candidates.empty() )], with a bound on the number
    of passes; [None] when the bound is reached or a NULL pointer is
    dereferenced. *)
Fixpoint drawLoop (fuel : nat) (range : Range) (candidates : list VertexBufferBase)
  : option (list Decision) :=
  match candidates with
  | [] => Some []
  | treeNode :: candidates' =>
      match fuel with
      | O => None
      | S fuel' =>
          '(d, next) ← visitNode range treeNode candidates';
          tr ← drawLoop fuel' range next;
          Some (d :: tr)
      end
  end.

(** The number of nodes of a tree. *)
Fixpoint numberOfNodes (t : VertexBufferBase) : nat :=
  match t with
  | Null => 0
  | Node _ _ _ left_ right_ => S (numberOfNodes left_ + numberOfNodes right_)
  end.

(** [void Channel::_drawModel( const Model* model )] for a channel with
    range [range]; [colors] is [frameData.useColor() && model->hasColors()]
    and [program] the result of [state.getProgram( pipe )], [None] for
    [VertexBufferState::INVALID].  The loop visits each node at most
    once, so the number of nodes bounds its passes. *)
Definition _drawModel (range : Range) (colors : bool) (program : option N)
    (model : VertexBufferBase) : option (list DrawCall) :=
  tr ← drawLoop (numberOfNodes model) range [model];
  Some ([setColors colors; initFrustum]
        ++ match program with Some p => [glUseProgram p] | None => [] end
        ++ [beginRendering] ++ map visit tr ++ [endRendering]
        ++ match program with Some _ => [glUseProgram 0] | None => [] end).

(** The decisions among the calls of [_drawModel]. *)
Definition decisions (calls : list DrawCall) : list Decision :=
  omap (fun c => match c with visit d => Some d | _ => None end) calls.

Definition is_excluded (d : Decision) : bool :=
  match d with Excluded _ => true | _ => false end.

Definition is_dropped (d : Decision) : bool :=
  match d with Dropped _ => true | _ => false end.

Definition is_rendered (d : Decision) : bool :=
  match d with Rendered _ => true | _ => false end.

(** Every node of the tree has a range [range0, range1] that starts in
    [0, 1) and does not end below 0. *)
Fixpoint rangesInUnit (t : VertexBufferBase) : Prop :=
  match t with
  | Null => True
  | Node range0 range1 _ left_ right_ =>
      (0 <= range0)%Q /\ (range0 < 1)%Q /\ (0 <= range1)%Q /\
      rangesInUnit left_ /\ rangesInUnit right_
  end.

(** The traversal that only culls against the frustum: what [_drawModel]
    would do without any test on ranges. *)
Definition visitNode_frustum (treeNode : VertexBufferBase)
    (candidates : list VertexBufferBase)
  : option (Decision * list VertexBufferBase) :=
  match treeNode with
  | Null => None
  | Node _ _ sphere left_ right_ =>
      match testSphere sphere with
      | VISIBILITY_FULL => Some (Rendered treeNode, candidates)
      | VISIBILITY_PARTIAL =>
          match left_, right_ with
          | Null, Null => Some (Rendered treeNode, candidates)
          | _, _ => Some (Descended treeNode, push_back right_ (push_back left_ candidates))
          end
      | VISIBILITY_NONE => Some (Culled treeNode, candidates)
      end
  end.

Fixpoint drawLoop_frustum (fuel : nat) (candidates : list VertexBufferBase)
  : option (list Decision) :=
  match candidates with
  | [] => Some []
  | treeNode :: candidates' =>
      match fuel with
      | O => None
      | S fuel' =>
          '(d, next) ← visitNode_frustum treeNode candidates';
          tr ← drawLoop_frustum fuel' next;
          Some (d :: tr)
      end
  end.

(** The nodes waiting in [candidates]. *)
Definition pendingNodes (candidates : list VertexBufferBase) : nat :=
  sum_list (numberOfNodes <$> candidates).

Definition nonNull (t : VertexBufferBase) : Prop := t <> Null.

End DrawModel.

(** A frustum that contains everything. *)
#[export] Instance allVisible : FrustumCuller unit :=
  {| testSphere := fun _ => VISIBILITY_FULL |}.

(** A leaf whose range is the empty range at the very end of the unit
    interval. *)
Definition endLeaf : VertexBufferBase (Sphere := unit) := Node 1 1 tt Null Null.

(** A culler for trees whose nodes carry their visibility as sphere. *)
#[export] Instance visibilityOf : FrustumCuller Visibility :=
  {| testSphere := fun sphere => sphere |}.

(** A model of three nodes: a partially visible root over the whole
    range, a fully visible left leaf for the first half and a partially
    visible right leaf for the second half. *)
Definition leftLeaf : VertexBufferBase (Sphere := Visibility) :=
  Node 0 (1 # 2) VISIBILITY_FULL Null Null.

Definition rightLeaf : VertexBufferBase (Sphere := Visibility) :=
  Node (1 # 2) 1 VISIBILITY_PARTIAL Null Null.

Definition sampleModel : VertexBufferBase (Sphere := Visibility) :=
  Node 0 1 VISIBILITY_PARTIAL leftLeaf rightLeaf.


(* --------------------------------------------------------------------- *)
(** ** What a channel draws of the model *)

Section Coverage.
Context {Sphere : Type} `{FrustumCuller Sphere}.

(** [x] is the node [t] or a node below it. *)
Fixpoint inTree (x t : @VertexBufferBase Sphere) : Prop :=
  match t with
  | Null => False
  | Node _ _ _ left_ right_ => x = t \/ inTree x left_ \/ inTree x right_
  end.

(** [!left && !right]: a node without children. *)
Definition isLeaf (t : @VertexBufferBase Sphere) : Prop :=
  match t with Node _ _ _ Null Null => True | _ => False end.

(** The range of [t] lies within [range0, range1]. *)
Definition rangeWithin (range0 range1 : Q) (t : @VertexBufferBase Sphere) : Prop :=
  match t with
  | Null => True
  | Node child0 child1 _ _ _ => (range0 <= child0)%Q /\ (child1 <= range1)%Q
  end.

(** The ranges of a kd-tree: no range ends before it starts, and the
    range of a child lies within the range of its parent. *)
Fixpoint rangesNested (t : @VertexBufferBase Sphere) : Prop :=
  match t with
  | Null => True
  | Node range0 range1 _ left_ right_ =>
      (range0 <= range1)%Q /\
      rangeWithin range0 range1 left_ /\ rangeWithin range0 range1 right_ /\
      rangesNested left_ /\ rangesNested right_
  end.

(** [x] is a node of [t] and the culler finds no node on the way from [t]
    down to [x], both included, outside the frustum. *)
Fixpoint visibleIn (x t : @VertexBufferBase Sphere) : Prop :=
  match t with
  | Null => False
  | Node _ _ sphere left_ right_ =>
      testSphere sphere <> VISIBILITY_NONE /\
      (x = t \/ visibleIn x left_ \/ visibleIn x right_)
  end.

(** The range of [t] starts inside [range]. *)
Definition startsIn (range : Range) (t : @VertexBufferBase Sphere) : Prop :=
  match t with
  | Null => False
  | Node range0 _ _ _ _ => (start range <= range0)%Q /\ (range0 < end_ range)%Q
  end.

(** [x] is drawn: it is a rendered node or lies below one. *)
Definition covered (calls : list DrawCall) (x : @VertexBufferBase Sphere) : Prop :=
  exists rendered, Rendered rendered ∈ decisions calls /\ inTree x rendered.

End Coverage.

(* --------------------------------------------------------------------- *)
(** ** frameDraw *)

Module Frame.





Section FrameDraw.
Context {Sphere : Type} `{FrustumCuller Sphere}.

(** [vmml::Matrix4f]; the rotations are only passed on to OpenGL. *)
Context {Matrix4f : Type}.









End FrameDraw.

End Frame.

(* --------------------------------------------------------------------- *)
(** ** _drawHelp *)

Module Help.

(** [std::string::find( c )] from position 0: the position of the first
    [c], [None] for [std::string::npos]. *)
Fixpoint find (c : ascii) (s : string) : option nat :=
  match s with
  | EmptyString => None
  | String a s' => if Ascii.eqb a c then Some 0 else S <$> find c s'
  end.

(** [std::string::substr( pos, n )] for a position within the string. *)
Definition substr (pos n : nat) (s : string) : string := String.substring pos n s.

(** [std::string::substr( pos )]: from [pos] to the end. *)
Definition substr_from (pos : nat) (s : string) : string :=
  String.substring pos (String.length s - pos) s.

(** The character ['\n']. *)
Definition newline : ascii := Ascii.ascii_of_nat 10.

(** The calls of [_drawHelp], in program order. *)
Inductive HelpCall :=
| applyBuffer
| applyViewport
| setupAssemblyState
| glDisable_GL_LIGHTING
| glDisable_GL_DEPTH_TEST
| getDefaultFont
| glColor3f (r g b : Q)
| glRasterPos3f (x y z : Q)
| font_draw (text : string)
| resetAssemblyState.

(** The loop of [_drawHelp] and the two calls after it:
<<
    for( size_t pos = help.find( '\n' ); pos != std::string::npos;
         pos = help.find( '\n' ))
    {
        glRasterPos3f( 10.f, y, 0.99f );
        glColor3f( 1.f, 1.f, 1.f );
        const std::string line( help.substr( 0, pos ));
        help = help.substr( pos + 1 );
        font.draw( line );
        y -= 16.f;
    }
    glRasterPos3f( 10.f, y, 0.99f );
    font.draw( help );
>>
    with a bound on the number of passes; [None] when it is reached.  The
    height [y] is the rational the [float] denotes: it is a multiple of
    4, which a [float] holds exactly as long as the text has fewer than
    2^22 lines. *)
Fixpoint helpLoop (fuel : nat) (help : string) (y : Q) : option (list HelpCall) :=
  match find newline help with
  | None => Some [glRasterPos3f 10 y (99 # 100); font_draw help]
  | Some pos =>
      match fuel with
      | O => None
      | S fuel' =>
          let line := substr 0 pos help in
          let help' := substr_from (pos + 1) help in
          calls ← helpLoop fuel' help' (y - 16);
          Some (glRasterPos3f 10 y (99 # 100) :: glColor3f 1 1 1 :: font_draw line :: calls)
      end
  end.

(** [void Channel::_drawHelp()] for the help text [EqPly::getHelp()]:
<<
    EQ_GL_CALL( applyBuffer( ));
    EQ_GL_CALL( applyViewport( ));
    EQ_GL_CALL( setupAssemblyState( ));
    glDisable( GL_LIGHTING );
    glDisable( GL_DEPTH_TEST );
    const eq::util::BitmapFont& font = getObjectManager()->getDefaultFont();
    glColor3f( 1.f, 1.f, 1.f );
    std::string help = EqPly::getHelp();
    float y = 340.f;
    (the loop and the two calls after it)
    EQ_GL_CALL( resetAssemblyState( ));
>>
    Each pass of the loop removes at least one character from [help], so
    the length of the text bounds the number of passes. *)
Definition _drawHelp (getHelp : string) : option (list HelpCall) :=
  calls ← helpLoop (String.length getHelp) getHelp 340;
  Some ([applyBuffer; applyViewport; setupAssemblyState;
         glDisable_GL_LIGHTING; glDisable_GL_DEPTH_TEST; getDefaultFont;
         glColor3f 1 1 1]
        ++ calls ++ [resetAssemblyState]).

(** The texts drawn, in order. *)
Definition drawn (calls : list HelpCall) : list string :=
  omap (fun c => match c with font_draw text => Some text | _ => None end) calls.

(** The raster positions set, in order. *)
Definition rasterPositions (calls : list HelpCall) : list (Q * Q * Q) :=
  omap (fun c => match c with glRasterPos3f x y z => Some (x, y, z) | _ => None end) calls.




End Help.

End EqPly.

(* ===================================================================== *)
(** * eq: the AGL event handler *)
(* ===================================================================== *)
Module AGL.

(** The constants of the Carbon event API and of [eq/client/event.h] that
    [_handleMouseEvent] and [_getButtonAction] name; their values are not
    in [aglEventHandler.cpp]. *)
Class Constants := {
  (* Carbon: kinds of mouse events, [UInt32] *)
  kEventMouseMoved   : N;
  kEventMouseDragged : N;
  kEventMouseDown    : N;
  kEventMouseUp      : N;
  (* Carbon: modifier bits *)
  controlKey : N;
  optionKey  : N;
  (* Carbon: [EventMouseButton] *)
  kEventMouseButtonPrimary   : N;
  kEventMouseButtonSecondary : N;
  kEventMouseButtonTertiary  : N;
  (* eq: pointer buttons *)
  PTR_BUTTON_NONE : N;
  PTR_BUTTON1     : N;
  PTR_BUTTON2     : N;
  PTR_BUTTON3     : N;
  (* eq: the value [OFF] of a window attribute, the height of the menu bar *)
  OFF : Z;
  EQ_AGL_MENUBARHEIGHT : Z
}.

(** [HIPoint]: two floating-point coordinates, as the rationals they
    denote. *)
Record HIPoint := mkHIPoint { hx : Q; hy : Q }.

(** What the handler reads of a Carbon event, through [GetEventKind],
    [GetCurrentEventButtonState] and [GetEventParameter]. *)
Record EventRef := mkEventRef {
  GetEventKind                   : N;
  GetCurrentEventButtonState     : N;
  kEventParamKeyModifiers        : N;
  kEventParamWindowMouseLocation : HIPoint;
  kEventParamMouseDelta          : HIPoint;
  kEventParamMouseButton         : N
}.

(** What the handler reads of the [eq::Window]. *)
Record Window := mkWindow {
  IATTR_HINT_DECORATION : Z;     (* getIAttribute( Window::IATTR_HINT_DECORATION ) *)
  getID                 : N
}.

(** [Event::Type], as far as the mouse handler sets it. *)
Inductive EventType :=
| POINTER_MOTION
| POINTER_BUTTON_PRESS
| POINTER_BUTTON_RELEASE
| UNKNOWN.

(** The pointer data of an event.  [data.pointerMotion],
    [data.pointerButtonPress] and [data.pointerButtonRelease] are members
    of the one union [data] and have this one type, so the three names
    denote the same object; the handler relies on it when it tests
    [pointerMotion.buttons] after having written
    [pointerButtonPress.buttons]. *)
Record PointerEvent := mkPointerEvent {
  x : Z; y : Z; dx : Z; dy : Z;      (* int32_t *)
  buttons : N; button : N            (* uint32_t *)
}.

(** A [WindowEvent]: the members the handler has written. *)
Record WindowEvent := mkWindowEvent {
  carbonEventRef : EventRef;
  window         : Window;
  type           : EventType;
  pointer        : option PointerEvent;
  originator     : option N
}.

(** The calls that leave the handler, in program order. *)
Inductive Call :=
| _getRenderContext (event : WindowEvent)
| _processEvent (event : WindowEvent).

(** The state of the handler: the delta of the last motion event. *)
Record AGLEventHandler := mkAGLEventHandler { _lastDX : Z; _lastDY : Z }.

(** [AGLEventHandler::AGLEventHandler() : _lastDX( 0 ), _lastDY( 0 )] *)
Definition AGLEventHandler_new : AGLEventHandler := mkAGLEventHandler 0 0.

(** [static_cast< int32_t >( f )]: the value truncated towards zero; no
    result when it is not an [int32_t]. *)
Definition int32_of_float (f : Q) : option Z :=
  let t := Z.quot (Qnum f) (Z.pos (Qden f)) in
  if decide (- 2 ^ 31 <= t < 2 ^ 31)%Z then Some t else None.

(** [a - b] on [int32_t]; no result on overflow. *)
Definition int32_sub (a b : Z) : option Z :=
  if decide (- 2 ^ 31 <= a - b < 2 ^ 31)%Z then Some (a - b)%Z else None.

Section Handler.
Context `{Constants}.

(** What the code outside the file answers: [EventHandler::_getRenderContext]
    fills in the event, [EventHandler::_processEvent] returns whether the
    event was handled. *)
Variable getRenderContext : WindowEvent -> WindowEvent.
Variable processEvent : WindowEvent -> bool.

(** [uint32_t AGLEventHandler::_getButtonAction( EventRef event )]:
<<
    switch( button )
    {
        case kEventMouseButtonPrimary:   return PTR_BUTTON1;
        case kEventMouseButtonSecondary: return PTR_BUTTON2;
        case kEventMouseButtonTertiary:  return PTR_BUTTON3;
        default: return PTR_BUTTON_NONE;
    }
>> *)
Definition _getButtonAction (event : EventRef) : N :=
  let button := kEventParamMouseButton event in
  if (button =? kEventMouseButtonPrimary)%N then PTR_BUTTON1
  else if (button =? kEventMouseButtonSecondary)%N then PTR_BUTTON2
  else if (button =? kEventMouseButtonTertiary)%N then PTR_BUTTON3
  else PTR_BUTTON_NONE.

(** In each of the three pointer cases:
<<
    if( windowEvent.data.pointerMotion.buttons == PTR_BUTTON1 )
    {   // Only left button pressed: implement apple-style middle/right
        // button if modifier keys are used.
        uint32_t keys = 0;
        GetEventParameter( event, kEventParamKeyModifiers, ... &keys );
        if( keys & controlKey )
            windowEvent.data.pointerMotion.buttons = PTR_BUTTON3;
        else if( keys & optionKey )
            windowEvent.data.pointerMotion.buttons = PTR_BUTTON2;
    }
>> *)
Definition appleButtons (event : EventRef) (buttons : N) : N :=
  if (buttons =? PTR_BUTTON1)%N then
    let keys := kEventParamKeyModifiers event in
    if negb (N.land keys controlKey =? 0)%N then PTR_BUTTON3
    else if negb (N.land keys optionKey =? 0)%N then PTR_BUTTON2
    else buttons
  else buttons.

(** After the [switch]:
<<
    windowEvent.data.originator = window->getID();
    return EventHandler::_processEvent( window, windowEvent );
>> *)
Definition deliver (this : AGLEventHandler) (calls : list Call) (event : WindowEvent)
  : option (bool * AGLEventHandler * list Call) :=
  let event := mkWindowEvent (carbonEventRef event) (window event) (type event)
                             (pointer event) (Some (getID (window event))) in
  Some (processEvent event, this, calls ++ [_processEvent event]).

(** [const bool decoration =
       window->getIAttribute( Window::IATTR_HINT_DECORATION ) != OFF;
     const int32_t menuHeight = decoration ? EQ_AGL_MENUBARHEIGHT : 0 ;] *)
Definition menuHeight (win : Window) : Z :=
  let decoration := negb (IATTR_HINT_DECORATION win =? OFF)%Z in
  if decoration then EQ_AGL_MENUBARHEIGHT else 0%Z.

(** The position of a pointer event:
<<
    GetEventParameter( event, kEventParamWindowMouseLocation, ... &pos );
    if( pos.y < menuHeight )
        return false; // ignore pointer events on the menu bar
    ....x = static_cast< int32_t >( pos.x );
    ....y = static_cast< int32_t >( pos.y ) - menuHeight;
>>
    In the comparison [menuHeight] is converted to the floating-point
    type of [pos.y]; the height of a menu bar is a value that the
    conversion keeps. *)
Definition onMenuBar (event : EventRef) (menuHeight : Z) : bool :=
  negb (Qle_bool (inject_Z menuHeight) (hy (kEventParamWindowMouseLocation event))).

Definition position (event : EventRef) (menuHeight : Z) : option (Z * Z) :=
  x ← int32_of_float (hx (kEventParamWindowMouseLocation event));
  y ← int32_of_float (hy (kEventParamWindowMouseLocation event));
  y ← int32_sub y menuHeight;
  Some (x, y).

(** [bool AGLEventHandler::_handleMouseEvent( EventRef event, eq::Window* window )].
    The cases of the [switch] are tested in their order.
    - [kEventMouseMoved], [kEventMouseDragged]:
<<
    windowEvent.data.type                  = Event::POINTER_MOTION;
    windowEvent.data.pointerMotion.button  = PTR_BUTTON_NONE;
    windowEvent.data.pointerMotion.buttons = GetCurrentEventButtonState();
    (the modifier keys, the position)
    GetEventParameter( event, kEventParamMouseDelta, ... &pos );
    windowEvent.data.pointerMotion.dx = static_cast< int32_t >( pos.x );
    windowEvent.data.pointerMotion.dy = static_cast< int32_t >( pos.y );
    _lastDX = windowEvent.data.pointerMotion.dx;
    _lastDY = windowEvent.data.pointerMotion.dy;
    _getRenderContext( windowEvent );
>>
    - [kEventMouseDown], and likewise [kEventMouseUp] with
      [POINTER_BUTTON_RELEASE] and [pointerButtonRelease]:
<<
    windowEvent.data.type = Event::POINTER_BUTTON_PRESS;
    windowEvent.data.pointerButtonPress.buttons = GetCurrentEventButtonState();
    windowEvent.data.pointerButtonPress.button  = _getButtonAction( event );
    (the modifier keys, the position)
    windowEvent.data.pointerButtonPress.dx = _lastDX;
    windowEvent.data.pointerButtonPress.dy = _lastDY;
    _lastDX = 0;
    _lastDY = 0;
    _getRenderContext( windowEvent );
>>
    - [default]: [windowEvent.data.type = Event::UNKNOWN;]

    A cast or a subtraction without result leaves the call without
    result. *)
Definition _handleMouseEvent (this : AGLEventHandler) (event : EventRef) (win : Window)
  : option (bool * AGLEventHandler * list Call) :=
  let windowEvent (type : EventType) (pointer : option PointerEvent) :=
    mkWindowEvent event win type pointer None in
  let menuHeight := menuHeight win in
  let kind := GetEventKind event in
  if (kind =? kEventMouseMoved)%N || (kind =? kEventMouseDragged)%N then
    let buttons := appleButtons event (GetCurrentEventButtonState event) in
    if onMenuBar event menuHeight then Some (false, this, [])
    else
      '(x, y) ← position event menuHeight;
      dx ← int32_of_float (hx (kEventParamMouseDelta event));
      dy ← int32_of_float (hy (kEventParamMouseDelta event));
      let ev := windowEvent POINTER_MOTION
                  (Some (mkPointerEvent x y dx dy buttons PTR_BUTTON_NONE)) in
      deliver (mkAGLEventHandler dx dy) [_getRenderContext ev] (getRenderContext ev)
  else if (kind =? kEventMouseDown)%N then
    let buttons := appleButtons event (GetCurrentEventButtonState event) in
    let button := _getButtonAction event in
    if onMenuBar event menuHeight then Some (false, this, [])
    else
      '(x, y) ← position event menuHeight;
      let ev := windowEvent POINTER_BUTTON_PRESS
                  (Some (mkPointerEvent x y (_lastDX this) (_lastDY this) buttons button)) in
      deliver (mkAGLEventHandler 0 0) [_getRenderContext ev] (getRenderContext ev)
  else if (kind =? kEventMouseUp)%N then
    let buttons := appleButtons event (GetCurrentEventButtonState event) in
    let button := _getButtonAction event in
    if onMenuBar event menuHeight then Some (false, this, [])
    else
      '(x, y) ← position event menuHeight;
      let ev := windowEvent POINTER_BUTTON_RELEASE
                  (Some (mkPointerEvent x y (_lastDX this) (_lastDY this) buttons button)) in
      deliver (mkAGLEventHandler 0 0) [_getRenderContext ev] (getRenderContext ev)
  else deliver this [] (windowEvent UNKNOWN None).

(** Mouse events handled one after the other; the calls of all of them,
    in order. *)
Fixpoint handleMouseEvents (this : AGLEventHandler) (events : list EventRef) (win : Window)
  : option (AGLEventHandler * list Call) :=
  match events with
  | [] => Some (this, [])
  | event :: rest =>
      '(_, this1, calls1) ← _handleMouseEvent this event win;
      '(this2, calls2) ← handleMouseEvents this1 rest win;
      Some (this2, calls1 ++ calls2)
  end.

(* --------------------------------------------------------------------- *)
(** ** notions for the statements about pointer events *)

(** The pointer events handed to [_getRenderContext], with their type. *)
Definition pointerEvents (calls : list Call) : list (EventType * PointerEvent) :=
  omap (fun c => match c with
                 | _getRenderContext ev => (fun p => (type ev, p)) <$> pointer ev
                 | _ => None
                 end) calls.

(** The event is of one of the four kinds of pointer events. *)
Definition isPointerKind (event : EventRef) : Prop :=
  GetEventKind event = kEventMouseMoved \/ GetEventKind event = kEventMouseDragged \/
  GetEventKind event = kEventMouseDown \/ GetEventKind event = kEventMouseUp.

(** What one call of the handler does, by cases. *)
Inductive Handled (this : AGLEventHandler) (event : EventRef) (win : Window)
  : bool * AGLEventHandler * list Call -> Prop :=
| Ignored :
    onMenuBar event (menuHeight win) = true ->
    Handled this event win (false, this, [])
| Unknown r ev :
    type ev = UNKNOWN -> pointer ev = None ->
    Handled this event win (r, this, [_processEvent ev])
| Motion r p ev ev' :
    onMenuBar event (menuHeight win) = false ->
    type ev = POINTER_MOTION -> pointer ev = Some p ->
    position event (menuHeight win) = Some (x p, y p) ->
    int32_of_float (hx (kEventParamMouseDelta event)) = Some (dx p) ->
    int32_of_float (hy (kEventParamMouseDelta event)) = Some (dy p) ->
    Handled this event win
      (r, mkAGLEventHandler (dx p) (dy p), [_getRenderContext ev; _processEvent ev'])
| Button r p ev ev' :
    onMenuBar event (menuHeight win) = false ->
    type ev = POINTER_BUTTON_PRESS \/ type ev = POINTER_BUTTON_RELEASE ->
    pointer ev = Some p ->
    position event (menuHeight win) = Some (x p, y p) ->
    dx p = _lastDX this -> dy p = _lastDY this ->
    Handled this event win
      (r, mkAGLEventHandler 0 0, [_getRenderContext ev; _processEvent ev']).

End Handler.

(* --------------------------------------------------------------------- *)
(** ** A set of constants and of events

    One assignment of values to the constants, with a menu bar of 22
    pixels, on which the handler can be run. *)
Module Sample.

#[export] Instance constants : Constants := {|
  kEventMouseMoved := 5; kEventMouseDragged := 6;
  kEventMouseDown := 1;  kEventMouseUp := 2;
  controlKey := 4096;    optionKey := 2048;
  kEventMouseButtonPrimary := 1;
  kEventMouseButtonSecondary := 2;
  kEventMouseButtonTertiary := 3;
  PTR_BUTTON_NONE := 0; PTR_BUTTON1 := 1; PTR_BUTTON2 := 2; PTR_BUTTON3 := 4;
  OFF := 0;
  EQ_AGL_MENUBARHEIGHT := 22
|}.

(** A decorated window. *)
Definition win : Window := mkWindow 1 7.

(** The pointer moves by (3,-2) to (100.5, 50.25), the left button down
    and the control key held. *)
Definition motion : EventRef :=
  mkEventRef 5 1 4096 (mkHIPoint (201 # 2) (201 # 4)) (mkHIPoint 3 (-2)) 0.

(** The left button is pressed at the same place. *)
Definition press : EventRef :=
  mkEventRef 1 1 0 (mkHIPoint (201 # 2) (201 # 4)) (mkHIPoint 0 0) 1.

(** The pointer moves on the menu bar. *)
Definition onBar : EventRef :=
  mkEventRef 5 0 0 (mkHIPoint 10 (43 # 2)) (mkHIPoint 1 1) 0.

(** A render context that leaves the event as it is, and an application
    that handles every event. *)
Definition handle : AGLEventHandler -> EventRef -> Window
                    -> option (bool * AGLEventHandler * list Call) :=
  _handleMouseEvent (fun ev => ev) (fun _ => true).

End Sample.

End AGL.

(* ===================================================================== *)
(** * Properties of eqBase *)
(* ===================================================================== *)
Module BaseProps.
Import Base.

Section RefPtr.
Context {Heap : Type} `{Referenced Heap}.

Lemma assign_ptr_same this h :
  assign_ptr this (_ptr this) h = (this, (h, [])).
Proof. unfold assign_ptr. by rewrite decide_True. Qed.

Lemma assign_ptr_other this ptr h :
  _ptr this ≠ ptr ->
  assign_ptr this ptr h =
    (mkRefPtr ptr,
     (ref_then_unref (_ptr this) ptr h, calls_of_assign (_ptr this) ptr)).
Proof.
  intros Hne. unfold assign_ptr, ref_then_unref, calls_of_assign, ref.
  rewrite decide_False by done. simpl.
  destruct ptr as [p|], (_ptr this) as [t|]; reflexivity.
Qed.

Lemma get_assign_ptr this ptr h : get (assign_ptr this ptr h).1 = ptr.
Proof.
  destruct (decide (_ptr this = ptr)) as [Heq|Hne].
  - subst ptr. by rewrite assign_ptr_same.
  - by rewrite assign_ptr_other.
Qed.

(** C10.  Assignment to a [RefPtr] is neutral on the pointer it already
    holds and reference-safe otherwise.  For every reference pointer
    [this], every assigned pointer [ptr] (possibly [NULL]) and every store
    of pointees:
    - when [this] already holds [ptr] (in particular when a [RefPtr] is
      assigned to itself) the pointer, the store and hence every reference
      count are unchanged and no [ref()]/[unref()] call is made;
    - otherwise the new pointee is referenced first and the previous one
      unreferenced after it: the calls are [ref] on the new pointee (if not
      [NULL]) followed by [unref] on the old one (if not [NULL]), and the
      store is the one obtained by applying them in that order;
    - afterwards [get()] returns the assigned pointer;
    - repeating the same assignment changes nothing any more. *)
Theorem RefPtr_assign_neutral_and_safe (this : RefPtr) (ptr : option Ptr) (h : Heap) :
  (_ptr this = ptr -> assign_ptr this ptr h = (this, (h, []))) /\
  assign this this h = (this, (h, [])) /\
  (_ptr this <> ptr ->
     (assign_ptr this ptr h).2 =
       (ref_then_unref (_ptr this) ptr h, calls_of_assign (_ptr this) ptr)) /\
  (forall p t, ptr = Some p -> _ptr this = Some t -> p <> t ->
     (assign_ptr this ptr h).2 = (T_unref t (T_ref p h), [CallRef p; CallUnref t])) /\
  get (assign_ptr this ptr h).1 = ptr /\
  (forall rhs, _ptr rhs = ptr -> assign this rhs h = assign_ptr this ptr h) /\
  (let '(this', (h', _)) := assign_ptr this ptr h in
   assign_ptr this' ptr h' = (this', (h', []))).
Proof.
  repeat split.
  - intros <-. apply assign_ptr_same.
  - apply assign_ptr_same.
  - intros Hne. by rewrite assign_ptr_other.
  - intros p t -> Ht Hne. rewrite assign_ptr_other by (rewrite Ht; congruence).
    by rewrite Ht.
  - apply get_assign_ptr.
  - intros rhs <-. reflexivity.
  - pose proof (get_assign_ptr this ptr h) as Hget.
    destruct (assign_ptr this ptr h) as [this' [h' calls]]. simpl in Hget.
    unfold get in Hget. rewrite <- Hget. apply assign_ptr_same.
Qed.

End RefPtr.

Lemma refCount_ref h p q :
  is_Some (h !! p) ->
  refCount (count_ref p h) q = if decide (p = q) then S (refCount h q) else refCount h q.
Proof.
  intros [n Hn]. unfold refCount, count_ref. rewrite lookup_alter.
  case_decide as Heq; [subst q; by rewrite Hn | done].
Qed.

Lemma refCount_unref h p q :
  refCount (count_unref p h) q = if decide (p = q) then pred (refCount h q) else refCount h q.
Proof.
  unfold refCount, count_unref.
  destruct (h !! p) as [[|[|n]]|] eqn:Hp; case_decide as Heq; subst;
    rewrite ?lookup_delete_eq, ?lookup_insert_eq, ?Hp;
    rewrite ?lookup_delete_ne, ?lookup_insert_ne by done; done.
Qed.

(** Re-seating a pointer from object 1 to object 2 on a counting store:
    object 2 gains a reference, object 1 (held once) is released, and
    assigning object 2 again leaves all counts alone. *)
Example assign_counts :
  let h : gmap Ptr nat := {[ 1%positive := 1; 2%positive := 1 ]} in
  let '(r, (h', calls)) := assign_ptr (mkRefPtr (Some 1%positive)) (Some 2%positive) h in
  get r = Some 2%positive /\
  calls = [CallRef 2%positive; CallUnref 1%positive] /\
  refCount h' 2%positive = 2 /\ refCount h' 1%positive = 0 /\
  assign_ptr r (Some 2%positive) h' = (r, (h', [])).
Proof. vm_compute. repeat split. Qed.

Lemma bool_of_ptr_of_bool b : bool_of_ptr (ptr_of_bool b) = b.
Proof. by destruct b. Qed.

Lemma wait_register_serve rh v :
  let '(id, rh1) := registerRequest rh in
  exists rh2, waitRequest id (serveRequest id v rh1) = Some (v, rh2)
            /\ waitRequest id rh2 = None.
Proof.
  unfold registerRequest, serveRequest, waitRequest. simpl.
  rewrite lookup_insert_eq. simpl. rewrite lookup_insert_eq.
  eexists. split; [reflexivity|]. simpl. by rewrite lookup_delete_eq.
Qed.


Section Owners.
Context {Heap : Type} `{Referenced Heap}.

Lemma refs_app p (c1 c2 : list RefCall) : refs p (c1 ++ c2) = refs p c1 + refs p c2.
Proof. apply sum_list_with_app. Qed.

Lemma unrefs_app p (c1 c2 : list RefCall) : unrefs p (c1 ++ c2) = unrefs p c1 + unrefs p c2.
Proof. apply sum_list_with_app. Qed.

Lemma holders_app p (o1 o2 : list RefPtr) : holders p (o1 ++ o2) = holders p o1 + holders p o2.
Proof. apply sum_list_with_app. Qed.

Lemma holders_lookup p (owners : list RefPtr) i r :
  owners !! i = Some r ->
  holders p owners = holders p (delete i owners) + holders p [r].
Proof.
  intros Hi. rewrite <- (take_drop_middle _ _ _ Hi) at 1.
  rewrite delete_take_drop, !holders_app.
  change (r :: drop (S i) owners) with ([r] ++ drop (S i) owners).
  rewrite holders_app. lia.
Qed.

Lemma holders_insert p (owners : list RefPtr) i r r' :
  owners !! i = Some r ->
  holders p (<[i := r']> owners) = holders p (delete i owners) + holders p [r'].
Proof.
  intros Hi. rewrite insert_take_drop by by eapply lookup_lt_Some.
  rewrite delete_take_drop, !holders_app.
  change (r' :: drop (S i) owners) with ([r'] ++ drop (S i) owners).
  rewrite holders_app. lia.
Qed.

Lemma replay_app c1 c2 (h : Heap) : replay (c1 ++ c2) h = replay c2 (replay c1 h).
Proof. unfold replay. by rewrite foldl_app. Qed.

(** The calls of a constructor, against the pointer it creates. *)
Lemma from_balance p ptr (h : Heap) :
  refs p (RefPtr_from ptr h).2.2 = holders p [(RefPtr_from ptr h).1] /\
  unrefs p (RefPtr_from ptr h).2.2 = 0 /\
  (RefPtr_from ptr h).2.1 = replay (RefPtr_from ptr h).2.2 h.
Proof.
  unfold RefPtr_from, ref, refs, unrefs, holders. simpl.
  destruct ptr as [q|]; simpl; [|done].
  repeat case_decide; try done; congruence.
Qed.

(** The calls of the destructor, against the pointer it ends. *)
Lemma destroy_balance p this (h : Heap) :
  refs p (RefPtr_destroy this h).2 = 0 /\
  unrefs p (RefPtr_destroy this h).2 = holders p [this] /\
  (RefPtr_destroy this h).1 = replay (RefPtr_destroy this h).2 h.
Proof.
  unfold RefPtr_destroy, unref, refs, unrefs, holders. simpl.
  destruct (_ptr this) as [q|]; simpl; [|done].
  repeat case_decide; try done; congruence.
Qed.

(** The calls of an assignment, against what the pointer held and holds. *)
Lemma assign_ptr_balance p this ptr (h : Heap) :
  refs p (assign_ptr this ptr h).2.2 + holders p [this] =
    unrefs p (assign_ptr this ptr h).2.2 + holders p [(assign_ptr this ptr h).1] /\
  (assign_ptr this ptr h).2.1 = replay (assign_ptr this ptr h).2.2 h.
Proof.
  unfold assign_ptr, ref, refs, unrefs, holders.
  destruct this as [old]. simpl.
  case_decide as Heq; simpl; [done|].
  destruct ptr as [q|], old as [t|]; simpl;
    repeat case_decide; try done; try congruence; simplify_eq; try lia.
Qed.

Lemma construct_balanced h0 (st : Owners) (r : RefPtr * (Heap * list RefCall)) :
  balanced h0 st ->
  (forall p, refs p r.2.2 = holders p [r.1] /\ unrefs p r.2.2 = 0) ->
  r.2.1 = replay r.2.2 st.2.1 ->
  balanced h0 (construct st r).
Proof.
  intros [Hb Hs] Hr Hh. split; simpl.
  - intros p. destruct (Hr p) as [Hrefs Hun].
    rewrite refs_app, unrefs_app, holders_app, Hrefs, Hun, Hb. lia.
  - by rewrite replay_app, <- Hs.
Qed.

Lemma step_balanced h0 (st : Owners) op : balanced h0 st -> balanced h0 (step st op).
Proof.
  intros Hst. pose proof Hst as [Hb Hs].
  assert (forall ptr, balanced h0 (construct st (RefPtr_from ptr st.2.1))) as Hfrom.
  { intros ptr. apply construct_balanced; [done | | apply (from_balance 1%positive)].
    intros p. split; apply from_balance. }
  assert (forall this t ptr, st.1 !! this = Some t ->
            balanced h0 (let '(t', (h', calls)) := assign_ptr t ptr st.2.1 in
                         (<[this := t']> st.1, (h', st.2.2 ++ calls)))) as Hassign.
  { intros this t ptr Ht.
    pose proof (fun p => assign_ptr_balance p t ptr st.2.1) as Ha.
    destruct (assign_ptr t ptr st.2.1) as [t' [h' calls]]. cbn [fst snd] in *.
    split; simpl.
    - intros p. destruct (Ha p) as [Hp _].
      rewrite refs_app, unrefs_app, (holders_insert _ _ _ _ _ Ht).
      pose proof (Hb p) as Hbp. rewrite (holders_lookup _ _ _ _ Ht) in Hbp. lia.
    - destruct (Ha 1%positive) as [_ ->]. by rewrite replay_app, <- Hs. }
  destruct op as [|ptr|from|from|this rhs|this ptr|this]; simpl.
  - split; [|done]. intros p. simpl. rewrite holders_app, Hb.
    unfold holders at 3. simpl. lia.
  - apply Hfrom.
  - destruct (st.1 !! from) as [f|]; [apply Hfrom | done].
  - destruct (st.1 !! from) as [f|]; [apply Hfrom | done].
  - destruct (st.1 !! this) as [t|] eqn:Ht; [|done].
    destruct (st.1 !! rhs) as [r|]; [|done]. by apply Hassign.
  - destruct (st.1 !! this) as [t|] eqn:Ht; [|done]. by apply Hassign.
  - destruct (st.1 !! this) as [t|] eqn:Ht; [|done].
    pose proof (fun p => destroy_balance p t st.2.1) as Hd.
    destruct (RefPtr_destroy t st.2.1) as [h' calls]. cbn [fst snd] in *.
    split; simpl.
    + intros p. destruct (Hd p) as (Hr & Hu & _).
      rewrite refs_app, unrefs_app, Hr, Hu.
      pose proof (Hb p) as Hbp. rewrite (holders_lookup _ _ _ _ Ht) in Hbp. lia.
    + destruct (Hd 1%positive) as (_ & _ & ->). by rewrite replay_app, <- Hs.
Qed.

Lemma foldl_balanced h0 ops : forall st, balanced h0 st -> balanced h0 (foldl step st ops).
Proof.
  induction ops as [|op ops IH]; intros st Hst; simpl; [done|].
  by apply IH, step_balanced.
Qed.

(** X1.  Reference pointers keep the calls on pointees in balance with
    the pointers that hold them.  After any sequence of constructions
    (default, from a pointer, copy, static cast), assignments (of a
    pointer or of another reference pointer, itself included) and
    destructions, started without any reference pointer: for every
    pointee, the number of [ref()] calls made on it equals the number of
    [unref()] calls made on it plus the number of live reference pointers
    that hold it.  So a pointee is never unreferenced more often than it
    was referenced, and once every reference pointer is destroyed each
    pointee has been unreferenced exactly as often as referenced.  The
    store is the one that the calls made, in their order, produce from
    the initial store. *)
Theorem RefPtr_calls_balance_holders (ops : list Op) (h : Heap) (p : Ptr) :
  refs p (run ops h).2.2 = unrefs p (run ops h).2.2 + holders p (run ops h).1 /\
  unrefs p (run ops h).2.2 <= refs p (run ops h).2.2 /\
  ((run ops h).1 = [] -> refs p (run ops h).2.2 = unrefs p (run ops h).2.2) /\
  (run ops h).2.1 = replay (run ops h).2.2 h.
Proof.
  assert (balanced h (run ops h)) as [Hb Hs].
  { apply foldl_balanced. split; [intros q|]; reflexivity. }
  split; [apply Hb|]. split; [rewrite (Hb p); lia|]. split; [|done].
  intros Hnil. rewrite (Hb p), Hnil. unfold holders. simpl. lia.
Qed.

End Owners.

(** A program on the counting store: two pointers share object 1, one is
    re-seated to object 2, then both go out of scope.  Both objects are
    released. *)
Example owners_run :
  let h : gmap Ptr nat := {[ 1%positive := 0; 2%positive := 0 ]} in
  let '(owners, (h', calls)) :=
    run [OpFrom (Some 1%positive); OpCopy 0; OpAssignPtr 1 (Some 2%positive);
         OpDestroy 0; OpDestroy 0] h in
  owners = [] /\
  calls = [CallRef 1%positive; CallRef 1%positive; CallRef 2%positive;
           CallUnref 1%positive; CallUnref 1%positive; CallUnref 2%positive] /\
  h' = ∅.
Proof. vm_compute. repeat split. Qed.

End BaseProps.

(* ===================================================================== *)
(** * Properties of eqNet *)
(* ===================================================================== *)
Module NetProps.
Import Base Net.

Section Node.
Context {Connection Description T : Type} `{Externals Connection Description T}.

Local Abbreviation Node := (@Node Connection Description).
Local Abbreviation Call := (@Call T).

Lemma checkConnection_calls (n : Node) :
  (checkConnection n).2 =
    if bool_decide (_state n = STATE_STOPPED) then [CallConnect] else [].
Proof.
  unfold checkConnection.
  destruct (_state n); simpl; try reflexivity.
  by destruct (Node_connect n).
Qed.

(** C8.  [checkConnection] returns [true] at once, with the node
    untouched and no call made, when the state is [STATE_CONNECTED] or
    [STATE_LISTENING]; in [STATE_STOPPED] it returns what one call of
    [connect()] returns; in [STATE_LAUNCHED] it returns [false] with the
    node untouched and no call made.  Hence [connect()] is attempted
    exactly when the state is [STATE_STOPPED].  This holds whatever
    [connect()] does. *)
Theorem checkConnection_by_state (n : Node) :
  (_state n = STATE_CONNECTED \/ _state n = STATE_LISTENING ->
     checkConnection n = (true, n, [])) /\
  (_state n = STATE_STOPPED ->
     checkConnection n = ((Node_connect n).1, (Node_connect n).2, [CallConnect])) /\
  (_state n = STATE_LAUNCHED -> checkConnection n = (false, n, [])) /\
  (In CallConnect (checkConnection n).2 <-> _state n = STATE_STOPPED).
Proof.
  repeat split.
  - unfold checkConnection. by intros [-> | ->].
  - unfold checkConnection. intros ->. simpl. by destruct (Node_connect n).
  - unfold checkConnection. by intros ->.
  - rewrite checkConnection_calls. case_bool_decide; [done | by intros []].
  - intros Hs. rewrite checkConnection_calls, bool_decide_true by done. by left.
Qed.

(** The four overloads have the common shape. *)
Lemma send_shape (n : Node) (packet : Packet) :
  send n packet
    = send_with n packet (fun c => Connection_send c packet) (CallSend packet) N.eqb.
Proof. reflexivity. Qed.

Lemma send_string_shape (n : Node) (packet : Packet) (s : string) :
  send_string n packet s
    = send_with n packet (fun c => Connection_send_string c packet s)
                (CallSendString packet s) (fun written sz => N.leb sz written).
Proof. reflexivity. Qed.

Lemma send_vector_shape (n : Node) (packet : Packet) (data : list T) :
  send_vector n packet data
    = send_with n packet (fun c => Connection_send_vector c packet data)
                (CallSendVector packet data) (fun written sz => N.leb sz written).
Proof. reflexivity. Qed.

Lemma send_data_shape (n : Node) (packet : Packet) (data : list Byte.byte) (sz : N) :
  send_data n packet data sz
    = send_with n packet (fun c => Connection_send_data c packet data sz)
                (CallSendData packet data sz) (fun written psz => N.leb psz written).
Proof. reflexivity. Qed.

Lemma send_with_true (n : Node) packet conn_send (call : Call) test :
  returns (send_with n packet conn_send call test) true <->
  exists n1 c, connectivity_ensured n n1 /\ _connection n1 = Some c /\
               test (conn_send c).1 (size packet) = true.
Proof.
  unfold returns, send_with, connectivity_ensured.
  destruct (checkConnection n) as [[ok n1] calls]. split.
  - intros (n' & calls' & Hr). destruct ok; simpl in Hr; [|congruence].
    destruct (_connection n1) as [c|] eqn:Hc; [|done]. simpl in Hr.
    destruct (conn_send c) as [written c'] eqn:Hs.
    exists n1, c. rewrite Hs. simpl. split; [by exists calls|]. split; [done|].
    congruence.
  - intros (n2 & c & (calls' & Heq) & Hc & Ht). inversion Heq; subst.
    simpl. rewrite Hc. simpl. destruct (conn_send c) as [written c'].
    simpl in Ht. rewrite Ht. eauto.
Qed.

(** A [send] that returns made exactly one call on the connection when
    connectivity was ensured, and none otherwise. *)
Lemma send_with_one_call (n : Node) packet conn_send (call : Call) test b n' calls :
  is_connection_call call = true ->
  send_with n packet conn_send call test = Some (b, n', calls) ->
  List.filter is_connection_call calls =
    if (checkConnection n).1.1 then [call] else [].
Proof.
  intros Hcall. unfold send_with.
  pose proof (checkConnection_calls n) as Hcalls.
  destruct (checkConnection n) as [[ok n1] calls0]. simpl in *.
  assert (List.filter is_connection_call calls0 = []) as Hnone.
  { rewrite Hcalls. by case_bool_decide. }
  destruct ok; simpl.
  - destruct (_connection n1) as [c|]; [|done]. simpl.
    destruct (conn_send c) as [written c']. intros [= <- <- <-].
    rewrite List.filter_app, Hnone. simpl. by rewrite Hcall.
  - by intros [= <- <- <-].
Qed.

(** C4.  [Node::send(packet)] returns [true] if and only if connectivity
    could be ensured ([checkConnection()] returned [true]) and the send on
    the connection wrote exactly [packet.size] bytes.  Each payload
    variant (string, vector, raw data) returns [true] if and only if
    connectivity could be ensured and the send on the connection wrote at
    least [packet.size] bytes.  When connectivity is ensured, packet and
    payload go to the connection in one single call. *)
Theorem Node_send_success (n : Node) (packet : Packet) :
  (returns (send n packet) true <->
     exists n1 c, connectivity_ensured n n1 /\ _connection n1 = Some c /\
                  (Connection_send c packet).1 = size packet) /\
  (forall s, returns (send_string n packet s) true <->
     exists n1 c, connectivity_ensured n n1 /\ _connection n1 = Some c /\
                  (size packet <= (Connection_send_string c packet s).1)%N) /\
  (forall data, returns (send_vector n packet data) true <->
     exists n1 c, connectivity_ensured n n1 /\ _connection n1 = Some c /\
                  (size packet <= (Connection_send_vector c packet data).1)%N) /\
  (forall data sz, returns (send_data n packet data sz) true <->
     exists n1 c, connectivity_ensured n n1 /\ _connection n1 = Some c /\
                  (size packet <= (Connection_send_data c packet data sz).1)%N) /\
  (forall s b n' calls, send_string n packet s = Some (b, n', calls) ->
     List.filter is_connection_call calls =
       if (checkConnection n).1.1 then [CallSendString packet s] else []) /\
  (forall data b n' calls, send_vector n packet data = Some (b, n', calls) ->
     List.filter is_connection_call calls =
       if (checkConnection n).1.1 then [CallSendVector packet data] else []) /\
  (forall data sz b n' calls, send_data n packet data sz = Some (b, n', calls) ->
     List.filter is_connection_call calls =
       if (checkConnection n).1.1 then [CallSendData packet data sz] else []).
Proof.
  split; [|split; [|split; [|split; [|split; [|split]]]]].
  - rewrite send_shape, send_with_true.
    by setoid_rewrite N.eqb_eq.
  - intros s. rewrite send_string_shape, send_with_true.
    by setoid_rewrite N.leb_le.
  - intros data. rewrite send_vector_shape, send_with_true.
    by setoid_rewrite N.leb_le.
  - intros data sz. rewrite send_data_shape, send_with_true.
    by setoid_rewrite N.leb_le.
  - intros s b n' calls. rewrite send_string_shape. by apply send_with_one_call.
  - intros data b n' calls. rewrite send_vector_shape. by apply send_with_one_call.
  - intros data sz b n' calls. rewrite send_data_shape. by apply send_with_one_call.
Qed.

End Node.

Section Connect.
Context {Connection Description : Type}.

Local Abbreviation node := (@Node Connection Description).
Local Abbreviation network := (@Network Connection Description).

Lemma handshake_states (net : network) (c : Connection) (n : node) :
  on_success_otherwise_unchanged (handshake net c) (fun s => s = STATE_CONNECTED) n.
Proof.
  unfold on_success_otherwise_unchanged, handshake.
  destruct (send_connect net c), (read_reply net c); simpl; split; congruence.
Qed.

Lemma initConnect_states (net : network) (n : node) :
  on_success_otherwise_unchanged (initConnect net)
    (fun s => s = STATE_LAUNCHED \/ s = STATE_CONNECTED) n.
Proof.
  pose proof handshake_states as Hhs.
  unfold on_success_otherwise_unchanged in *. unfold initConnect.
  case_bool_decide as Hs.
  - destruct (firstReachable net (_connectionDescriptions n)) as [c|].
    + destruct (Hhs net c n) as [Hok Hfail].
      split; [intros Hr; right; by apply Hok | done].
    + destruct (_autoLaunch n); [|by split].
      destruct (firstLaunch net (_connectionDescriptions n)); simpl; split;
        intros; done || by left.
  - simpl. split; [|done].
    intros Hr. by apply bool_decide_eq_true in Hr.
Qed.

Lemma syncConnect_states (net : network) (n : node) :
  on_success_otherwise_unchanged (syncConnect net) (fun s => s = STATE_CONNECTED) n.
Proof.
  unfold on_success_otherwise_unchanged, syncConnect.
  destruct (_state n) eqn:Hs; simpl; try (split; congruence).
  destruct (connect_back net (_launchID n)); simpl; split; congruence.
Qed.

Lemma connect_states (net : network) (n : node) :
  on_success_otherwise_unchanged (connect net) (fun s => s = STATE_CONNECTED) n.
Proof.
  unfold on_success_otherwise_unchanged, connect.
  pose proof (initConnect_states net n) as [_ Hfail].
  destruct (initConnect net n) as [started n1]. simpl in Hfail.
  destruct started; [|by split].
  pose proof (syncConnect_states net n1) as [Hok _].
  destruct (syncConnect net n1) as [joined n2]. simpl in Hok.
  destruct joined; simpl; split; auto; done.
Qed.

(** C5, on the model of the spec.  [connect()] leaves the node
    [STATE_CONNECTED] when it returns [true] and leaves the state
    unchanged when it returns [false]; [initConnect()] leaves the node
    [STATE_LAUNCHED] or [STATE_CONNECTED] when it returns [true] and
    [syncConnect()] leaves it [STATE_CONNECTED] when it returns [true],
    and both leave the state unchanged when they return [false].  This
    holds for every node and whatever the network and the launched
    process answer. *)
Theorem connect_state_on_success_and_failure (net : network) (n : node) :
  (((connect net n).1 = true -> _state (connect net n).2 = STATE_CONNECTED) /\
   ((connect net n).1 = false -> _state (connect net n).2 = _state n)) /\
  (((initConnect net n).1 = true ->
      _state (initConnect net n).2 = STATE_LAUNCHED \/
      _state (initConnect net n).2 = STATE_CONNECTED) /\
   ((initConnect net n).1 = false -> _state (initConnect net n).2 = _state n)) /\
  (((syncConnect net n).1 = true -> _state (syncConnect net n).2 = STATE_CONNECTED) /\
   ((syncConnect net n).1 = false -> _state (syncConnect net n).2 = _state n)).
Proof.
  split; [apply connect_states|].
  split; [apply initConnect_states | apply syncConnect_states].
Qed.

End Connect.

(** On the silent network [initConnect()] launches the stopped node and
    [syncConnect()] on the launched node fails, leaving it launched;
    [connect()] on the stopped node fails and leaves it stopped. *)
Example connect_on_silent_network :
  initConnect silent_network stopped_node = (true, launched_node) /\
  syncConnect silent_network launched_node = (false, launched_node) /\
  (connect silent_network stopped_node).1 = false /\
  _state (connect silent_network stopped_node).2 = STATE_STOPPED.
Proof. repeat split. Qed.

Section Runs.
Import Net.Sample.

(** A full write of the packet: [send] succeeds. *)
Example send_full_write :
  send (connected (mkConnection 1000 0)) packet
  = Some (true, connected (mkConnection 1000 24), [CallSend packet]).
Proof. reflexivity. Qed.

(** A partial write of the packet: [send] fails. *)
Example send_partial_write :
  send (connected (mkConnection 10 0)) packet
  = Some (false, connected (mkConnection 10 10), [CallSend packet]).
Proof. reflexivity. Qed.

(** Packet and string go out as one frame, longer than the packet. *)
Example send_string_full_write :
  send_string (connected (mkConnection 1000 0)) packet "window"
  = Some (true, connected (mkConnection 1000 30), [CallSendString packet "window"]).
Proof. reflexivity. Qed.

(** A stopped node that cannot be connected: one attempt, no send. *)
Example send_on_stopped_node :
  send (mkNode false STATE_STOPPED None EQ_INVALID_ID [tt]) packet
  = Some (false, mkNode false STATE_STOPPED None EQ_INVALID_ID [tt], [CallConnect]).
Proof. reflexivity. Qed.

(** A launched node: no attempt at all. *)
Example send_on_launched_node :
  send (mkNode true STATE_LAUNCHED None 7 [tt]) packet
  = Some (false, mkNode true STATE_LAUNCHED None 7 [tt], []).
Proof. reflexivity. Qed.

End Runs.


Section Descriptions.
Context {Connection Description : Type}.

Local Abbreviation Node := (@Node Connection Description).

(** X2.  Connection descriptions are stored in the order they are added.
    On a node with fewer than 2^32 - 1 descriptions,
    [addConnectionDescription] raises [nConnectionDescriptions()] by one,
    the added description is read back at the index that was the count
    before, and every smaller index is readable and reads what it read
    before.  An index at or beyond the count reads outside the vector.
    Adding a description changes neither the state nor the connection of
    the node. *)
Theorem connectionDescriptions_round_trip (n : Node) (cd : Description) :
  (N.of_nat (length (_connectionDescriptions n)) < 2 ^ 32 - 1)%N ->
  nConnectionDescriptions (addConnectionDescription cd n)
    = (nConnectionDescriptions n + 1)%N /\
  getConnectionDescription (nConnectionDescriptions n) (addConnectionDescription cd n)
    = Some cd /\
  (forall index, (index < nConnectionDescriptions n)%N ->
     is_Some (getConnectionDescription index n) /\
     getConnectionDescription index (addConnectionDescription cd n)
       = getConnectionDescription index n) /\
  (forall index, (nConnectionDescriptions n <= index)%N ->
     getConnectionDescription index n = None) /\
  _state (addConnectionDescription cd n) = _state n /\
  _connection (addConnectionDescription cd n) = _connection n.
Proof.
  intros Hlen. unfold nConnectionDescriptions, getConnectionDescription. simpl.
  rewrite length_app. simpl.
  rewrite !N.mod_small by lia. rewrite Nat2N.id.
  split; [lia|]. split; [by rewrite lookup_app_r, Nat.sub_diag by lia|].
  split; [|split; [|done]].
  - intros index Hi.
    assert (N.to_nat index < length (_connectionDescriptions n)) as Hlt by lia.
    split; [by apply lookup_lt_is_Some | by rewrite lookup_app_l].
  - intros index Hi. apply lookup_ge_None. lia.
Qed.

End Descriptions.

(** X2, witness: the stopped node with one description. *)
Lemma connectionDescriptions_round_trip_witness :
  nConnectionDescriptions (addConnectionDescription tt stopped_node)
    = (nConnectionDescriptions stopped_node + 1)%N /\
  getConnectionDescription (nConnectionDescriptions stopped_node)
    (addConnectionDescription tt stopped_node) = Some tt /\
  (forall index, (index < nConnectionDescriptions stopped_node)%N ->
     is_Some (getConnectionDescription index stopped_node) /\
     getConnectionDescription index (addConnectionDescription tt stopped_node)
       = getConnectionDescription index stopped_node) /\
  (forall index, (nConnectionDescriptions stopped_node <= index)%N ->
     getConnectionDescription index stopped_node = None) /\
  _state (addConnectionDescription tt stopped_node) = _state stopped_node /\
  _connection (addConnectionDescription tt stopped_node) = _connection stopped_node.
Proof.
  apply (connectionDescriptions_round_trip stopped_node tt). vm_compute. reflexivity.
Defined.

End NetProps.

(* ===================================================================== *)
(** * Properties of the server-side window *)
(* ===================================================================== *)
Module ServerProps.
Import Base BaseProps Server.

Section Window.
Context `{Collaborators}.

Lemma same_but_viewports_refl w : same_but_viewports w w.
Proof. by repeat split. Qed.

Lemma same_but_viewports_set pvp vp w : same_but_viewports w (set_viewports pvp vp w).
Proof. by repeat split. Qed.

(** C9.  [setPixelViewport] and [setViewport] called with an invalid
    argument return the window as it was.  Called with a valid argument
    they store it, and the other viewport becomes: the one recomputed
    from the pipe's pixel viewport ([pvp / pipePVP], respectively
    [pipePVP * vp] with the pipe's origin set to 0,0) when the window has
    a pipe whose pixel viewport is valid, and the invalidated old one in
    every other case.  No other member of the window changes. *)
Theorem Window_viewport_setters (w : Window) (pvp : PixelViewport) (vp : Viewport) :
  (pvp_isValid pvp = false -> setPixelViewport pvp w = w) /\
  (vp_isValid vp = false -> setViewport vp w = w) /\
  (pvp_isValid pvp = true ->
     _pvp (setPixelViewport pvp w) = pvp /\
     _vp (setPixelViewport pvp w) =
       match valid_pipePVP w with
       | Some pipePVP => pvp_div pvp pipePVP
       | None => vp_invalidate (_vp w)
       end) /\
  (vp_isValid vp = true ->
     _vp (setViewport vp w) = vp /\
     _pvp (setViewport vp w) =
       match valid_pipePVP w with
       | Some pipePVP => pvp_mul (pvp_set_y 0 (pvp_set_x 0 pipePVP)) vp
       | None => pvp_invalidate (_pvp w)
       end) /\
  same_but_viewports w (setPixelViewport pvp w) /\
  same_but_viewports w (setViewport vp w).
Proof.
  unfold setPixelViewport, setViewport, valid_pipePVP, same_but_viewports.
  destruct (_pipe w) as [pipe|] eqn:Hpipe;
    [destruct (pvp_isValid (Pipe_getPixelViewport pipe)) eqn:Hvalid|];
    destruct (pvp_isValid pvp), (vp_isValid vp); simpl;
    rewrite ?Hpipe, ?Hvalid; simpl;
    repeat split; intros; congruence.
Qed.

Lemma addSwapBarrier_spec barrier w bs b :
  bs !! barrier = Some b ->
  addSwapBarrier barrier w bs =
    Some (set_barriers (_masterSwapBarriers w) (_swapBarriers w ++ [barrier]) w,
          <[barrier := Net.Barrier_increase b]> bs).
Proof. intros Hb. unfold addSwapBarrier. by rewrite Hb. Qed.

Lemma participants_insert_increase bs barrier b p :
  bs !! barrier = Some b ->
  participants (<[barrier := Net.Barrier_increase b]> bs) p =
    if decide (barrier = p) then N.succ (participants bs p) else participants bs p.
Proof.
  intros Hb. unfold participants. rewrite lookup_insert.
  case_decide; [subst; by rewrite Hb | done].
Qed.

Lemma joinSwapGroup_spec barrier ws : forall bs b,
  bs !! barrier = Some b ->
  exists ws' bs',
    joinSwapGroup barrier ws bs = Some (ws', bs') /\
    is_Some (bs' !! barrier) /\
    participants bs' barrier = (participants bs barrier + N.of_nat (length ws))%N /\
    (forall p, p <> barrier -> bs' !! p = bs !! p) /\
    Forall2 (fun w w' => _swapBarriers w' = _swapBarriers w ++ [barrier] /\
                         _masterSwapBarriers w' = _masterSwapBarriers w) ws ws'.
Proof.
  induction ws as [|w rest IH]; intros bs b Hb; simpl.
  - exists [], bs. split; [done|]. split; [by exists b|].
    split; [simpl; lia|]. split; [done | constructor].
  - rewrite (addSwapBarrier_spec _ _ _ _ Hb). simpl.
    destruct (IH (<[barrier := Net.Barrier_increase b]> bs) (Net.Barrier_increase b))
      as (ws' & bs' & Hjoin & Hlive & Hcount & Hframe & Hall).
    { apply lookup_insert_eq. }
    rewrite Hjoin. simpl. eexists _, bs'. split; [reflexivity|].
    split; [done|]. split; [|split].
    + rewrite Hcount, (participants_insert_increase _ _ _ _ Hb), decide_True by done. lia.
    + intros p Hp. rewrite Hframe by done. by rewrite lookup_insert_ne.
    + constructor; [by simpl | done].
Qed.

Lemma Node_getBarrier_fresh bs :
  bs !! (Node_getBarrier bs).1 = None /\
  (Node_getBarrier bs).2 !! (Node_getBarrier bs).1
    = Some (Net.mkBarrier (Npos (Node_getBarrier bs).1) 0 0).
Proof.
  unfold Node_getBarrier. simpl. split.
  - apply not_elem_of_dom, is_fresh.
  - apply lookup_insert_eq.
Qed.

Lemma newSwapBarrier_spec w bs :
  exists barrier w' bs',
    newSwapBarrier w bs = Some (barrier, w', bs') /\
    bs !! barrier = None /\
    _masterSwapBarriers w' = _masterSwapBarriers w ++ [barrier] /\
    _swapBarriers w' = _swapBarriers w ++ [barrier] /\
    is_Some (bs' !! barrier) /\
    participants bs' barrier = 1%N /\
    (forall p, p <> barrier -> bs' !! p = bs !! p).
Proof.
  destruct (Node_getBarrier_fresh bs) as [Hfresh Hnew].
  unfold newSwapBarrier. destruct (Node_getBarrier bs) as [barrier bs1] eqn:Hget.
  simpl in *. rewrite (addSwapBarrier_spec _ _ _ _ Hnew). simpl.
  eexists _, _, _. split; [reflexivity|]. repeat split; try done.
  - rewrite lookup_insert_eq. by eexists.
  - unfold participants. by rewrite lookup_insert_eq.
  - intros p Hp. rewrite lookup_insert_ne by done.
    unfold Node_getBarrier in Hget. injection Hget as <- <-.
    by rewrite lookup_insert_ne.
Qed.

(** C3.  [addSwapBarrier] on a live barrier raises that barrier's
    participant count by exactly one, leaves every other barrier alone,
    and appends the barrier to the window's [_swapBarriers] (the master
    list is unchanged).  [newSwapBarrier] takes a barrier that did not
    exist before, appends it to [_masterSwapBarriers] and adds the
    creating window at once, so that the new barrier counts one
    participant.  Hence the barrier shared by a swap group of N windows,
    created by the first and joined by the others, counts N participants,
    and every window of the group holds it in [_swapBarriers]. *)
Theorem swap_barrier_participant_count :
  (forall barrier w bs, is_Some (bs !! barrier) ->
     exists w' bs',
       addSwapBarrier barrier w bs = Some (w', bs') /\
       participants bs' barrier = (participants bs barrier + 1)%N /\
       (forall p, p <> barrier -> bs' !! p = bs !! p) /\
       _swapBarriers w' = _swapBarriers w ++ [barrier] /\
       _masterSwapBarriers w' = _masterSwapBarriers w) /\
  (forall w bs,
     exists barrier w' bs',
       newSwapBarrier w bs = Some (barrier, w', bs') /\
       bs !! barrier = None /\
       _masterSwapBarriers w' = _masterSwapBarriers w ++ [barrier] /\
       _swapBarriers w' = _swapBarriers w ++ [barrier] /\
       participants bs' barrier = 1%N) /\
  (forall w rest bs,
     exists barrier ws' bs',
       planSwapGroup (w :: rest) bs = Some (Some barrier, ws', bs') /\
       participants bs' barrier = N.of_nat (length (w :: rest)) /\
       Forall2 (fun w0 w' => _swapBarriers w' = _swapBarriers w0 ++ [barrier])
               (w :: rest) ws').
Proof.
  split; [|split].
  - intros barrier w bs [b Hb]. rewrite (addSwapBarrier_spec _ _ _ _ Hb).
    eexists _, _. split; [reflexivity|]. repeat split.
    + rewrite (participants_insert_increase _ _ _ _ Hb), decide_True by done. lia.
    + intros p Hp. by rewrite lookup_insert_ne.
  - intros w bs.
    destruct (newSwapBarrier_spec w bs)
      as (barrier & w' & bs' & Hnew & Hfresh & Hm & Hs & _ & Hcount & _).
    by exists barrier, w', bs'.
  - intros w rest bs. unfold planSwapGroup.
    destruct (newSwapBarrier_spec w bs)
      as (barrier & w' & bs1 & Hnew & Hfresh & Hm & Hs & [b Hlive] & Hcount & _).
    rewrite Hnew. simpl.
    destruct (joinSwapGroup_spec barrier rest bs1 b Hlive)
      as (rest' & bs2 & Hjoin & _ & Hcount2 & _ & Hall).
    rewrite Hjoin. simpl. exists barrier, (w' :: rest'), bs2.
    split; [reflexivity|]. split.
    + rewrite Hcount2, Hcount. lia.
    + constructor; [done|]. eapply Forall2_impl; [exact Hall|]. by intros ? ? [? _].
Qed.

Lemma syncInit_channels_success cs : forall success,
  (syncInit_channels cs success).1 = true <-> success = true /\ channels_init_ok cs.
Proof.
  unfold channels_init_ok.
  induction cs as [|c rest IH]; intros success; simpl.
  - split; [by intros -> | by intros [-> _]].
  - destruct (Channel_isUsed c) eqn:Hused.
    + destruct (Channel_syncInit c) as [ok c1] eqn:Hsync.
      specialize (IH (if negb ok then false else success)).
      destruct (syncInit_channels rest _) as [s2 rest']. simpl in *.
      rewrite IH, Forall_cons, Hsync. simpl.
      destruct ok, success; simpl; intuition congruence.
    + specialize (IH success).
      destruct (syncInit_channels rest _) as [s2 rest']. simpl in *.
      rewrite IH, Forall_cons. intuition congruence.
Qed.

Lemma syncExit_channels_failure cs : forall success cfg,
  (syncExit_channels cs success cfg).1.1.1 = false <->
  success = false \/ channel_exit_failed cs.
Proof.
  unfold channel_exit_failed.
  induction cs as [|c rest IH]; intros success cfg; simpl.
  - rewrite Exists_nil. intuition.
  - rewrite Exists_cons. case_decide as Hstate.
    + specialize (IH success cfg).
      destruct (syncExit_channels rest _ _) as [[[s2 rest'] cfg2] ev]. simpl in *.
      rewrite IH. intuition.
    + destruct (Channel_syncExit c) as [ok c1] eqn:Hsync.
      destruct (Config_deregisterObject c1 cfg) as [c2 cfg1].
      specialize (IH (if negb ok then false else success) cfg1).
      destruct (syncExit_channels rest _ _) as [[[s2 rest'] cfg2] ev]. simpl in *.
      rewrite IH. destruct ok, success; simpl; intuition congruence.
Qed.

Lemma waitRequest_served id rh v :
  rh_requests rh !! id = Some (Some v) ->
  waitRequest id rh = Some (v, mkRequestHandler (rh_nextID rh) (delete id (rh_requests rh))).
Proof. intros Hv. unfold waitRequest. by rewrite Hv. Qed.

Lemma syncInit_served (w : Window) (v : Z) :
  _pendingRequestID w <> EQ_INVALID_ID ->
  rh_requests (_requestHandler w) !! _pendingRequestID w = Some (Some v) ->
  exists b w',
    syncInit w = Some (b, w') /\
    (b = true <-> channels_init_ok (_channels w) /\ bool_of_ptr v = true) /\
    _state w' = (if b then STATE_RUNNING else _state w) /\
    _pendingRequestID w' = EQ_INVALID_ID.
Proof.
  intros Hpending Hserved. unfold syncInit.
  pose proof (syncInit_channels_success (_channels w) true) as Hloop.
  destruct (syncInit_channels (_channels w) true) as [success cs]. simpl in Hloop.
  rewrite decide_False by done.
  rewrite (waitRequest_served _ _ _ Hserved). simpl.
  eexists _, _. split; [reflexivity|]. split; [|split].
  - destruct (bool_of_ptr v), success; simpl; intuition congruence.
  - by destruct (if negb (bool_of_ptr v) then false else success).
  - by destruct (if negb (bool_of_ptr v) then false else success).
Qed.

Lemma syncExit_served (w : Window) (cfg : Config) (v : Z) :
  _pendingRequestID w <> EQ_INVALID_ID ->
  rh_requests (_requestHandler w) !! _pendingRequestID w = Some (Some v) ->
  exists b w' cfg' ev,
    syncExit w cfg = Some (b, w', cfg', ev) /\
    (b = false <-> channel_exit_failed (_channels w) \/ bool_of_ptr v = false) /\
    _state w' = STATE_STOPPED /\
    _pendingRequestID w' = EQ_INVALID_ID.
Proof.
  intros Hpending Hserved. unfold syncExit. rewrite decide_False by done.
  rewrite (waitRequest_served _ _ _ Hserved). simpl.
  pose proof (syncExit_channels_failure (_channels w) (bool_of_ptr v) cfg) as Hloop.
  destruct (syncExit_channels (_channels w) (bool_of_ptr v) cfg)
    as [[[success cs] cfg1] ev]. simpl in Hloop.
  eexists _, _, _, _. split; [reflexivity|]. split; [|done].
  rewrite Hloop. tauto.
Qed.

(** C1.  Let the window's pending request (the one registered by
    [_sendInit], respectively [_sendExit]) have been served with the
    value [v].  Then [syncInit] returns, and it returns [true] exactly
    when every used channel's [syncInit] returned [true] and [v] is a
    success value; the state becomes [STATE_RUNNING] in that case and
    keeps its value otherwise.  Likewise [syncExit] returns, and it
    returns [false] exactly when some stopping channel's [syncExit]
    returned [false] or [v] is a failure value; the state is
    [STATE_STOPPED] afterwards. *)
Theorem Window_sync_propagates_failure (w : Window) (cfg : Config) (v : Z) :
  _pendingRequestID w <> EQ_INVALID_ID ->
  rh_requests (_requestHandler w) !! _pendingRequestID w = Some (Some v) ->
  (exists b w',
     syncInit w = Some (b, w') /\
     (b = true <-> channels_init_ok (_channels w) /\ bool_of_ptr v = true) /\
     _state w' = (if b then STATE_RUNNING else _state w) /\
     _pendingRequestID w' = EQ_INVALID_ID) /\
  (exists b w' cfg' ev,
     syncExit w cfg = Some (b, w', cfg', ev) /\
     (b = false <-> channel_exit_failed (_channels w) \/ bool_of_ptr v = false) /\
     _state w' = STATE_STOPPED /\
     _pendingRequestID w' = EQ_INVALID_ID).
Proof.
  intros Hpending Hserved. split.
  - by apply syncInit_served.
  - by apply syncExit_served.
Qed.

(** The request registered by [_sendInit] and answered by
    [_cmdInitReply] is the one [syncInit] waits for: [syncInit] then
    returns the reply's result when all used channels initialised. *)
Lemma sendInit_reply_syncInit (w : Window) (initID : N) (reply : WindowInitReplyPacket) :
  _pendingRequestID w = EQ_INVALID_ID ->
  rh_nextID (_requestHandler w) <> EQ_INVALID_ID ->
  exists w1 ev,
    _sendInit initID w = Some (w1, ev) /\
    _channels w1 = _channels w /\
    (reply_requestID reply = _pendingRequestID w1 ->
     exists b w2,
       syncInit (_cmdInitReply reply w1) = Some (b, w2) /\
       (b = true <-> channels_init_ok (_channels w) /\ reply_result reply = true)).
Proof.
  intros Hnone Hnext. unfold _sendInit. rewrite decide_True by done.
  simpl. eexists _, _. split; [reflexivity|]. split; [done|]. simpl. intros Hid.
  set (w1 := set_pendingRequestID _ _ w).
  assert (_pendingRequestID (_cmdInitReply reply w1) = rh_nextID (_requestHandler w)
          /\ _channels (_cmdInitReply reply w1) = _channels w
          /\ rh_requests (_requestHandler (_cmdInitReply reply w1))
               !! rh_nextID (_requestHandler w)
             = Some (Some (ptr_of_bool (reply_result reply)))) as (Hp & Hc & Hr).
  { unfold _cmdInitReply, setPixelViewport. rewrite Hid.
    destruct (pvp_isValid (reply_pvp reply)); simpl;
      [destruct (_pipe w) as [pipe|];
       [destruct (pvp_isValid (Pipe_getPixelViewport pipe))|]|]; simpl;
      (split; [done|]; split; [done|]);
      unfold serveRequest; simpl; rewrite lookup_insert_eq; simpl;
      by rewrite lookup_insert_eq. }
  destruct (syncInit_served (_cmdInitReply reply w1) (ptr_of_bool (reply_result reply)))
    as (b & w2 & Hsync & Hb & _).
  { by rewrite Hp. }
  { by rewrite Hp. }
  exists b, w2. split; [done|]. by rewrite Hb, Hc, bool_of_ptr_of_bool.
Qed.

Lemma filter_none (P : Event -> bool) l :
  Forall (fun e => P e = false) l -> List.filter P l = [].
Proof. induction 1 as [|e l He _ IH]; simpl; [done | by rewrite He]. Qed.

Lemma filter_all (P : Event -> bool) l :
  Forall (fun e => P e = true) l -> List.filter P l = l.
Proof. induction 1 as [|e l He _ IH]; simpl; [done | by rewrite He, IH]. Qed.

Lemma precedes_app (P Q : Event -> bool) pre suf :
  Forall (fun e => Q e = false) pre ->
  Forall (fun e => P e = false) suf ->
  precedes P Q (pre ++ suf).
Proof.
  intros Hpre Hsuf i j e1 e2 Hi Hj HP HQ.
  rewrite Forall_forall in Hpre, Hsuf.
  destruct (decide (i < length pre)) as [Hilt|Hige].
  - destruct (decide (j < length pre)) as [Hjlt|Hjge]; [|lia].
    rewrite lookup_app_l in Hj by done.
    apply list_elem_of_lookup_2, Hpre in Hj. congruence.
  - rewrite lookup_app_r in Hi by lia.
    apply list_elem_of_lookup_2, Hsuf in Hi. congruence.
Qed.

Lemma update_channels_events frameID cs :
  Forall (fun e => is_channel_update e = true) (update_channels frameID cs).2.
Proof.
  induction cs as [|c rest IH]; simpl; [constructor|].
  destruct (Channel_isUsed c), (update_channels frameID rest) as [rest' ev];
    simpl in *; [by constructor | done].
Qed.

(** With live pointers the first loop returns: it has logged one commit
    per master barrier, in list order, and the store is the committed
    one. *)
Lemma commit_masters_live masters : forall bs,
  (forall b, b ∈ masters -> is_Some (bs !! b)) ->
  exists bs1, commit_masters masters bs = Some (bs1, map EvBarrierCommit masters) /\
              committed masters bs bs1.
Proof.
  induction masters as [|b rest IH]; intros bs Hlive; simpl.
  - exists bs. split; [done|]. intros p. simpl. by destruct (bs !! p).
  - destruct (Hlive b) as [barrier Hb]; [by left|]. rewrite Hb. simpl.
    destruct (IH (<[b := Net.Barrier_commit barrier]> bs)) as (bs1 & Hc & Hcomm).
    { intros b' Hb'. rewrite lookup_insert_is_Some'. right. apply Hlive. by right. }
    exists bs1. rewrite Hc. split; [done|]. intros p. rewrite (Hcomm p).
    cbn [count_occ]. destruct (Pos.eq_dec b p) as [<- | Hne].
    + rewrite lookup_insert_eq, Hb. simpl. by rewrite Nat.iter_swap.
    + by rewrite lookup_insert_ne.
Qed.

Lemma committed_live masters bs bs1 p :
  committed masters bs bs1 -> is_Some (bs1 !! p) <-> is_Some (bs !! p).
Proof. intros Hcomm. rewrite (Hcomm p). apply fmap_is_Some. Qed.

Lemma send_barrier_packets_live swaps bs :
  (forall b, b ∈ swaps -> is_Some (bs !! b)) ->
  exists ev, send_barrier_packets swaps bs = Some ev /\ Forall2 (announces bs) swaps ev.
Proof.
  induction swaps as [|b rest IH]; intros Hlive; simpl.
  - exists []. split; [done | constructor].
  - destruct (Hlive b) as [barrier Hb]; [by left|]. rewrite Hb. simpl.
    destruct IH as (ev & Hev & Hall); [intros b' Hb'; apply Hlive; by right|].
    rewrite Hev. simpl. eexists. split; [reflexivity|].
    constructor; [by exists barrier | done].
Qed.

Lemma announces_is_barrier_packet bs swaps ev :
  Forall2 (announces bs) swaps ev -> Forall (fun e => is_barrier_packet e = true) ev.
Proof.
  induction 1 as [|b e swaps ev (barrier & _ & ->) _ IH]; constructor; done.
Qed.

(** The events of [_updateSwap], by kind. *)
Lemma updateSwap_trace (w : Window) (bs : gmap Ptr Net.Barrier) :
  (forall b, b ∈ _masterSwapBarriers w ++ _swapBarriers w -> is_Some (bs !! b)) ->
  exists bs1 ev,
    _updateSwap w bs =
      Some (bs1, map EvBarrierCommit (_masterSwapBarriers w)
                 ++ (if decide (_swapBarriers w = []) then [] else [EvSend WindowFinishPacket])
                 ++ ev ++ [EvSend WindowSwapPacket]) /\
    committed (_masterSwapBarriers w) bs bs1 /\
    Forall2 (announces bs1) (_swapBarriers w) ev.
Proof.
  intros Hlive. unfold _updateSwap.
  destruct (commit_masters_live (_masterSwapBarriers w) bs) as (bs1 & Hc & Hcomm).
  { intros b Hb. apply Hlive, elem_of_app. by left. }
  rewrite Hc. simpl.
  destruct (send_barrier_packets_live (_swapBarriers w) bs1) as (ev & Hev & Hall).
  { intros b Hb. apply (committed_live _ _ _ _ Hcomm), Hlive, elem_of_app. by right. }
  rewrite Hev. simpl. exists bs1, ev. split; [|done].
  by destruct (_swapBarriers w).
Qed.

Lemma sent_commits (l : list Ptr) : sent (map EvBarrierCommit l) = [].
Proof. induction l as [|b l IH]; [done | exact IH]. Qed.

Ltac event_kinds :=
  repeat match goal with
         | |- Forall _ (_ ++ _) => apply Forall_app; split
         | |- Forall _ (_ :: _) => constructor
         | |- Forall _ [] => constructor
         | |- Forall _ (if ?c then _ else _) => destruct c
         | |- Forall _ (map EvBarrierCommit _) => apply Forall_map, Forall_true; done
         | H : Forall (fun e => ?P e = true) ?l |- Forall _ ?l =>
             eapply Forall_impl; [exact H|]; by intros [[]| | | | | |]
         | |- _ = _ => reflexivity
         end.

(** The events of [update], by kind: start packet, channel updates,
    commits, finish packet, barrier packets, then swap and end packets. *)
Lemma update_trace (frameID : N) (w : Window) (bs : gmap Ptr Net.Barrier) (pipe : Pipe) :
  _pipe w = Some pipe ->
  (forall b, b ∈ _masterSwapBarriers w ++ _swapBarriers w -> is_Some (bs !! b)) ->
  exists w' bs' ev1 evb,
    update frameID w bs =
      Some (w', bs',
            (EvSend (WindowStartFramePacket frameID
                       (if (1 <? Pipe_nWindows pipe)%N then true else false))
               :: ev1 ++ map EvBarrierCommit (_masterSwapBarriers w)
               ++ (if decide (_swapBarriers w = []) then [] else [EvSend WindowFinishPacket])
               ++ evb)
            ++ [EvSend WindowSwapPacket; EvSend (WindowEndFramePacket frameID)]) /\
    Forall (fun e => is_channel_update e = true) ev1 /\
    committed (_masterSwapBarriers w) bs bs' /\
    Forall2 (announces bs') (_swapBarriers w) evb /\
    _updateSwap w bs =
      Some (bs', map EvBarrierCommit (_masterSwapBarriers w)
                 ++ (if decide (_swapBarriers w = []) then [] else [EvSend WindowFinishPacket])
                 ++ evb ++ [EvSend WindowSwapPacket]).
Proof.
  intros Hpipe Hlive. unfold update. rewrite Hpipe. simpl.
  pose proof (update_channels_events frameID (_channels w)) as Hch.
  destruct (update_channels frameID (_channels w)) as [cs ev1]. simpl in Hch.
  destruct (updateSwap_trace w bs Hlive) as (bs1 & evb & Hswap & Hcomm & Hann).
  rewrite Hswap. simpl.
  eexists _, bs1, ev1, evb. split; [|done].
  do 3 f_equal. by rewrite <- !app_assoc.
Qed.

(** C2.  In a per-frame [update] of a window that has a pipe and whose
    barrier pointers are live, the window commits all of its master swap
    barriers: the store of barriers after the update is the one in which
    [commit()] has been called on every master swap barrier, once per
    occurrence in [_masterSwapBarriers], and the trace of what the window
    does holds these commits in list order.  The trace holds one
    [WindowBarrierPacket] per element of [_swapBarriers], in list order,
    carrying that barrier's identifier and its version in the store after
    the commits, and exactly one [WindowSwapPacket].  Every commit and
    every barrier packet occurs before the swap packet.  When
    [_swapBarriers] is empty the trace holds no [WindowFinishPacket] and
    no [WindowBarrierPacket], and the only packet [_updateSwap] sends is
    the swap packet. *)
Theorem update_barriers_before_swap
    (frameID : N) (w : Window) (bs : gmap Ptr Net.Barrier) (pipe : Pipe) :
  _pipe w = Some pipe ->
  (forall b, b ∈ _masterSwapBarriers w ++ _swapBarriers w -> is_Some (bs !! b)) ->
  exists w' bs' tr,
    update frameID w bs = Some (w', bs', tr) /\
    committed (_masterSwapBarriers w) bs bs' /\
    List.filter is_commit tr = map EvBarrierCommit (_masterSwapBarriers w) /\
    Forall2 (announces bs') (_swapBarriers w) (List.filter is_barrier_packet tr) /\
    List.filter is_swap_packet tr = [EvSend WindowSwapPacket] /\
    precedes is_commit is_swap_packet tr /\
    precedes is_barrier_packet is_swap_packet tr /\
    (_swapBarriers w = [] ->
       List.filter is_finish_packet tr = [] /\
       List.filter is_barrier_packet tr = [] /\
       exists bs1 tr1, _updateSwap w bs = Some (bs1, tr1) /\ sent tr1 = [WindowSwapPacket]).
Proof.
  intros Hpipe Hlive.
  destruct (update_trace frameID w bs pipe Hpipe Hlive)
    as (w' & bs' & ev1 & evb & Hupd & Hch & Hcomm & Hann & Hswap).
  pose proof (announces_is_barrier_packet _ _ _ Hann) as Hbp.
  eexists w', bs', _. split; [exact Hupd|]. split; [exact Hcomm|].
  split; [|split; [|split; [|split; [|split]]]].
  - simpl. rewrite !List.filter_app. simpl.
    rewrite (filter_none is_commit ev1), (filter_none is_commit evb) by event_kinds.
    rewrite (filter_all is_commit (map _ _)) by event_kinds.
    case_decide; simpl; by rewrite !app_nil_r.
  - simpl. rewrite !List.filter_app. simpl.
    rewrite (filter_none is_barrier_packet ev1) by event_kinds.
    rewrite (filter_none is_barrier_packet (map _ _)) by event_kinds.
    rewrite (filter_all is_barrier_packet evb) by event_kinds.
    case_decide; simpl; by rewrite !app_nil_r.
  - simpl. rewrite !List.filter_app. simpl.
    rewrite (filter_none is_swap_packet ev1), (filter_none is_swap_packet evb)
      by event_kinds.
    rewrite (filter_none is_swap_packet (map _ _)) by event_kinds.
    by case_decide.
  - apply precedes_app; event_kinds.
  - apply precedes_app; event_kinds.
  - intros Hempty. rewrite Hempty in Hann. inversion Hann; subst.
    rewrite Hswap. simpl. rewrite !List.filter_app. simpl.
    rewrite (filter_none is_finish_packet ev1), (filter_none is_barrier_packet ev1)
      by event_kinds.
    rewrite (filter_none is_finish_packet (map _ _)) by event_kinds.
    rewrite (filter_none is_barrier_packet (map _ _)) by event_kinds.
    rewrite decide_True by done. simpl. split; [done|]. split; [done|].
    eexists _, _. split; [reflexivity|].
    unfold sent. rewrite omap_app. fold (sent (map EvBarrierCommit (_masterSwapBarriers w))).
    by rewrite sent_commits.
Qed.

End Window.

Section Runs.
Import Server.Sample.

(** The second channel fails, so [syncInit] fails and the window is not
    running, although its own request was served with success. *)
Example syncInit_sample :
  (fun r => (r.1, _state r.2)) <$> syncInit window = Some (false, STATE_INITIALISING).
Proof. vm_compute. reflexivity. Qed.

(** One frame: start packet, the two used channels, the commit of the
    master barrier, the finish packet, the two barrier packets (barrier
    1 with its version after the commit), the swap and the end packet. *)
Example update_sample :
  (fun r => r.2) <$> update 5 window barriers =
  Some [ EvSend (WindowStartFramePacket 5 true);
         EvChannelUpdate 11 5; EvChannelUpdate 12 5;
         EvBarrierCommit 1%positive;
         EvSend WindowFinishPacket;
         EvSend (WindowBarrierPacket 101 5);
         EvSend (WindowBarrierPacket 102 7);
         EvSend WindowSwapPacket;
         EvSend (WindowEndFramePacket 5) ].
Proof. vm_compute. reflexivity. Qed.

(** After that frame the master barrier 1 has been committed once, from
    version 4 to 5; barrier 2, which the window only takes part in, is
    as it was. *)
Example update_sample_store :
  (fun r => (Net.barrier_version <$> r.1.2 !! 1%positive,
             Net.barrier_version <$> r.1.2 !! 2%positive))
    <$> update 5 window barriers
  = Some (Some 5%N, Some 7%N).
Proof. vm_compute. reflexivity. Qed.

(** A swap group of three windows: the fresh barrier counts three. *)
Example planSwapGroup_sample :
  match planSwapGroup [window; window; window] barriers with
  | Some (Some barrier, _, bs) => barrier = 3%positive /\ participants bs barrier = 3%N
  | _ => False
  end.
Proof. vm_compute. split; reflexivity. Qed.

End Runs.

(** C1, witness: the sample window, whose request was served with 1. *)
Lemma Window_sync_propagates_failure_witness :
  (exists b w',
     syncInit Sample.window = Some (b, w') /\
     (b = true <-> channels_init_ok (_channels Sample.window) /\ bool_of_ptr 1 = true) /\
     _state w' = (if b then STATE_RUNNING else _state Sample.window) /\
     _pendingRequestID w' = EQ_INVALID_ID) /\
  (exists b w' cfg' ev,
     syncExit Sample.window 20%N = Some (b, w', cfg', ev) /\
     (b = false <-> channel_exit_failed (_channels Sample.window) \/ bool_of_ptr 1 = false) /\
     _state w' = STATE_STOPPED /\
     _pendingRequestID w' = EQ_INVALID_ID).
Proof.
  apply (Window_sync_propagates_failure Sample.window 20%N 1%Z).
  - vm_compute. discriminate.
  - vm_compute. reflexivity.
Defined.

(** C2, witness: one frame of the sample window. *)
Lemma update_barriers_before_swap_witness :
  exists w' bs' tr,
    update 5 Sample.window Sample.barriers = Some (w', bs', tr) /\
    committed (_masterSwapBarriers Sample.window) Sample.barriers bs' /\
    List.filter is_commit tr = map EvBarrierCommit (_masterSwapBarriers Sample.window) /\
    Forall2 (announces bs') (_swapBarriers Sample.window) (List.filter is_barrier_packet tr) /\
    List.filter is_swap_packet tr = [EvSend WindowSwapPacket] /\
    precedes is_commit is_swap_packet tr /\
    precedes is_barrier_packet is_swap_packet tr /\
    (_swapBarriers Sample.window = [] ->
       List.filter is_finish_packet tr = [] /\
       List.filter is_barrier_packet tr = [] /\
       exists bs1 tr1, _updateSwap Sample.window Sample.barriers = Some (bs1, tr1)
                       /\ sent tr1 = [WindowSwapPacket]).
Proof.
  apply (update_barriers_before_swap 5 Sample.window Sample.barriers Sample.pipe).
  - reflexivity.
  - intros b Hb. simpl in Hb.
    repeat (apply elem_of_cons in Hb as [-> | Hb]; [vm_compute; by eexists|]).
    by apply elem_of_nil in Hb.
Defined.


Section WindowLife.
Context `{Collaborators}.

Variable Channel_copy : Channel -> Channel.
Variable Node_releaseBarrier : Ptr -> gmap Ptr Net.Barrier -> gmap Ptr Net.Barrier.

Lemma sendInit_spec (initID : N) (w : Window) :
  _pendingRequestID w = EQ_INVALID_ID ->
  _sendInit initID w =
    Some (set_pendingRequestID (rh_nextID (_requestHandler w))
            (registerRequest (_requestHandler w)).2 w,
          [EvSendString (WindowInitPacket (rh_nextID (_requestHandler w)) initID
                           (_pvp w) (_vp w)) (_name w)]).
Proof. intros Hp. unfold _sendInit. by rewrite decide_True. Qed.

Lemma sendExit_spec (w : Window) :
  _pendingRequestID w = EQ_INVALID_ID ->
  _sendExit w =
    Some (set_pendingRequestID (rh_nextID (_requestHandler w))
            (registerRequest (_requestHandler w)).2 w,
          [EvSend (WindowExitPacket (rh_nextID (_requestHandler w)))]).
Proof. intros Hp. unfold _sendExit. by rewrite decide_True. Qed.

Lemma waitRequest_unserved id rh :
  rh_requests rh !! id = Some None -> waitRequest id rh = None.
Proof. intros Hr. unfold waitRequest. by rewrite Hr. Qed.

Lemma serveRequest_pending id v rh :
  rh_requests rh !! id = Some None ->
  rh_requests (serveRequest id v rh) !! id = Some (Some v).
Proof.
  intros Hr. unfold serveRequest. rewrite Hr. simpl. apply lookup_insert_eq.
Qed.

(** [_cmdInitReply] changes the viewports and the request handler only. *)
Lemma cmdInitReply_members (reply : WindowInitReplyPacket) (w : Window) :
  _pendingRequestID (_cmdInitReply reply w) = _pendingRequestID w /\
  _channels (_cmdInitReply reply w) = _channels w /\
  _state (_cmdInitReply reply w) = _state w /\
  _requestHandler (_cmdInitReply reply w) =
    serveRequest (reply_requestID reply) (ptr_of_bool (reply_result reply))
                 (_requestHandler w).
Proof.
  unfold _cmdInitReply, setPixelViewport.
  destruct (pvp_isValid (reply_pvp reply)); simpl;
    [destruct (_pipe w) as [pipe|];
     [destruct (pvp_isValid (Pipe_getPixelViewport pipe))|]|]; done.
Qed.

(** A start while a request is pending fails its assertion. *)
Lemma start_with_pending_request (w : Window) (initID : N) (cfg : Config) :
  _pendingRequestID w <> EQ_INVALID_ID ->
  startInit initID w cfg = None /\ startExit w = None.
Proof.
  intros Hp. unfold startInit, startExit, _sendInit, _sendExit. simpl.
  by rewrite !decide_False.
Qed.

(** A sync without pending request fails its assertion. *)
Lemma sync_without_pending_request (w : Window) (cfg : Config) :
  _pendingRequestID w = EQ_INVALID_ID ->
  syncInit w = None /\ syncExit w cfg = None.
Proof.
  intros Hp. unfold syncInit, syncExit.
  destruct (syncInit_channels _ _) as [success cs]. by rewrite !decide_True.
Qed.

(** X4.  The split-phase initialisation of a window, from start to end.
    On a window without pending request (and whose request handler does
    not hand out [EQ_INVALID_ID]) [startInit] returns; the window is then
    [STATE_INITIALISING] and waits for the request it has registered.
    Until the reply arrives a second [startInit] or a [startExit] fails
    its assertion, and [syncInit] does not return.  Once
    [_cmdInitReply] has handled the reply to that request, [syncInit]
    returns; it returns [true] exactly when every used channel's
    [syncInit] returned [true] and the reply reports success; the window
    is then [STATE_RUNNING], and still [STATE_INITIALISING] otherwise;
    no request is pending any more, so that a second [syncInit] fails its
    assertion. *)
Theorem Window_init_round_trip
    (w : Window) (initID : N) (cfg : Config) (reply : WindowInitReplyPacket) :
  _pendingRequestID w = EQ_INVALID_ID ->
  rh_nextID (_requestHandler w) <> EQ_INVALID_ID ->
  exists w1 cfg1 ev,
    startInit initID w cfg = Some (w1, cfg1, ev) /\
    _state w1 = STATE_INITIALISING /\
    _pendingRequestID w1 = rh_nextID (_requestHandler w) /\
    (forall initID' cfg', startInit initID' w1 cfg' = None) /\
    startExit w1 = None /\
    syncInit w1 = None /\
    (reply_requestID reply = _pendingRequestID w1 ->
     exists b w2,
       syncInit (_cmdInitReply reply w1) = Some (b, w2) /\
       (b = true <-> channels_init_ok (_channels w1) /\ reply_result reply = true) /\
       _state w2 = (if b then STATE_RUNNING else STATE_INITIALISING) /\
       _pendingRequestID w2 = EQ_INVALID_ID /\
       syncInit w2 = None).
Proof.
  intros Hnone Hnext. unfold startInit. rewrite (sendInit_spec _ _ Hnone). simpl.
  destruct (startInit_channels initID (_channels w) cfg) as [[cs cfg1] ev2] eqn:Hcs.
  eexists _, _, _. split; [reflexivity|]. simpl.
  split; [done|]. split; [done|].
  set (w1 := set_state _ _).
  assert (rh_requests (_requestHandler w1) !! _pendingRequestID w1 = Some None) as Hreg.
  { simpl. apply lookup_insert_eq. }
  split; [intros initID' cfg'; by apply start_with_pending_request|].
  split; [by apply (start_with_pending_request w1 initID cfg)|].
  split.
  - unfold syncInit. destruct (syncInit_channels _ _) as [success cs'].
    rewrite decide_False by done. by rewrite (waitRequest_unserved _ _ Hreg).
  - intros Hid.
    destruct (cmdInitReply_members reply w1) as (Hp & Hc & Hs & Hr).
    destruct (syncInit_served (_cmdInitReply reply w1)
                (ptr_of_bool (reply_result reply))) as (b & w2 & Hsync & Hb & Hst & Hpend).
    { by rewrite Hp. }
    { rewrite Hp, Hr, Hid. by apply serveRequest_pending. }
    exists b, w2. split; [done|]. split; [|split; [|split; [done|]]].
    + by rewrite Hb, Hc, bool_of_ptr_of_bool.
    + by rewrite Hst, Hs.
    + by apply (sync_without_pending_request w2 cfg).
Qed.

(** X5.  The split-phase exit of a window, from start to end.  On a
    window without pending request [startExit] returns; the window is
    then [STATE_STOPPING], every channel that was not
    [Channel::STATE_STOPPED] has had its [startExit] called and every
    stopped channel is as it was, and all the window does to the outside
    is to send the exit packet with the request it has registered.  Until the reply arrives a second
    [startExit] fails its assertion and [syncExit] does not return.  Once
    [_cmdExitReply] has handled the reply, [syncExit] returns, and it
    returns [false] exactly when some stopping channel's [syncExit]
    returned [false]: the reply itself always serves the request with
    success.  The window is [STATE_STOPPED] afterwards, without pending
    request. *)
Theorem Window_exit_round_trip (w : Window) (cfg : Config) :
  _pendingRequestID w = EQ_INVALID_ID ->
  rh_nextID (_requestHandler w) <> EQ_INVALID_ID ->
  exists w1 ev,
    startExit w = Some (w1, ev) /\
    _state w1 = STATE_STOPPING /\
    _pendingRequestID w1 = rh_nextID (_requestHandler w) /\
    length (_channels w1) = length (_channels w) /\
    (forall i channel, _channels w !! i = Some channel ->
       _channels w1 !! i
       = Some (if decide (Channel_getState channel = STATE_STOPPED) then channel
               else Channel_startExit channel)) /\
    ev = [EvSend (WindowExitPacket (rh_nextID (_requestHandler w)))] /\
    startExit w1 = None /\
    syncExit w1 cfg = None /\
    exists b w2 cfg2 ev2,
      syncExit (_cmdExitReply (_pendingRequestID w1) w1) cfg = Some (b, w2, cfg2, ev2) /\
      (b = false <-> channel_exit_failed (_channels w1)) /\
      _state w2 = STATE_STOPPED /\
      _pendingRequestID w2 = EQ_INVALID_ID /\
      syncExit w2 cfg2 = None.
Proof.
  intros Hnone Hnext. unfold startExit. rewrite sendExit_spec by done. simpl.
  eexists _, _. split; [reflexivity|]. simpl.
  split; [done|]. split; [done|].
  split; [unfold startExit_channels; by rewrite length_map|].
  split.
  { intros i channel Hi. unfold startExit_channels.
    change (map ?f ?l) with (f <$> l). by rewrite list_lookup_fmap, Hi. }
  split; [done|].
  set (w1 := set_pendingRequestID _ _ _).
  assert (rh_requests (_requestHandler w1) !! _pendingRequestID w1 = Some None) as Hreg.
  { simpl. apply lookup_insert_eq. }
  split; [by apply (start_with_pending_request w1 0%N cfg)|].
  split.
  - unfold syncExit. rewrite decide_False by done.
    by rewrite (waitRequest_unserved _ _ Hreg).
  - destruct (syncExit_served (_cmdExitReply (_pendingRequestID w1) w1) cfg
                (ptr_of_bool true)) as (b & w2 & cfg2 & ev2 & Hsync & Hb & Hst & Hpend).
    { done. }
    { change (rh_requests (serveRequest (_pendingRequestID w1) (ptr_of_bool true)
                                         (_requestHandler w1))
              !! _pendingRequestID w1 = Some (Some (ptr_of_bool true))).
      by apply serveRequest_pending. }
    exists b, w2, cfg2, ev2. split; [done|]. split; [|split; [done|split; [done|]]].
    + rewrite Hb, bool_of_ptr_of_bool.
      change (_channels (_cmdExitReply (_pendingRequestID w1) w1)) with (_channels w1).
      intuition congruence.
    + by apply (sync_without_pending_request w2 cfg2).
Qed.

Lemma startInit_channels_spec (initID : N) (cs : list Channel) : forall cfg,
  startInit_channels initID cs cfg =
    (imap (fun i c => if Channel_isUsed c
                      then Channel_startInit initID (registered cfg cs i c) else c) cs,
     registered_config cfg (List.filter Channel_isUsed cs),
     concat (imap (fun i c => if Channel_isUsed c
                              then channel_init_events initID
                                     (Channel_getID (registered cfg cs i c))
                              else []) cs)).
Proof.
  induction cs as [|c rest IH]; intros cfg; [done|].
  cbn [startInit_channels imap List.filter].
  destruct (Channel_isUsed c) eqn:Hused.
  - unfold registered at 1 3. cbn [take List.filter registered_config foldl].
    destruct (Config_registerObject c cfg) as [c1 cfg1] eqn:Hreg.
    rewrite (IH cfg1). cbn [fst snd concat].
    assert (forall i c', registered cfg (c :: rest) (S i) c' = registered cfg1 rest i c')
      as Hshift.
    { intros i c'. unfold registered. cbn [take List.filter]. rewrite Hused.
      cbn [registered_config foldl]. by rewrite Hreg. }
    f_equal; [f_equal|]; try done.
    + f_equal. apply imap_ext. intros i c' _. simpl. by rewrite Hshift.
    + unfold channel_init_events. simpl. do 3 f_equal.
      f_equal. apply imap_ext. intros i c' _. simpl. by rewrite Hshift.
  - rewrite (IH cfg). cbn [concat].
    assert (forall i c', registered cfg (c :: rest) (S i) c' = registered cfg rest i c')
      as Hshift.
    { intros i c'. unfold registered. cbn [take List.filter]. by rewrite Hused. }
    f_equal; [f_equal|].
    + f_equal. apply imap_ext. intros i c' _. simpl. by rewrite Hshift.
    + simpl. f_equal. apply imap_ext. intros i c' _. simpl. by rewrite Hshift.
Qed.

(** X6.  What [startInit] does, in order.  The window's init packet, sent
    with the window's name and carrying the request just registered, the
    init identifier and the two viewports, comes first.  Then, for every
    used channel in the order of the channel list and for no other
    channel: the channel is registered with the config, the
    create-channel packet with the identifier the registered channel has
    is sent, and the channel's [startInit] is called; the channel list
    then holds, at the same index, the registered channel after its
    [startInit].  Each channel is registered with the config that the
    registrations of the used channels before it have left, and the
    config returned is the one left by the last registration.  A channel
    that is not used stays as it is. *)
Theorem startInit_trace (w : Window) (initID : N) (cfg : Config) :
  _pendingRequestID w = EQ_INVALID_ID ->
  exists w1,
    startInit initID w cfg =
      Some (w1, registered_config cfg (List.filter Channel_isUsed (_channels w)),
            EvSendString (WindowInitPacket (rh_nextID (_requestHandler w)) initID
                                           (_pvp w) (_vp w)) (_name w)
              :: concat (imap (fun i channel =>
                                 if Channel_isUsed channel
                                 then channel_init_events initID
                                        (Channel_getID (registered cfg (_channels w) i channel))
                                 else []) (_channels w))) /\
    _pendingRequestID w1 = rh_nextID (_requestHandler w) /\
    length (_channels w1) = length (_channels w) /\
    (forall i channel, _channels w !! i = Some channel ->
       _channels w1 !! i
       = Some (if Channel_isUsed channel
               then Channel_startInit initID (registered cfg (_channels w) i channel)
               else channel)).
Proof.
  intros Hnone. unfold startInit. rewrite (sendInit_spec _ _ Hnone). simpl.
  rewrite startInit_channels_spec. eexists. split; [reflexivity|]. simpl.
  split; [done|]. split; [by rewrite length_imap|].
  intros i channel Hi. by rewrite list_lookup_imap, Hi.
Qed.

Lemma syncExit_channels_spec (cs : list Channel) : forall success cfg,
  exists b,
    syncExit_channels cs success cfg =
      (b,
       imap (fun i c => if is_stopping c then deregistered cfg cs i c else c) cs,
       deregistered_config cfg (List.filter is_stopping cs),
       List.filter is_stopping cs
         ≫= (fun c => channel_exit_events (Channel_getID (synced c)))).
Proof.
  induction cs as [|c rest IH]; intros success cfg; [by eexists|].
  cbn [syncExit_channels imap List.filter].
  destruct (is_stopping c) eqn:Hstop.
  - assert (Channel_getState c = STATE_STOPPING) as Hstate.
    { unfold is_stopping in Hstop. by apply bool_decide_eq_true in Hstop. }
    rewrite decide_False by (by intros ?).
    unfold deregistered at 1. cbn [take List.filter deregistered_config foldl].
    assert (forall i c', deregistered cfg (c :: rest) (S i) c'
                         = deregistered (Config_deregisterObject (synced c) cfg).2 rest i c')
      as Hshift.
    { intros i c'. unfold deregistered. cbn [take List.filter]. by rewrite Hstop. }
    unfold synced in Hshift |- *.
    destruct (Channel_syncExit c) as [ok c1] eqn:Hsync. cbn [fst snd] in *.
    destruct (Config_deregisterObject c1 cfg) as [c2 cfg1] eqn:Hdereg. cbn [fst snd] in *.
    destruct (IH (if negb ok then false else success) cfg1) as (b & ->). exists b.

    repeat (apply pair_equal_spec; split); [done| | |].
    + f_equal. apply imap_ext. intros i c' _. simpl. by rewrite Hshift.
    + done.
    + simpl. by rewrite Hsync.
  - assert (Channel_getState c <> STATE_STOPPING) as Hstate.
    { unfold is_stopping in Hstop. by apply bool_decide_eq_false in Hstop. }
    rewrite decide_True by done.
    destruct (IH success cfg) as (b & ->). exists b.
    assert (forall i c', deregistered cfg (c :: rest) (S i) c' = deregistered cfg rest i c')
      as Hshift.
    { intros i c'. unfold deregistered. cbn [take List.filter]. by rewrite Hstop. }
    repeat (apply pair_equal_spec; split); [done| |done|done].
    f_equal. apply imap_ext. intros i c' _. simpl. by rewrite Hshift.
Qed.

(** X7.  [syncExit] tears down every stopping channel, whether or not a
    channel fails.  When the pending request has been served, [syncExit]
    returns, and what it does after the wait is, for every channel in
    [Channel::STATE_STOPPING] in the order of the channel list and for no
    other channel: the destroy-channel packet with the identifier the
    channel has after its own [syncExit] is sent, and that channel is
    deregistered from the config; the channel list then holds, at the
    same index, the deregistered channel.  Each channel is deregistered
    from the config that the deregistrations before it have left, and the
    config returned is the one left by the last of them.  This is so
    whatever the channels' own [syncExit] returned and whatever value the
    request was served with.  A channel in another state gets no packet
    and stays as it is. *)
Theorem syncExit_destroys_stopping_channels (w : Window) (cfg : Config) (v : Z) :
  _pendingRequestID w <> EQ_INVALID_ID ->
  rh_requests (_requestHandler w) !! _pendingRequestID w = Some (Some v) ->
  exists b w',
    syncExit w cfg =
      Some (b, w', deregistered_config cfg (List.filter is_stopping (_channels w)),
            List.filter is_stopping (_channels w)
              ≫= (fun channel => channel_exit_events (Channel_getID (synced channel)))) /\
    length (_channels w') = length (_channels w) /\
    (forall i channel, _channels w !! i = Some channel ->
       _channels w' !! i
       = Some (if is_stopping channel then deregistered cfg (_channels w) i channel
               else channel)).
Proof.
  intros Hpending Hserved. unfold syncExit. rewrite decide_False by done.
  rewrite (waitRequest_served _ _ _ Hserved). simpl.
  destruct (syncExit_channels_spec (_channels w) (bool_of_ptr v) cfg) as (b & ->).
  eexists _, _. split; [reflexivity|]. simpl.
  split; [by rewrite length_imap|].
  intros i channel Hi. by rewrite list_lookup_imap, Hi.
Qed.

Lemma addChannel_foldl (f : Channel -> Channel) (cs : list Channel) : forall w : Window,
  foldl (fun w channel => addChannel (f channel) w) w cs =
    set_channels (_channels w ++ (f <$> cs)) w.
Proof.
  induction cs as [|c rest IH]; intros w; simpl.
  - rewrite app_nil_r. by destruct w.
  - rewrite IH. unfold addChannel, set_channels. simpl. by rewrite <- app_assoc.
Qed.

(** X8.  The copy of a window is a detached window.  The copy constructor
    copies the name and the two viewports and clones the channels one by
    one, in order.  Whatever the original: the copy is [STATE_STOPPED],
    is not used, has no pipe, no pending request and no swap barrier,
    master or not.  Hence on the copy [update] dereferences the NULL
    pipe, [_updateSwap] sends the swap packet only, and [syncInit] and
    [syncExit] fail their assertion. *)
Theorem Window_copy_is_detached (from : Window) :
  _name (Window_copy Channel_copy from) = _name from /\
  _pvp (Window_copy Channel_copy from) = _pvp from /\
  _vp (Window_copy Channel_copy from) = _vp from /\
  _channels (Window_copy Channel_copy from) = Channel_copy <$> _channels from /\
  _state (Window_copy Channel_copy from) = STATE_STOPPED /\
  _used (Window_copy Channel_copy from) = 0%N /\
  _pipe (Window_copy Channel_copy from) = None /\
  _pendingRequestID (Window_copy Channel_copy from) = EQ_INVALID_ID /\
  _masterSwapBarriers (Window_copy Channel_copy from) = [] /\
  _swapBarriers (Window_copy Channel_copy from) = [] /\
  (forall frameID bs, update frameID (Window_copy Channel_copy from) bs = None) /\
  (forall bs, _updateSwap (Window_copy Channel_copy from) bs
              = Some (bs, [EvSend WindowSwapPacket])) /\
  (forall cfg, syncInit (Window_copy Channel_copy from) = None /\
               syncExit (Window_copy Channel_copy from) cfg = None).
Proof.
  unfold Window_copy. rewrite addChannel_foldl. simpl.
  repeat split; try done.
  unfold syncInit. simpl. by destruct (syncInit_channels _ _).
Qed.

(** X9.  [resetSwapBarriers] releases the barriers the window created and
    forgets all barriers.  Afterwards both barrier lists of the window
    are empty, so that [_updateSwap] commits nothing, sends the swap
    packet only and reads no barrier, whatever the store of barriers
    holds.  If releasing a barrier touches that barrier only, every
    barrier that is not a master barrier of the window, in particular one
    that the window had only joined, is left as it was. *)
Theorem resetSwapBarriers_releases_masters (w : Window) (bs : gmap Ptr Net.Barrier) :
  (forall barrier bs' p, p <> barrier ->
     Node_releaseBarrier barrier bs' !! p = bs' !! p) ->
  _masterSwapBarriers (resetSwapBarriers Node_releaseBarrier w bs).1 = [] /\
  _swapBarriers (resetSwapBarriers Node_releaseBarrier w bs).1 = [] /\
  (forall p, p ∉ _masterSwapBarriers w ->
     (resetSwapBarriers Node_releaseBarrier w bs).2 !! p = bs !! p) /\
  (forall bs', _updateSwap (resetSwapBarriers Node_releaseBarrier w bs).1 bs'
               = Some (bs', [EvSend WindowSwapPacket])).
Proof.
  intros Hframe. unfold resetSwapBarriers. simpl. repeat split; try done.
  intros p. revert bs. induction (_masterSwapBarriers w) as [|b masters IH]; intros bs Hp;
    simpl; [done|].
  apply not_elem_of_cons in Hp as [Hpb Hp]. rewrite IH by done. by apply Hframe.
Qed.

End WindowLife.

Section LifeRuns.
Import Server.Sample.

(** The idle window is started, the render side reports success, but the
    second channel fails: [syncInit] returns [false] and the window stays
    in its initialising state. *)
Example init_round_trip_sample :
  ('(w1, _, _) ← startInit 7 idle 20%N;
   '(b, w2) ← syncInit (_cmdInitReply reply w1);
   Some (_pendingRequestID w1, b, _state w2))
  = Some (4%N, false, STATE_INITIALISING).
Proof. vm_compute. reflexivity. Qed.

(** The first channel fails its exit; the second channel is torn down
    all the same.  Both are stopped and have lost their identifier; the
    third channel is as it was. *)
Example syncExit_sample :
  (fun r => (r.1.1.1, _channels r.1.1.2, r.2)) <$> syncExit leaving 20%N =
  Some (false,
        [ mkChannel true EQ_INVALID_ID STATE_STOPPED true false;
          mkChannel true EQ_INVALID_ID STATE_STOPPED true true;
          mkChannel false 13 STATE_STOPPED true true ],
        [ EvSend (WindowDestroyChannelPacket 11); EvDeregisterObject 11;
          EvSend (WindowDestroyChannelPacket 12); EvDeregisterObject 12 ]).
Proof. vm_compute. reflexivity. Qed.

(** The two used channels are registered in list order and get the
    identifiers 20 and 21; the unused channel keeps 13. *)
Example startInit_sample :
  (fun r => (r.1.2, _channels r.1.1, r.2)) <$> startInit 7 idle 20%N =
  Some (22%N,
        [ mkChannel true 20 STATE_INITIALISING true true;
          mkChannel true 21 STATE_INITIALISING false true;
          mkChannel false 13 STATE_STOPPED true true ],
        [ EvSendString (WindowInitPacket 4 7 (mkPixelViewport 0 0 640 512)
                                         (mkViewport 0 0 (1 # 2) (1 # 2))) "w";
          EvRegisterObject 20; EvSend (WindowCreateChannelPacket 20);
          EvChannelStartInit 20 7;
          EvRegisterObject 21; EvSend (WindowCreateChannelPacket 21);
          EvChannelStartInit 21 7 ]).
Proof. vm_compute. reflexivity. Qed.

End LifeRuns.

(** X4, witness: the idle window and the reply to its request. *)
Lemma Window_init_round_trip_witness :
  exists w1 cfg1 ev,
    startInit 7 Sample.idle 20%N = Some (w1, cfg1, ev) /\
    _state w1 = STATE_INITIALISING /\
    _pendingRequestID w1 = rh_nextID (_requestHandler Sample.idle) /\
    (forall initID' cfg', startInit initID' w1 cfg' = None) /\
    startExit w1 = None /\
    syncInit w1 = None /\
    (reply_requestID Sample.reply = _pendingRequestID w1 ->
     exists b w2,
       syncInit (_cmdInitReply Sample.reply w1) = Some (b, w2) /\
       (b = true <-> channels_init_ok (_channels w1) /\ reply_result Sample.reply = true) /\
       _state w2 = (if b then STATE_RUNNING else STATE_INITIALISING) /\
       _pendingRequestID w2 = EQ_INVALID_ID /\
       syncInit w2 = None).
Proof.
  apply (Window_init_round_trip Sample.idle 7 20%N Sample.reply).
  - reflexivity.
  - vm_compute. discriminate.
Defined.

(** X5, witness: the idle window leaves. *)
Lemma Window_exit_round_trip_witness :
  exists w1 ev,
    startExit Sample.idle = Some (w1, ev) /\
    _state w1 = STATE_STOPPING /\
    _pendingRequestID w1 = rh_nextID (_requestHandler Sample.idle) /\
    length (_channels w1) = length (_channels Sample.idle) /\
    (forall i channel, _channels Sample.idle !! i = Some channel ->
       _channels w1 !! i
       = Some (if decide (Channel_getState channel = STATE_STOPPED) then channel
               else Channel_startExit channel)) /\
    ev = [EvSend (WindowExitPacket (rh_nextID (_requestHandler Sample.idle)))] /\
    startExit w1 = None /\
    syncExit w1 20%N = None /\
    exists b w2 cfg2 ev2,
      syncExit (_cmdExitReply (_pendingRequestID w1) w1) 20%N = Some (b, w2, cfg2, ev2) /\
      (b = false <-> channel_exit_failed (_channels w1)) /\
      _state w2 = STATE_STOPPED /\
      _pendingRequestID w2 = EQ_INVALID_ID /\
      syncExit w2 cfg2 = None.
Proof.
  apply (Window_exit_round_trip Sample.idle 20%N).
  - reflexivity.
  - vm_compute. discriminate.
Defined.

(** X6, witness: the idle window. *)
Lemma startInit_trace_witness :
  exists w1,
    startInit 7 Sample.idle 20%N =
      Some (w1, @registered_config Sample.collaborators 20%N
                  (List.filter Channel_isUsed (_channels Sample.idle)),
            EvSendString (WindowInitPacket (rh_nextID (_requestHandler Sample.idle)) 7
                                           (_pvp Sample.idle) (_vp Sample.idle))
                         (_name Sample.idle)
              :: concat (imap (fun i channel =>
                                 if Channel_isUsed channel
                                 then channel_init_events 7
                                        (Channel_getID
                                           (@registered Sample.collaborators 20%N
                                              (_channels Sample.idle) i channel))
                                 else []) (_channels Sample.idle))) /\
    _pendingRequestID w1 = rh_nextID (_requestHandler Sample.idle) /\
    length (_channels w1) = length (_channels Sample.idle) /\
    (forall i channel, _channels Sample.idle !! i = Some channel ->
       _channels w1 !! i
       = Some (if Channel_isUsed channel
               then Channel_startInit 7 (@registered Sample.collaborators 20%N
                                           (_channels Sample.idle) i channel)
               else channel)).
Proof. apply (startInit_trace Sample.idle 7 20%N). reflexivity. Defined.

(** X7, witness: the leaving window. *)
Lemma syncExit_destroys_stopping_channels_witness :
  exists b w',
    syncExit Sample.leaving 20%N =
      Some (b, w',
            @deregistered_config Sample.collaborators 20%N
              (List.filter is_stopping (_channels Sample.leaving)),
            List.filter is_stopping (_channels Sample.leaving)
              ≫= (fun channel => channel_exit_events (Channel_getID (synced channel)))) /\
    length (_channels w') = length (_channels Sample.leaving) /\
    (forall i channel, _channels Sample.leaving !! i = Some channel ->
       _channels w' !! i
       = Some (if is_stopping channel
               then @deregistered Sample.collaborators 20%N (_channels Sample.leaving) i channel
               else channel)).
Proof.
  apply (syncExit_destroys_stopping_channels Sample.leaving 20%N 1%Z).
  - vm_compute. discriminate.
  - vm_compute. reflexivity.
Defined.

(** X9, witness: the sample window, with a release that frees the
    barrier. *)
Lemma resetSwapBarriers_releases_masters_witness :
  _masterSwapBarriers (resetSwapBarriers delete Sample.window Sample.barriers).1 = [] /\
  _swapBarriers (resetSwapBarriers delete Sample.window Sample.barriers).1 = [] /\
  (forall p, p ∉ _masterSwapBarriers Sample.window ->
     (resetSwapBarriers delete Sample.window Sample.barriers).2 !! p
       = Sample.barriers !! p) /\
  (forall bs', _updateSwap (resetSwapBarriers delete Sample.window Sample.barriers).1 bs'
               = Some (bs', [EvSend WindowSwapPacket])).
Proof.
  apply (resetSwapBarriers_releases_masters delete Sample.window Sample.barriers).
  intros barrier bs' p Hp. by apply lookup_delete_ne.
Defined.

End ServerProps.

(* ===================================================================== *)
(** * Properties of the eqPly channel *)
(* ===================================================================== *)
Module EqPlyProps.
Import EqPly.

(** C7, as the code has it.  In a build without [NDEBUG] the sentence
    about tainting holds for every environment and channel.  In a build
    with [NDEBUG] the environment is not consulted: a channel that is not
    the destination of the current view is cleared black, and the
    destination channel of the current view is cleared grey. *)
Theorem frameClear_colour (getenv : string -> option string) (ch : Channel) (frameID : N) :
  taint_sentence false getenv ch frameID /\
  (isCurrentViewDestination ch = false ->
     clearColors (frameClear true getenv ch frameID) = [black]) /\
  (isCurrentViewDestination ch = true ->
     clearColors (frameClear true getenv ch frameID) = [grey]).
Proof.
  unfold taint_sentence, frameClear, clearColors. simpl.
  repeat split.
  - intros Hset ->. by rewrite bool_decide_true.
  - intros Hunset ->. rewrite bool_decide_false; [done|].
    rewrite Hunset. by intros [? ?].
  - by intros ->.
  - by intros ->.
  - by intros ->.
Qed.

(** C7, counterexample.  In a build with [NDEBUG] the sentence about
    tainting fails: with [EQ_TAINT_CHANNELS] set, the red channel, which
    is not the destination of any view, is cleared black, and black is
    not its unique colour (the red components differ). *)
Lemma frameClear_taint_ignored_with_NDEBUG :
  ~ taint_sentence true taint_env red_channel 1 /\
  clearColors (frameClear true taint_env red_channel 1) = [black] /\
  ~ (red black == red (taint (getUniqueColor red_channel)))%Q.
Proof.
  split; [|split].
  - intros [Htaint _].
    specialize (Htaint (ltac:(by eexists)) eq_refl). discriminate Htaint.
  - reflexivity.
  - intros Heq. vm_compute in Heq. discriminate Heq.
Qed.

Section DrawModel.
Context {Sphere : Type} `{FrustumCuller Sphere}.

Local Abbreviation tree := (@VertexBufferBase Sphere).

Lemma pendingNodes_cons (t : tree) (candidates : list tree) :
  pendingNodes (t :: candidates) = numberOfNodes t + pendingNodes candidates.
Proof. reflexivity. Qed.

Lemma push_back_pending (t : tree) (candidates : list tree) :
  pendingNodes (push_back t candidates) = numberOfNodes t + pendingNodes candidates.
Proof. by destruct t. Qed.

Lemma push_back_nonNull (t : tree) (candidates : list tree) :
  Forall nonNull candidates -> Forall nonNull (push_back t candidates).
Proof. destruct t; [done|]. by constructor. Qed.

Lemma push_back_rangesInUnit (t : tree) (candidates : list tree) :
  rangesInUnit t -> Forall rangesInUnit candidates ->
  Forall rangesInUnit (push_back t candidates).
Proof. destruct t; [done|]. by constructor. Qed.

(** A pass on a non-NULL node succeeds, pushes only non-NULL nodes and
    leaves fewer nodes pending. *)
Lemma visitNode_progress range (t : tree) (candidates : list tree) :
  nonNull t -> Forall nonNull candidates ->
  exists d next,
    visitNode range t candidates = Some (d, next) /\
    Forall nonNull next /\
    pendingNodes next < numberOfNodes t + pendingNodes candidates.
Proof.
  intros Ht Hc. destruct t as [|range0 range1 sphere left_ right_]; [done|].
  assert (Forall nonNull (push_back right_ (push_back left_ candidates))) as Hpush
    by by do 2 apply push_back_nonNull.
  assert (pendingNodes (push_back right_ (push_back left_ candidates))
          < numberOfNodes (Node range0 range1 sphere left_ right_)
            + pendingNodes candidates) as Hless
    by (rewrite !push_back_pending; simpl; lia).
  unfold visitNode, partialCase.
  destruct (outOfRange range range0 range1);
    [eexists _, _; split; [reflexivity|]; split; [done | simpl; lia]|].
  destruct (testSphere sphere), (fullyInRange range range0 range1),
           (Qge_bool range0 (start range)), left_, right_;
    eexists _, _; (split; [reflexivity|]); (split; [done|]); first [exact Hless | simpl; lia].
Qed.

(** The loop terminates: with as many passes as there are pending nodes
    it returns a trace. *)
Lemma drawLoop_total range fuel : forall candidates : list tree,
  Forall nonNull candidates -> pendingNodes candidates <= fuel ->
  is_Some (drawLoop fuel range candidates).
Proof.
  induction fuel as [|fuel IH]; intros [|t candidates] Hc Hfuel; simpl; try by eexists.
  - apply Forall_cons in Hc as [Ht _]. destruct t; [done|].
    rewrite pendingNodes_cons in Hfuel. simpl in Hfuel. lia.
  - apply Forall_cons in Hc as [Ht Hc].
    destruct (visitNode_progress range t candidates Ht Hc) as (d & next & Hv & Hn & Hlt).
    rewrite Hv. simpl.
    destruct (IH next Hn) as [tr Htr].
    { rewrite pendingNodes_cons in Hfuel. lia. }
    rewrite Htr. by eexists.
Qed.

Lemma decisions_visit (tr : list (@Decision Sphere)) : decisions (map visit tr) = tr.
Proof. induction tr as [|d tr IH]; simpl; [done | by f_equal]. Qed.

Lemma drawModel_decisions range colors program (model : tree) :
  nonNull model ->
  exists tr,
    drawLoop (numberOfNodes model) range [model] = Some tr /\
    exists calls, _drawModel range colors program model = Some calls /\
                  decisions calls = tr.
Proof.
  intros Hm. unfold _drawModel.
  destruct (drawLoop_total range (numberOfNodes model) [model]) as [tr Htr].
  { by constructor. }
  { rewrite pendingNodes_cons. unfold pendingNodes. simpl. lia. }
  rewrite Htr. simpl. exists tr. split; [done|]. eexists. split; [reflexivity|].
  unfold decisions. destruct program; simpl; rewrite omap_app; simpl;
    fold (decisions (map visit tr)); rewrite decisions_visit; by rewrite app_nil_r.
Qed.

Lemma outOfRange_ALL range0 range1 :
  (range0 < 1)%Q -> (0 <= range1)%Q -> outOfRange Range_ALL range0 range1 = false.
Proof.
  intros H0 H1. unfold outOfRange, Qge_bool, Qlt_bool. simpl.
  apply orb_false_iff. split.
  - destruct (Qle_bool 1 range0) eqn:Hle; [|done].
    apply Qle_bool_iff in Hle. by apply Qlt_not_le in H0.
  - apply negb_false_iff. by apply Qle_bool_iff.
Qed.

Lemma visitNode_ALL (t : tree) (candidates : list tree) :
  rangesInUnit t ->
  visitNode Range_ALL t candidates = visitNode_frustum t candidates.
Proof.
  destruct t as [|range0 range1 sphere left_ right_]; [done|].
  intros (H0 & H1 & H2 & _). unfold visitNode, visitNode_frustum, partialCase.
  rewrite outOfRange_ALL by done.
  assert (Qge_bool range0 (start Range_ALL) = true) as ->
    by by apply Qle_bool_iff.
  destruct (testSphere sphere), left_, right_; reflexivity.
Qed.

Lemma visitNode_frustum_rangesInUnit (t : tree) (candidates : list tree) d next :
  rangesInUnit t -> Forall rangesInUnit candidates ->
  visitNode_frustum t candidates = Some (d, next) ->
  Forall rangesInUnit next /\ is_excluded d = false /\ is_dropped d = false.
Proof.
  destruct t as [|range0 range1 sphere left_ right_]; [done|].
  intros (_ & _ & _ & Hl & Hr) Hc. unfold visitNode_frustum.
  assert (Forall rangesInUnit (push_back right_ (push_back left_ candidates))) as Hpush
    by (apply push_back_rangesInUnit; [done|]; by apply push_back_rangesInUnit).
  destruct (testSphere sphere), left_, right_; intros [= <- <-]; done.
Qed.

Lemma drawLoop_ALL fuel : forall candidates : list tree,
  Forall rangesInUnit candidates ->
  drawLoop fuel Range_ALL candidates = drawLoop_frustum fuel candidates /\
  forall tr, drawLoop fuel Range_ALL candidates = Some tr ->
             Forall (fun d => is_excluded d = false /\ is_dropped d = false) tr.
Proof.
  induction fuel as [|fuel IH]; intros [|t candidates] Hc; simpl;
    try (split; [done | by intros tr [= <-]]).
  apply Forall_cons in Hc as [Ht Hc]. rewrite visitNode_ALL by done.
  destruct (visitNode_frustum t candidates) as [[d next]|] eqn:Hv; simpl; [|done].
  destruct (visitNode_frustum_rangesInUnit _ _ _ _ Ht Hc Hv) as (Hn & He & Hd).
  destruct (IH next Hn) as [Heq Hall]. rewrite <- Heq.
  split; [done|]. intros tr.
  destruct (drawLoop fuel Range_ALL next) as [tr'|]; simpl; [|done].
  intros [= <-]. constructor; [done | by apply Hall].
Qed.

Lemma Range_eqb_empty a : Range_eqb (mkRange a a) Range_ALL = false.
Proof.
  unfold Range_eqb. simpl.
  destruct (Qeq_bool a 0) eqn:H0, (Qeq_bool a 1) eqn:H1; try done.
  apply Qeq_bool_iff in H0, H1. rewrite H0 in H1. discriminate H1.
Qed.

Lemma visitNode_empty a (t : tree) (candidates : list tree) d next :
  visitNode (mkRange a a) t candidates = Some (d, next) -> is_rendered d = false.
Proof.
  destruct t as [|range0 range1 sphere left_ right_]; [done|].
  unfold visitNode, partialCase, outOfRange, fullyInRange. simpl.
  rewrite Range_eqb_empty. simpl.
  destruct (Qge_bool range0 a); simpl; [by intros [= <- <-]|].
  destruct (Qlt_bool range1 a); simpl; [by intros [= <- <-]|].
  destruct (testSphere sphere), left_, right_; by intros [= <- <-].
Qed.

Lemma drawLoop_empty a fuel : forall (candidates : list tree) tr,
  drawLoop fuel (mkRange a a) candidates = Some tr ->
  Forall (fun d => is_rendered d = false) tr.
Proof.
  induction fuel as [|fuel IH]; intros [|t candidates] tr; simpl;
    try by intros [= <-].
  destruct (visitNode (mkRange a a) t candidates) as [[d next]|] eqn:Hv; simpl; [|done].
  destruct (drawLoop fuel (mkRange a a) next) as [tr'|] eqn:Hl; simpl; [|done].
  intros [= <-]. constructor; [by eapply visitNode_empty | by eapply IH].
Qed.

(** The nodes that the out-of-range check excludes under the whole range
    are those whose range starts at 1 or later, or ends below 0. *)
Lemma visitNode_ALL_excluded (t x : tree) (candidates next : list tree) :
  visitNode Range_ALL t candidates = Some (Excluded x, next) ->
  exists range0 range1 sphere left_ right_,
    x = Node range0 range1 sphere left_ right_ /\
    ((1 <= range0)%Q \/ (range1 < 0)%Q).
Proof.
  destruct t as [|range0 range1 sphere left_ right_]; [done|].
  unfold visitNode, partialCase.
  destruct (outOfRange Range_ALL range0 range1) eqn:Hout.
  - intros [= <- <-]. exists range0, range1, sphere, left_, right_. split; [done|].
    unfold outOfRange, Qge_bool, Qlt_bool in Hout. simpl in Hout.
    apply orb_true_iff in Hout as [Hle | Hlt].
    + left. by apply Qle_bool_iff.
    + right. apply negb_true_iff in Hlt. apply Qnot_le_lt. intros Hle.
      apply Qle_bool_iff in Hle. congruence.
  - destruct (testSphere sphere), (fullyInRange Range_ALL range0 range1),
             (Qge_bool range0 (start Range_ALL)), left_, right_; intros [= ? ?]; done.
Qed.

Lemma drawLoop_ALL_excluded fuel : forall (candidates : list tree) tr,
  drawLoop fuel Range_ALL candidates = Some tr ->
  forall range0 range1 sphere left_ right_,
    Excluded (Node range0 range1 sphere left_ right_) ∈ tr ->
    (1 <= range0)%Q \/ (range1 < 0)%Q.
Proof.
  induction fuel as [|fuel IH]; intros [|t candidates] tr; simpl;
    try (intros [= <-] ? ? ? ? ? Hin; by apply elem_of_nil in Hin); try done.
  destruct (visitNode Range_ALL t candidates) as [[d next]|] eqn:Hv; simpl; [|done].
  destruct (drawLoop fuel Range_ALL next) as [tr'|] eqn:Hl; simpl; [|done].
  intros [= <-] range0 range1 sphere left_ right_ [<- | Hin]%elem_of_cons.
  - destruct (visitNode_ALL_excluded _ _ _ _ Hv) as (? & ? & ? & ? & ? & [= -> -> -> -> ->] & Hr).
    exact Hr.
  - by eapply IH.
Qed.

(** C6, as the code has it.  For every model (a non-NULL tree) and every
    frustum culler [_drawModel] returns, and:
    - when the channel's range is [0,1), the only nodes excluded by the
      out-of-range check are nodes whose own range starts at 1 or later
      or ends below 0; and when every node of the model has a range that
      starts in [0,1) and does not end below 0, no node is excluded and
      no leaf is dropped by the test on its range start: the nodes are
      treated exactly as by frustum culling alone;
    - when the channel's range is empty, [a,a) for any [a], no node is
      rendered, whatever the ranges of the nodes. *)
Theorem drawModel_range_boundaries
    (model : tree) (colors : bool) (program : option N) :
  nonNull model ->
  (exists calls,
     _drawModel Range_ALL colors program model = Some calls /\
     (forall range0 range1 sphere left_ right_,
        Excluded (Node range0 range1 sphere left_ right_) ∈ decisions calls ->
        (1 <= range0)%Q \/ (range1 < 0)%Q) /\
     (rangesInUnit model ->
        Forall (fun d => is_excluded d = false /\ is_dropped d = false) (decisions calls) /\
        drawLoop_frustum (numberOfNodes model) [model] = Some (decisions calls))) /\
  (forall a,
     exists calls,
       _drawModel (mkRange a a) colors program model = Some calls /\
       Forall (fun d => is_rendered d = false) (decisions calls)).
Proof.
  intros Hm. split.
  - destruct (drawModel_decisions Range_ALL colors program model Hm)
      as (tr & Htr & calls & Hcalls & Hdec).
    exists calls. split; [done|]. rewrite Hdec. split.
    + by eapply drawLoop_ALL_excluded.
    + intros Hunit.
      destruct (drawLoop_ALL (numberOfNodes model) [model]) as [Heq Hall];
        [by constructor|].
      split; [by apply Hall | by rewrite <- Heq].
  - intros a.
    destruct (drawModel_decisions (mkRange a a) colors program model Hm)
      as (tr & Htr & calls & Hcalls & Hdec).
    exists calls. split; [done|]. rewrite Hdec. by eapply drawLoop_empty.
Qed.

End DrawModel.

(** C6, counterexample.  With the channel's range [0,1) a model node
    whose range starts at 1 is excluded by the out-of-range check
    ([getRange()[0] >= range.end]), although the frustum contains it. *)
Lemma drawModel_ALL_excludes_node_at_one :
  exists calls,
    _drawModel Range_ALL false None endLeaf = Some calls /\
    decisions calls = [Excluded endLeaf] /\
    drawLoop_frustum (numberOfNodes endLeaf) [endLeaf] = Some [Rendered endLeaf].
Proof. eexists. split; [reflexivity|]. split; reflexivity. Qed.

(** With the whole range both leaves are rendered, the right one first (it
    was pushed last). *)
Example drawModel_whole_range :
  _drawModel Range_ALL true (Some 3%N) sampleModel =
  Some [ setColors true; initFrustum; glUseProgram 3; beginRendering;
         visit (Descended sampleModel); visit (Rendered rightLeaf);
         visit (Rendered leftLeaf);
         endRendering; glUseProgram 0 ].
Proof. reflexivity. Qed.

(** With the first half as range the right leaf is out of range and the
    left leaf is rendered. *)
Example drawModel_first_half :
  decisions <$> _drawModel (mkRange 0 (1 # 2)) true None sampleModel =
  Some [ Descended sampleModel; Excluded rightLeaf; Rendered leftLeaf ].
Proof. reflexivity. Qed.

(** With the empty range at one half nothing is rendered. *)
Example drawModel_empty_range :
  decisions <$> _drawModel (mkRange (1 # 2) (1 # 2)) true None sampleModel =
  Some [ Descended sampleModel; Excluded rightLeaf; Dropped leftLeaf ].
Proof. reflexivity. Qed.

(** C6, witness: the sample model. *)
Lemma drawModel_range_boundaries_witness :
  (exists calls,
     _drawModel Range_ALL true (Some 3%N) sampleModel = Some calls /\
     (forall range0 range1 sphere left_ right_,
        Excluded (Node range0 range1 sphere left_ right_) ∈ decisions calls ->
        (1 <= range0)%Q \/ (range1 < 0)%Q) /\
     (rangesInUnit sampleModel ->
        Forall (fun d => is_excluded d = false /\ is_dropped d = false) (decisions calls) /\
        drawLoop_frustum (numberOfNodes sampleModel) [sampleModel]
          = Some (decisions calls))) /\
  (forall a,
     exists calls,
       _drawModel (mkRange a a) true (Some 3%N) sampleModel = Some calls /\
       Forall (fun d => is_rendered d = false) (decisions calls)).
Proof.
  apply (drawModel_range_boundaries sampleModel true (Some 3%N)).
  discriminate.
Defined.


Section Coverage.
Context {Sphere : Type} `{FrustumCuller Sphere}.

Local Abbreviation tree := (@VertexBufferBase Sphere).

Lemma inTree_refl (t : tree) : nonNull t -> inTree t t.
Proof. destruct t; [done|]. intros _. by left. Qed.

Lemma inTree_nonNull (x t : tree) : inTree x t -> nonNull x.
Proof.
  induction t as [|range0 range1 sphere l IHl r IHr]; simpl; [done|].
  intros [-> | [Hx | Hx]]; [done | by apply IHl | by apply IHr].
Qed.

Lemma inTree_trans (x y z : tree) : inTree x y -> inTree y z -> inTree x z.
Proof.
  intros Hxy. induction z as [|range0 range1 sphere l IHl r IHr]; simpl; [done|].
  intros [-> | [Hl | Hr]]; [done | right; left; by apply IHl | right; right; by apply IHr].
Qed.

Lemma rangesNested_inTree (x t : tree) : rangesNested t -> inTree x t -> rangesNested x.
Proof.
  induction t as [|range0 range1 sphere l IHl r IHr]; simpl; [done|].
  intros (H01 & Hl & Hr & Hnl & Hnr) [-> | [Hx | Hx]]; [done | by apply IHl | by apply IHr].
Qed.

(** In a kd-tree the range of a node lies within the range of every node
    above it. *)
Lemma rangesNested_bounds (t : tree) : forall range0 range1 sphere left_ right_,
  rangesNested t -> inTree (Node range0 range1 sphere left_ right_) t ->
  match t with
  | Null => False
  | Node t0 t1 _ _ _ => (t0 <= range0)%Q /\ (range0 <= range1)%Q /\ (range1 <= t1)%Q
  end.
Proof.
  induction t as [|t0 t1 sphere' l IHl r IHr]; simpl; [done|].
  intros range0 range1 sphere left_ right_ (H01 & Hl & Hr & Hnl & Hnr) Hin.
  destruct Hin as [[= -> -> -> -> ->] | [Hin | Hin]].
  - repeat split; [apply Qle_refl | done | apply Qle_refl].
  - pose proof (IHl _ _ _ _ _ Hnl Hin) as Hb. destruct l as [|l0 l1 ? ? ?]; [done|].
    simpl in Hl. destruct Hl, Hb as (? & ? & ?). repeat split; [lra | done | lra].
  - pose proof (IHr _ _ _ _ _ Hnr Hin) as Hb. destruct r as [|r0 r1 ? ? ?]; [done|].
    simpl in Hr. destruct Hr, Hb as (? & ? & ?). repeat split; [lra | done | lra].
Qed.

Lemma visibleIn_inTree (x t : tree) : visibleIn x t -> inTree x t.
Proof.
  induction t as [|range0 range1 sphere l IHl r IHr]; simpl; [done|].
  intros [_ [-> | [Hx | Hx]]]; [by left | right; left; by apply IHl | right; right; by apply IHr].
Qed.

Lemma visibleIn_nonNull (x t : tree) : visibleIn x t -> nonNull t.
Proof. by destruct t. Qed.

Lemma Qge_bool_true x y : Qge_bool x y = true <-> (y <= x)%Q.
Proof. unfold Qge_bool. apply Qle_bool_iff. Qed.

Lemma Qge_bool_false x y : Qge_bool x y = false <-> (x < y)%Q.
Proof.
  unfold Qge_bool. rewrite <- not_true_iff_false, Qle_bool_iff. split.
  - apply Qnot_le_lt.
  - apply Qlt_not_le.
Qed.

Lemma Qlt_bool_true x y : Qlt_bool x y = true <-> (x < y)%Q.
Proof. unfold Qlt_bool. rewrite negb_true_iff. apply Qge_bool_false. Qed.

Lemma Qlt_bool_false x y : Qlt_bool x y = false <-> (y <= x)%Q.
Proof. unfold Qlt_bool. rewrite negb_false_iff. apply Qle_bool_iff. Qed.

Lemma push_back_elem (t x : tree) (candidates : list tree) :
  x ∈ push_back t candidates <-> (x = t /\ nonNull t) \/ x ∈ candidates.
Proof.
  destruct t; simpl.
  - split; [by right | by intros [[_ ?] | ?]].
  - rewrite elem_of_cons. split; (intros [? | ?]; [left | by right]); [done | tauto].
Qed.

(** What a pass that renders has tested, under a range other than the
    whole range. *)
Lemma visitNode_rendered range (t : tree) (candidates next : list tree) (x : tree) :
  Range_eqb range Range_ALL = false ->
  visitNode range t candidates = Some (Rendered x, next) ->
  x = t /\ startsIn range t /\
  (isLeaf t \/ match t with Null => False | Node _ range1 _ _ _ => (range1 < end_ range)%Q end).
Proof.
  intros Hall. destruct t as [|range0 range1 sphere l r]; [done|].
  unfold visitNode, partialCase, outOfRange, fullyInRange. rewrite Hall. simpl.
  destruct (Qge_bool range0 (end_ range)) eqn:He; simpl; [done|].
  apply Qge_bool_false in He.
  destruct (Qlt_bool range1 (start range)) eqn:Hs; simpl; [done|].
  destruct (Qge_bool range0 (start range)) eqn:H0; simpl.
  - apply Qge_bool_true in H0.
    destruct (Qlt_bool range1 (end_ range)) eqn:H1; simpl.
    + apply Qlt_bool_true in H1.
      destruct (testSphere sphere), l, r; intros [= <- <-]; auto.
    + destruct (testSphere sphere), l, r; intros [= <- <-]; auto.
  - destruct (testSphere sphere), l, r; intros [= <- <-]; auto.
Qed.

(** A pass keeps the waiting candidates and adds only children of the
    node it visits. *)
Lemma visitNode_next range (t : tree) (candidates next : list tree) d :
  visitNode range t candidates = Some (d, next) ->
  (forall c, c ∈ candidates -> c ∈ next) /\
  (forall c, c ∈ next -> c ∈ candidates \/ (inTree c t /\ nonNull c)).
Proof.
  destruct t as [|range0 range1 sphere l r]; [done|].
  assert (forall c, c ∈ push_back r (push_back l candidates) ->
                    c ∈ candidates \/ (inTree c (Node range0 range1 sphere l r) /\ nonNull c))
    as Hpush.
  { intros c. rewrite !push_back_elem. intros [[-> Hn] | [[-> Hn] | Hc]]; [| |by left].
    - right. split; [|done]. right. right. by apply inTree_refl.
    - right. split; [|done]. right. left. by apply inTree_refl. }
  assert (forall c, c ∈ candidates -> c ∈ push_back r (push_back l candidates)) as Hkeep.
  { intros c Hc. rewrite !push_back_elem. auto. }
  unfold visitNode, partialCase.
  destruct (outOfRange range range0 range1); [intros [= <- <-]; auto|].
  destruct (testSphere sphere), (fullyInRange range range0 range1),
           (Qge_bool range0 (start range)), l, r; intros [= <- <-]; auto.
Qed.

(** Under a range other than the whole range, every rendered node is a
    node of a candidate, starts inside the range and, unless it is a
    leaf, ends inside it. *)
Lemma drawLoop_rendered range fuel : forall (candidates : list tree) tr x,
  Range_eqb range Range_ALL = false ->
  drawLoop fuel range candidates = Some tr ->
  Rendered x ∈ tr ->
  (exists c, c ∈ candidates /\ inTree x c) /\ startsIn range x /\
  (isLeaf x \/ match x with Null => False | Node _ range1 _ _ _ => (range1 < end_ range)%Q end).
Proof.
  induction fuel as [|fuel IH]; intros [|t candidates] tr x Hall; simpl;
    try (intros [= <-] Hin; by apply elem_of_nil in Hin); try done.
  destruct (visitNode range t candidates) as [[d next]|] eqn:Hv; simpl; [|done].
  destruct (drawLoop fuel range next) as [tr'|] eqn:Hl; simpl; [|done].
  intros [= <-] [<- | Hin]%elem_of_cons.
  - destruct (visitNode_rendered _ _ _ _ _ Hall Hv) as (-> & Hs & He).
    split; [|done]. exists t. split; [by left|].
    apply inTree_refl. by destruct t.
  - destruct (IH next tr' x Hall Hl Hin) as ((c & Hc & Hxc) & Hs & He).
    split; [|done].
    destruct (visitNode_next _ _ _ _ _ Hv) as [_ Hnext].
    destruct (Hnext c Hc) as [Hold | [Hct _]].
    + exists c. split; [by right | done].
    + exists t. split; [by left | by eapply inTree_trans].
Qed.

Lemma drawModel_loop range colors program (model : tree) calls :
  _drawModel range colors program model = Some calls ->
  drawLoop (numberOfNodes model) range [model] = Some (decisions calls).
Proof.
  unfold _drawModel.
  destruct (drawLoop (numberOfNodes model) range [model]) as [tr|]; [|done].
  intros [= <-]. f_equal.
  unfold decisions. destruct program; simpl; rewrite omap_app; simpl;
    fold (decisions (map visit tr)); rewrite decisions_visit; by rewrite app_nil_r.
Qed.

(** Under a range other than the whole range, what is drawn of a kd-tree
    is part of the model and starts inside the range. *)
Lemma covered_startsIn range colors program (model : tree) calls x :
  rangesNested model ->
  Range_eqb range Range_ALL = false ->
  _drawModel range colors program model = Some calls ->
  covered calls x -> inTree x model /\ startsIn range x.
Proof.
  intros Hnested Hall Hdraw (rendered & Hin & Hx).
  apply drawModel_loop in Hdraw.
  destruct (drawLoop_rendered _ _ _ _ _ Hall Hdraw Hin) as ((c & Hc & Hrc) & Hs & He).
  apply list_elem_of_singleton in Hc as ->.
  split; [by eapply inTree_trans|].
  pose proof (rangesNested_inTree _ _ Hnested Hrc) as Hnr.
  destruct rendered as [|r0 r1 rs rl rr]; [done|].
  destruct x as [|x0 x1 xs xl xr]; [by apply inTree_nonNull in Hx|].
  pose proof (rangesNested_bounds _ _ _ _ _ _ Hnr Hx) as (Hb0 & Hb01 & Hb1).
  simpl in *. destruct Hs as [Hs0 Hs1]. destruct He as [Hleaf | He].
  - destruct rl, rr; try done. simpl in Hx.
    destruct Hx as [[= -> -> -> -> ->] | [[] | []]]. done.
  - split; lra.
Qed.

(** A visible leaf of a candidate whose range starts inside the channel's
    range is rendered, or lies below a rendered node. *)
Lemma drawLoop_covers range fuel : forall (candidates : list tree) tr c leaf,
  drawLoop fuel range candidates = Some tr ->
  c ∈ candidates -> rangesNested c ->
  isLeaf leaf -> visibleIn leaf c -> startsIn range leaf ->
  exists rendered, Rendered rendered ∈ tr /\ inTree leaf rendered.
Proof.
  induction fuel as [|fuel IH]; intros [|t candidates] tr c leaf; simpl;
    try (intros _ Hc; by apply elem_of_nil in Hc); try done.
  destruct (visitNode range t candidates) as [[d next]|] eqn:Hv; simpl; [|done].
  destruct (drawLoop fuel range next) as [tr'|] eqn:Hl; simpl; [|done].
  intros [= <-] Hc Hnested Hleaf Hvis Hstart.
  assert (forall c', c' ∈ next -> rangesNested c' -> visibleIn leaf c' ->
            exists rendered, Rendered rendered ∈ d :: tr' /\ inTree leaf rendered) as Hlater.
  { intros c' Hc' Hn' Hv'.
    destruct (IH next tr' c' leaf Hl Hc' Hn' Hleaf Hv' Hstart) as (rendered & Hr & Hin).
    exists rendered. split; [by right | done]. }
  destruct (visitNode_next _ _ _ _ _ Hv) as [Hkeep _].
  apply elem_of_cons in Hc as [-> | Hc]; [|by apply (Hlater c); auto].
  destruct t as [|range0 range1 sphere l r]; [done|].
  pose proof (visibleIn_inTree _ _ Hvis) as Hin.
  destruct leaf as [|leaf0 leaf1 leafSphere leafLeft leafRight]; [done|].
  pose proof (rangesNested_bounds _ _ _ _ _ _ Hnested Hin) as (Hb0 & Hb01 & Hb1).
  destruct Hstart as [Hs0 Hs1]. destruct Hvis as [Hsphere Hvis].
  destruct Hnested as (_ & _ & _ & Hnl & Hnr).
  assert (outOfRange range range0 range1 = false) as Hout.
  { unfold outOfRange. apply orb_false_iff. split.
    - apply Qge_bool_false. lra.
    - apply Qlt_bool_false. lra. }
  assert (partialCase range (Node range0 range1 sphere l r) range0 l r candidates
            = (d, next) ->
          exists rendered, Rendered rendered ∈ d :: tr' /\ inTree
            (Node leaf0 leaf1 leafSphere leafLeft leafRight) rendered) as Hpartial.
  { unfold partialCase. destruct Hvis as [Heq | Hbelow].
    - injection Heq as <- <- <- <- <-. simpl in Hleaf.
      destruct leafLeft, leafRight; try done.
      assert (Qge_bool leaf0 (start range) = true) as -> by by apply Qge_bool_true.
      intros [= <- <-]. eexists. split; [by left | by left].
    - assert (l <> Null \/ r <> Null) as Hchild.
      { destruct Hbelow as [Hb | Hb]; [left | right]; intros ->; done. }
      assert ((d, next) = (Descended (Node range0 range1 sphere l r),
                           push_back r (push_back l candidates)) ->
              exists rendered, Rendered rendered ∈ d :: tr' /\ inTree
                (Node leaf0 leaf1 leafSphere leafLeft leafRight) rendered) as Hdesc.
      { intros [= -> ->].
        destruct Hbelow as [Hbl | Hbr].
        - apply (Hlater l); [|done|done].
          rewrite !push_back_elem. right. left. split; [done|]. by destruct l.
        - apply (Hlater r); [|done|done].
          rewrite !push_back_elem. left. split; [done|]. by destruct r. }
      destruct l, r; [by destruct Hchild | | |]; intros Heq; by apply Hdesc. }
  unfold visitNode in Hv. rewrite Hout in Hv.
  destruct (testSphere sphere); [done| |].
  - injection Hv as Hv. by apply Hpartial.
  - destruct (fullyInRange range range0 range1).
    + injection Hv as <- <-. eexists. split; [by left | done].
    + injection Hv as Hv. by apply Hpartial.
Qed.

Lemma drawModel_covers range colors program (model leaf : tree) :
  rangesNested model -> isLeaf leaf -> visibleIn leaf model -> startsIn range leaf ->
  exists calls, _drawModel range colors program model = Some calls /\ covered calls leaf.
Proof.
  intros Hnested Hleaf Hvis Hstart.
  destruct (drawModel_decisions range colors program model)
    as (tr & Htr & calls & Hcalls & Hdec); [by eapply visibleIn_nonNull|].
  exists calls. split; [done|]. unfold covered. rewrite Hdec.
  eapply drawLoop_covers; eauto. by left.
Qed.

Lemma startsIn_split a m b (x : tree) :
  startsIn (mkRange a b) x -> startsIn (mkRange a m) x \/ startsIn (mkRange m b) x.
Proof.
  destruct x as [|x0 x1 ? ? ?]; [done|]. simpl. intros [Ha Hb].
  destruct (Qlt_le_dec x0 m); [left | right]; done.
Qed.

Lemma startsIn_disjoint a m b (x : tree) :
  startsIn (mkRange a m) x -> startsIn (mkRange m b) x -> False.
Proof.
  destruct x as [|x0 x1 ? ? ?]; [done|]. simpl. intros [_ Hm] [Hm' _]. lra.
Qed.

(** X10.  A channel draws only what starts inside its range.  Let the
    model be a kd-tree (the range of a child lies within the range of its
    parent) and let the channel's range not be the whole range [0,1).
    Then every node that [_drawModel] renders, and every node below a
    rendered node, is a node of the model whose range starts inside the
    channel's range: [range.start <= getRange()[0] < range.end]. *)
Theorem drawModel_draws_within_range
    (model : tree) (range : Range) (colors : bool) (program : option N)
    (calls : list DrawCall) (x : tree) :
  rangesNested model ->
  Range_eqb range Range_ALL = false ->
  _drawModel range colors program model = Some calls ->
  covered calls x ->
  inTree x model /\ startsIn range x.
Proof. apply covered_startsIn. Qed.

(** X11.  A channel draws every visible leaf that starts inside its
    range.  Let the model be a kd-tree and [leaf] one of its leaves such
    that the culler finds neither the leaf nor a node above it outside
    the frustum.  If the range of the leaf starts inside the channel's
    range, then [_drawModel] returns and the leaf is rendered or lies
    below a rendered node. *)
Theorem drawModel_visible_leaf_is_drawn
    (model leaf : tree) (range : Range) (colors : bool) (program : option N) :
  rangesNested model -> isLeaf leaf -> visibleIn leaf model -> startsIn range leaf ->
  exists calls, _drawModel range colors program model = Some calls /\ covered calls leaf.
Proof. apply drawModel_covers. Qed.

(** X12.  Two channels with adjacent ranges draw every visible leaf once.
    Let two channels draw the same kd-tree with the same culler, one with
    the range [a,m) and one with the range [m,b), neither being the whole
    range [0,1).  Then both [_drawModel] return, and every visible leaf
    of the model whose range starts in [a,b) is drawn by exactly one of
    the two channels. *)
Theorem drawModel_adjacent_ranges_draw_once
    (model leaf : tree) (a m b : Q) (colors : bool) (program : option N) :
  rangesNested model -> isLeaf leaf -> visibleIn leaf model ->
  Range_eqb (mkRange a m) Range_ALL = false ->
  Range_eqb (mkRange m b) Range_ALL = false ->
  startsIn (mkRange a b) leaf ->
  exists callsA callsB,
    _drawModel (mkRange a m) colors program model = Some callsA /\
    _drawModel (mkRange m b) colors program model = Some callsB /\
    ((covered callsA leaf /\ ~ covered callsB leaf) \/
     (covered callsB leaf /\ ~ covered callsA leaf)).
Proof.
  intros Hnested Hleaf Hvis HA HB Hstart.
  pose proof (visibleIn_nonNull _ _ Hvis) as Hnn.
  destruct (drawModel_decisions (mkRange a m) colors program model Hnn)
    as (trA & _ & callsA & HcallsA & _).
  destruct (drawModel_decisions (mkRange m b) colors program model Hnn)
    as (trB & _ & callsB & HcallsB & _).
  exists callsA, callsB. split; [done|]. split; [done|].
  destruct (startsIn_split a m b leaf Hstart) as [Hin | Hin]; [left | right].
  - split.
    + destruct (drawModel_covers (mkRange a m) colors program model leaf)
        as (calls & Hc & Hcov); try done. congruence.
    + intros Hcov. eapply startsIn_disjoint; [exact Hin|].
      by eapply (covered_startsIn (mkRange m b)).
  - split.
    + destruct (drawModel_covers (mkRange m b) colors program model leaf)
        as (calls & Hc & Hcov); try done. congruence.
    + intros Hcov. eapply startsIn_disjoint; [|exact Hin].
      by eapply (covered_startsIn (mkRange a m)).
Qed.

End Coverage.

(** X10, witness: the left leaf of the sample model, drawn by the channel
    of the first half. *)
Lemma drawModel_draws_within_range_witness :
  inTree leftLeaf sampleModel /\ startsIn (mkRange 0 (1 # 2)) leftLeaf.
Proof.
  apply (drawModel_draws_within_range sampleModel (mkRange 0 (1 # 2)) true None
           [ setColors true; initFrustum; beginRendering;
             visit (Descended sampleModel); visit (Excluded rightLeaf);
             visit (Rendered leftLeaf); endRendering ] leftLeaf).
  - vm_compute. repeat split; discriminate.
  - reflexivity.
  - reflexivity.
  - exists leftLeaf. split; [|by left]. simpl. do 2 right. left.
Defined.

(** X11, witness: the right leaf of the sample model and the channel of
    the second half. *)
Lemma drawModel_visible_leaf_is_drawn_witness :
  exists calls,
    _drawModel (mkRange (1 # 2) 1) true None sampleModel = Some calls /\
    covered calls rightLeaf.
Proof.
  apply (drawModel_visible_leaf_is_drawn sampleModel rightLeaf (mkRange (1 # 2) 1) true None).
  - vm_compute. repeat split; discriminate.
  - exact I.
  - simpl. split; [discriminate|]. right. right. split; [discriminate | by left].
  - vm_compute. split; [discriminate | reflexivity].
Defined.

(** X12, witness: the two halves of the whole range and the right leaf of
    the sample model. *)
Lemma drawModel_adjacent_ranges_draw_once_witness :
  exists callsA callsB,
    _drawModel (mkRange 0 (1 # 2)) true None sampleModel = Some callsA /\
    _drawModel (mkRange (1 # 2) 1) true None sampleModel = Some callsB /\
    ((covered callsA rightLeaf /\ ~ covered callsB rightLeaf) \/
     (covered callsB rightLeaf /\ ~ covered callsA rightLeaf)).
Proof.
  apply (drawModel_adjacent_ranges_draw_once sampleModel rightLeaf 0 (1 # 2) 1 true None).
  - vm_compute. repeat split; discriminate.
  - exact I.
  - simpl. split; [discriminate|]. right. right. split; [discriminate | by left].
  - reflexivity.
  - reflexivity.
  - vm_compute. split; [discriminate | reflexivity].
Defined.

Section FrameDraw.
Import Frame.
Context {Sphere : Type} `{FrustumCuller Sphere} {Matrix4f : Type}.






End FrameDraw.

Section DrawHelp.
Import Help.








(** A help text of three lines, the last of them empty. *)
Example drawHelp_sample :
  (fun calls => (drawn calls, (fun p => Qred p.1.2) <$> rasterPositions calls))
    <$> _drawHelp (String "a" (String newline (String "b" (String newline EmptyString))))
  = Some (["a"%string; "b"%string; EmptyString], [340; 324; 308]%Q).
Proof. vm_compute. reflexivity. Qed.

End DrawHelp.

End EqPlyProps.

(* ===================================================================== *)
(** * Properties of the AGL event handler *)
(* ===================================================================== *)
Module AGLProps.
Import AGL.

Section Handler.
Context `{Constants}.
Variable getRenderContext : WindowEvent -> WindowEvent.
Variable processEvent : WindowEvent -> bool.

Local Abbreviation handle := (_handleMouseEvent getRenderContext processEvent).

(** Truncation towards zero does not go below an integer lower bound. *)
Lemma int32_of_float_lower (f : Q) (m t : Z) :
  (inject_Z m <= f)%Q -> int32_of_float f = Some t -> (m <= t)%Z.
Proof.
  unfold int32_of_float. case_decide; [|done]. intros Hle [= <-].
  destruct f as [a b]. unfold Qle, inject_Z in Hle. simpl in *.
  rewrite Z.mul_1_r in Hle.
  destruct (Z.le_gt_cases 0 a) as [Ha | Ha].
  - rewrite Z.quot_div_nonneg by lia. apply Z.div_le_lower_bound; lia.
  - assert (a = - (- a))%Z as -> by lia. rewrite Z.quot_opp_l by lia.
    rewrite Z.quot_div_nonneg by lia.
    assert (- a / Z.pos b <= - m)%Z; [|lia].
    apply Z.div_le_upper_bound; lia.
Qed.

Lemma onMenuBar_false (event : EventRef) (mh : Z) :
  onMenuBar event mh = false <->
  (inject_Z mh <= hy (kEventParamWindowMouseLocation event))%Q.
Proof. unfold onMenuBar. rewrite negb_false_iff. apply Qle_bool_iff. Qed.

Lemma onMenuBar_true (event : EventRef) (mh : Z) :
  onMenuBar event mh = true <->
  (hy (kEventParamWindowMouseLocation event) < inject_Z mh)%Q.
Proof.
  unfold onMenuBar. rewrite negb_true_iff, <- not_true_iff_false, Qle_bool_iff.
  split; [apply Qnot_le_lt | apply Qlt_not_le].
Qed.

Lemma position_spec (event : EventRef) (mh px py : Z) :
  onMenuBar event mh = false ->
  position event mh = Some (px, py) ->
  int32_of_float (hx (kEventParamWindowMouseLocation event)) = Some px /\
  int32_of_float (hy (kEventParamWindowMouseLocation event)) = Some (py + mh)%Z /\
  (0 <= py)%Z.
Proof.
  intros Hbar%onMenuBar_false. unfold position.
  destruct (int32_of_float (hx _)) as [x0|]; simpl; [|done].
  destruct (int32_of_float (hy _)) as [y0|] eqn:Hy; simpl; [|done].
  unfold int32_sub. case_decide; simpl; [|done]. intros [= <- <-].
  pose proof (int32_of_float_lower _ _ _ Hbar Hy).
  split; [done|]. split; [f_equal; lia | lia].
Qed.

Lemma position_returns (event : EventRef) (mh : Z) :
  (0 <= mh)%Z ->
  onMenuBar event mh = false ->
  is_Some (int32_of_float (hx (kEventParamWindowMouseLocation event))) ->
  is_Some (int32_of_float (hy (kEventParamWindowMouseLocation event))) ->
  is_Some (position event mh).
Proof.
  intros Hmh Hbar%onMenuBar_false [x0 Hx] [y0 Hy]. unfold position.
  rewrite Hx, Hy. simpl.
  pose proof (int32_of_float_lower _ _ _ Hbar Hy).
  unfold int32_of_float in Hy. case_decide; [|done]. injection Hy as Hy.
  unfold int32_sub. rewrite decide_True by lia. by eexists.
Qed.

Lemma handleMouseEvent_cases (this : AGLEventHandler) (event : EventRef) (win : Window) res :
  handle this event win = Some res ->
  Handled this event win res.
Proof.
  unfold _handleMouseEvent, deliver.
  destruct ((GetEventKind event =? kEventMouseMoved)%N
            || (GetEventKind event =? kEventMouseDragged)%N).
  { destruct (onMenuBar event (menuHeight win)) eqn:Hbar;
      [intros [= <-]; by constructor|].
    destruct (position event (menuHeight win)) as [[px py]|] eqn:Hpos; simpl; [|done].
    destruct (int32_of_float (hx _)) as [dx0|] eqn:Hdx; simpl; [|done].
    destruct (int32_of_float (hy _)) as [dy0|] eqn:Hdy; simpl; [|done].
    intros [= <-].
    by eapply (Motion _ _ _ _ (mkPointerEvent px py dx0 dy0 _ _)). }
  destruct (GetEventKind event =? kEventMouseDown)%N.
  { destruct (onMenuBar event (menuHeight win)) eqn:Hbar;
      [intros [= <-]; by constructor|].
    destruct (position event (menuHeight win)) as [[px py]|] eqn:Hpos; simpl; [|done].
    intros [= <-].
    eapply (Button _ _ _ _ (mkPointerEvent px py _ _ _ _)); simpl; eauto. }
  destruct (GetEventKind event =? kEventMouseUp)%N.
  { destruct (onMenuBar event (menuHeight win)) eqn:Hbar;
      [intros [= <-]; by constructor|].
    destruct (position event (menuHeight win)) as [[px py]|] eqn:Hpos; simpl; [|done].
    intros [= <-].
    eapply (Button _ _ _ _ (mkPointerEvent px py _ _ _ _)); simpl; eauto. }
  intros [= <-]. by apply Unknown.
Qed.

(** With a menu bar of non-negative height and coordinates that are
    [int32_t] values, the handler returns. *)
Lemma handleMouseEvent_returns (this : AGLEventHandler) (event : EventRef) (win : Window) :
  (0 <= menuHeight win)%Z ->
  is_Some (int32_of_float (hx (kEventParamWindowMouseLocation event))) ->
  is_Some (int32_of_float (hy (kEventParamWindowMouseLocation event))) ->
  is_Some (int32_of_float (hx (kEventParamMouseDelta event))) ->
  is_Some (int32_of_float (hy (kEventParamMouseDelta event))) ->
  is_Some (handle this event win).
Proof.
  intros Hmh Hx Hy [dx0 Hdx] [dy0 Hdy]. unfold _handleMouseEvent, deliver.
  destruct (onMenuBar event (menuHeight win)) eqn:Hbar.
  - repeat (destruct (_ || _) || destruct (_ =? _)%N); by eexists.
  - destruct (position_returns event (menuHeight win) Hmh Hbar Hx Hy) as [[px py] Hpos].
    rewrite Hpos, Hdx, Hdy. simpl.
    repeat (destruct (_ || _) || destruct (_ =? _)%N); by eexists.
Qed.

(** X15.  Pointer events on the menu bar are ignored, and the pointer
    events passed on are relative to the window below the menu bar.  The
    menu bar has the height [EQ_AGL_MENUBARHEIGHT] on a decorated window
    and 0 otherwise.  A pointer event (moved, dragged, button down or up)
    whose position lies above that height makes the handler return
    [false] at once: nothing is passed on and the handler keeps its
    state.  Every pointer event that the handler passes on lies at or
    below that height, carries the position truncated to integers with
    the height of the menu bar subtracted from [y], and so has a [y] that
    is not negative. *)
Theorem pointer_events_off_menu_bar
    (this : AGLEventHandler) (event : EventRef) (win : Window) :
  (isPointerKind event ->
   (hy (kEventParamWindowMouseLocation event) < inject_Z (menuHeight win))%Q ->
   handle this event win = Some (false, this, [])) /\
  (forall r this' calls t p,
     handle this event win = Some (r, this', calls) ->
     (t, p) ∈ pointerEvents calls ->
     (inject_Z (menuHeight win) <= hy (kEventParamWindowMouseLocation event))%Q /\
     (0 <= y p)%Z /\
     int32_of_float (hx (kEventParamWindowMouseLocation event)) = Some (x p) /\
     int32_of_float (hy (kEventParamWindowMouseLocation event))
       = Some (y p + menuHeight win)%Z).
Proof.
  split.
  - intros Hkind Hbar%onMenuBar_true. unfold _handleMouseEvent. rewrite Hbar.
    destruct Hkind as [-> | [-> | [-> | ->]]]; rewrite ?N.eqb_refl, ?orb_true_r; simpl;
      repeat (destruct (_ =? _)%N; simpl; try done); reflexivity.
  - intros r this' calls t p Hh Hin. apply handleMouseEvent_cases in Hh.
    inversion Hh as [Hbar | r' ev Ht Hp | r' p' ev ev' Hbar Ht Hp Hpos Hdx Hdy
                     | r' p' ev ev' Hbar Ht Hp Hpos Hdx Hdy]; subst; simpl in Hin.
    + by apply elem_of_nil in Hin.
    + by apply elem_of_nil in Hin.
    + rewrite Hp in Hin. simpl in Hin. apply list_elem_of_singleton in Hin as [= -> ->].
      destruct (position_spec _ _ _ _ Hbar Hpos) as (Hx & Hy & H0).
      split; [by apply onMenuBar_false | done].
    + rewrite Hp in Hin. simpl in Hin. apply list_elem_of_singleton in Hin as [= -> ->].
      destruct (position_spec _ _ _ _ Hbar Hpos) as (Hx & Hy & H0).
      split; [by apply onMenuBar_false | done].
Qed.



End Handler.

Section Runs.
Import AGL.Sample.

(** A motion with the control key held, a press, a motion on the menu
    bar and a second press: the first press reports the delta of the
    motion, the second one (0,0); the motion on the menu bar is not
    passed on; the positions are those below the menu bar. *)
Example mouse_events_sample :
  (fun r => (r.1, pointerEvents r.2)) <$>
    handleMouseEvents (fun ev => ev) (fun _ => true) AGLEventHandler_new
                      [motion; press; onBar; press] win
  = Some (mkAGLEventHandler 0 0,
          [ (POINTER_MOTION,       mkPointerEvent 100 28 3 (-2) 4 0);
            (POINTER_BUTTON_PRESS, mkPointerEvent 100 28 3 (-2) 1 1);
            (POINTER_BUTTON_PRESS, mkPointerEvent 100 28 0 0 1 1) ]).
Proof. vm_compute. reflexivity. Qed.


End Runs.

End AGLProps.
